(** * gitdb: the pack database and the locked file descriptor

    A shallow embedding of [gitdb/util.py] ([allocate_memory], [LockedFD])
    and of [gitdb/db/pack.py] ([PackedDB]), with the properties the
    specification states about them.

    Python objects are records, attributes that are [None] until set are
    options, exceptions are the [Raise] outcome of a small state and error
    monad, and every call that leaves the module (the operating system,
    a pack index, [list.sort]) is recorded in a log, so that "without
    listing the directory" or "without examining further entries" are
    statements about that log. *)

From Stdlib Require Import ZArith Lia Strings.Ascii Strings.Byte Sorting.Sorted.
From stdpp Require Import base option gmap sets list strings.

(** ** Exceptions and outcomes *)

(** The exception classes the two modules raise or let through.  The
    operating system raises [OSError]; [EnvironmentError] is the common
    base of [IOError] and [OSError]. *)
Inductive exn : Type :=
  | AssertionError (msg : string)
  | IOError (msg : string)
  | OSError (msg : string)
  | BadObject (sha : list byte)
  | AmbiguousObjectName (sha : list byte)
  | UnsupportedOperation
  | OtherError (name : string).

Definition is_OSError (e : exn) : bool :=
  match e with OSError _ => true | _ => false end.

Definition is_EnvironmentError (e : exn) : bool :=
  match e with IOError _ | OSError _ => true | _ => false end.

Definition is_BadObject (e : exn) : bool :=
  match e with BadObject _ => true | _ => false end.

Inductive outcome (A : Type) : Type :=
  | Ok (a : A)
  | Raise (e : exn).
Arguments Ok {A} a.
Arguments Raise {A} e.

(** ** The state and exception monad

    A Python method is a function from the state before the call to an
    outcome and the state after it; what was mutated before an exception
    was raised stays mutated. *)
Definition M (S A : Type) : Type := S -> outcome A * S.

Definition ret {S A} (a : A) : M S A := fun s => (Ok a, s).

Definition bind {S A B} (m : M S A) (k : A -> M S B) : M S B :=
  fun s => match m s with
           | (Ok a, s') => k a s'
           | (Raise e, s') => (Raise e, s')
           end.

Definition raise {S A} (e : exn) : M S A := fun s => (Raise e, s).

Definition get {S} : M S S := fun s => (Ok s, s).

Definition modify {S} (f : S -> S) : M S unit := fun s => (Ok tt, f s).

(** [try: m except h]: the handler [h] says which exceptions it catches
    ([None]: not caught, the exception goes on). *)
Definition try_except {S A} (m : M S A) (h : exn -> option (M S A)) : M S A :=
  fun s => match m s with
           | (Ok a, s') => (Ok a, s')
           | (Raise e, s') =>
               match h e with
               | Some k => k s'
               | None => (Raise e, s')
               end
           end.

Declare Scope py_scope.
Delimit Scope py_scope with py.
Notation "x <- m ;; k" := (bind m (fun x => k))
  (at level 100, m at next level, right associativity) : py_scope.
Notation "m ;;; k" := (bind m (fun _ => k))
  (at level 100, right associativity) : py_scope.

(** Octal permission bits. *)
Definition mode_600 : Z := 384.
Definition mode_644 : Z := 420.

(** * gitdb/util.py *)
Module Util.

Local Open Scope py_scope.

(** ** allocate_memory *)

(** The two "file-protocol accessible memory blocks": the wrapper
    [_RandomAccessBytesIO] around a [BytesIO], and an anonymous [mmap]. *)
Inductive buffer : Type :=
  | RandomAccessBytesIO (sio : list byte)
  | MMap (data : list byte).


Definition getvalue (b : buffer) : list byte :=
  match b with
  | RandomAccessBytesIO sio => sio
  | MMap data => data
  end.

(** The calls to [mmap.mmap(-1, size)], in order. *)
Inductive mmap_call : Type := MmapAnon (size : Z).

Section Allocate.

(** The platform: what [mmap.mmap(-1, size)] gives, a mapped block or an
    exception. *)
Variable mmap_anon : Z -> outcome (list byte).

Definition call_mmap (size : Z) : M (list mmap_call) (list byte) :=
  fun log => (mmap_anon size, log ++ [MmapAnon size]).

Definition allocate_memory (size : Z) : M (list mmap_call) buffer :=
  if (size =? 0)%Z then ret (RandomAccessBytesIO [])
  else
    try_except
      (data <- call_mmap size ;; ret (MMap data))
      (fun e =>
         if is_EnvironmentError e
         then Some (ret (RandomAccessBytesIO (replicate (Z.to_nat size) x00)))
         else None).

End Allocate.

(** ** The operating system, as [LockedFD] sees it

    Regular files by path, each with its bytes and permission bits; open
    descriptors by number, each with the path it was opened on, its
    position and whether it may write; and the log of system calls. *)
Record file : Type := File { f_data : list byte; f_mode : Z }.

Record descriptor : Type :=
  Descriptor { d_path : string; d_pos : nat; d_writable : bool }.

Inductive open_flags : Type :=
  | O_WRONLY_CREAT_EXCL   (* os.O_WRONLY | os.O_CREAT | os.O_EXCL | binary *)
  | O_RDONLY.             (* os.O_RDONLY | binary *)

Inductive syscall : Type :=
  | SysOpen (path : string) (flags : open_flags)
  | SysClose (fd : nat)
  | SysWrite (fd : nat) (data : list byte)
  | SysIsfile (path : string)
  | SysRemove (path : string)
  | SysRename (src dst : string)
  | SysChmod (path : string) (mode : Z).

Record os_state : Type :=
  OS { files : gmap string file;
       fds : gmap nat descriptor;
       syslog : list syscall }.

Definition log_sys (c : syscall) : M os_state unit :=
  modify (fun s => OS (files s) (fds s) (syslog s ++ [c])).

Definition set_files (f : gmap string file) : M os_state unit :=
  modify (fun s => OS f (fds s) (syslog s)).

Definition set_fds (d : gmap nat descriptor) : M os_state unit :=
  modify (fun s => OS (files s) d (syslog s)).

(** The owner-read permission bit (0400). *)
Definition owner_readable (f : file) : bool := Z.testbit (f_mode f) 8.

(** [os.open(path, flags, mode)].  With [O_CREAT | O_EXCL] the call fails
    when the path exists and creates an empty file otherwise; read-only,
    it fails when the path is absent or not readable. *)
Definition os_open (path : string) (flags : open_flags) (mode : Z)
  : M os_state nat :=
  log_sys (SysOpen path flags) ;;;
  s <- get ;;
  let fd := fresh (dom (fds s)) in
  match flags, files s !! path with
  | O_WRONLY_CREAT_EXCL, Some _ => raise (OSError "EEXIST")
  | O_WRONLY_CREAT_EXCL, None =>
      set_files (<[path := File [] mode]> (files s)) ;;;
      set_fds (<[fd := Descriptor path 0 true]> (fds s)) ;;;
      ret fd
  | O_RDONLY, None => raise (OSError "ENOENT")
  | O_RDONLY, Some f =>
      if owner_readable f
      then set_fds (<[fd := Descriptor path 0 false]> (fds s)) ;;; ret fd
      else raise (OSError "EACCES")
  end.

Definition os_close (fd : nat) : M os_state unit :=
  log_sys (SysClose fd) ;;;
  s <- get ;;
  match fds s !! fd with
  | None => raise (OSError "EBADF")
  | Some _ => set_fds (delete fd (fds s))
  end.

(** [os.write(fd, data)]: the bytes go in at the descriptor's position,
    over what is there, and the position moves on. *)
Definition write_at (pos : nat) (data old : list byte) : list byte :=
  take pos old ++ data ++ drop (pos + length data) old.

Definition os_write (fd : nat) (data : list byte) : M os_state nat :=
  log_sys (SysWrite fd data) ;;;
  s <- get ;;
  match fds s !! fd with
  | None => raise (OSError "EBADF")
  | Some d =>
      match d_writable d, files s !! d_path d with
      | true, Some f =>
          set_files (<[d_path d := File (write_at (d_pos d) data (f_data f)) (f_mode f)]>
                       (files s)) ;;;
          set_fds (<[fd := Descriptor (d_path d) (d_pos d + length data) true]> (fds s)) ;;;
          ret (length data)
      | _, _ => raise (OSError "EBADF")
      end
  end.

Definition os_isfile (path : string) : M os_state bool :=
  log_sys (SysIsfile path) ;;;
  s <- get ;;
  ret (bool_decide (is_Some (files s !! path))).

Definition os_remove (path : string) : M os_state unit :=
  log_sys (SysRemove path) ;;;
  s <- get ;;
  match files s !! path with
  | None => raise (OSError "ENOENT")
  | Some _ => set_files (delete path (files s))
  end.

(** [os.rename(src, dst)]: where the platform's rename does not overwrite
    ([is_win]), an existing destination is an error. *)
Definition os_rename (is_win : bool) (src dst : string) : M os_state unit :=
  log_sys (SysRename src dst) ;;;
  s <- get ;;
  match files s !! src with
  | None => raise (OSError "ENOENT")
  | Some f =>
      if is_win && bool_decide (is_Some (files s !! dst))
      then raise (OSError "EEXIST")
      else set_files (<[dst := f]> (delete src (files s)))
  end.

Definition os_chmod (path : string) (mode : Z) : M os_state unit :=
  log_sys (SysChmod path mode) ;;;
  s <- get ;;
  match files s !! path with
  | None => raise (OSError "ENOENT")
  | Some f => set_files (<[path := File (f_data f) mode]> (files s))
  end.

(** ** LockedFD *)

(** The instance: [__slots__ = ("_filepath", '_fd', '_write')]. *)
Record LockedFD : Type :=
  MkLockedFD { _filepath : string; _fd : option nat; _write : option bool }.

(** [LockedFD.__init__]. *)
Definition LockedFD_init (filepath : string) : LockedFD :=
  MkLockedFD filepath None None.

(** [LockedFD._lockfilepath]: ["%s.lock" % self._filepath]. *)
Definition _lockfilepath (self : LockedFD) : string :=
  _filepath self +:+ ".lock".

(** A method runs on the operating system and the instance. *)
Definition world : Type := os_state * LockedFD.

Definition sys {A} (m : M os_state A) : M world A :=
  fun w => let '(r, s') := m (fst w) in (r, (s', snd w)).

Definition self_ : M world LockedFD := fun w => (Ok (snd w), w).

Definition set_fd (fd : option nat) : M world unit :=
  modify (fun w => (fst w, MkLockedFD (_filepath (snd w)) fd (_write (snd w)))).

Definition set_write (wr : option bool) : M world unit :=
  modify (fun w => (fst w, MkLockedFD (_filepath (snd w)) (_fd (snd w)) wr)).

(** What [open] returns: the descriptor, or an [FDStream] around it. *)
Inductive opened : Type :=
  | RawFD (fd : option nat)
  | FDStream (fd : option nat).

Section Platform.

(** [is_win = (os.name == 'nt')]. *)
Variable is_win : bool.

Definition open (write stream : bool) : M world opened :=
  self <- self_ ;;
  match _write self with
  | Some _ => raise (AssertionError "Called open multiple times")
  | None =>
      set_write (Some write) ;;;
      (* try to open the lock file *)
      try_except
        (fd <- sys (os_open (_lockfilepath self) O_WRONLY_CREAT_EXCL mode_600) ;;
         if negb write then sys (os_close fd) else set_fd (Some fd))
        (fun e => if is_OSError e
                  then Some (raise (IOError "Lock could not be obtained"))
                  else None) ;;;
      (* open actual file if required *)
      self <- self_ ;;
      match _fd self with
      | None =>
          try_except
            (fd <- sys (os_open (_filepath self) O_RDONLY 0) ;; set_fd (Some fd))
            (fun e => Some (sys (os_remove (_lockfilepath self)) ;;; raise e))
      | Some _ => ret tt
      end ;;;
      self <- self_ ;;
      if stream then ret (FDStream (_fd self)) else ret (RawFD (_fd self))
  end.

Definition _end_writing (successful : bool) : M world unit :=
  self <- self_ ;;
  match _write self with
  | None => raise (AssertionError "Cannot end operation if it wasn't started yet")
  | Some write =>
      match _fd self with
      | None => ret tt
      | Some fd =>
          sys (os_close fd) ;;;
          set_fd None ;;;
          let lockfile := _lockfilepath self in
          if write && successful then
            (if is_win then
               b <- sys (os_isfile (_filepath self)) ;;
               if b then sys (os_remove (_filepath self)) else ret tt
             else ret tt) ;;;
            sys (os_rename is_win lockfile (_filepath self)) ;;;
            sys (os_chmod (_filepath self) mode_644)
          else
            sys (os_remove lockfile)
      end
  end.

Definition commit : M world unit := _end_writing true.

Definition rollback : M world unit := _end_writing false.

(** [__del__]: rolls back when the descriptor is still there.  What a
    finalizer raises is not propagated. *)
Definition __del__ : M world unit :=
  self <- self_ ;;
  match _fd self with
  | Some _ => try_except rollback (fun _ => Some (ret tt))
  | None => ret tt
  end.

(** The caller's writes through the descriptor [open] returned. *)
Fixpoint write_all (fd : nat) (chunks : list (list byte)) : M world unit :=
  match chunks with
  | [] => ret tt
  | c :: rest => sys (os_write fd c) ;;; write_all fd rest
  end.

Definition fd_of (o : opened) : option nat :=
  match o with RawFD fd | FDStream fd => fd end.

(** A whole write transaction: open for writing, write the chunks, then
    end it with [finish] ([commit], [rollback], or [__del__]). *)
Definition write_transaction (stream : bool) (chunks : list (list byte))
    (finish : M world unit) : M world unit :=
  o <- open true stream ;;
  match fd_of o with
  | Some fd => write_all fd chunks ;;; finish
  | None => finish
  end.

End Platform.

End Util.

(** * gitdb/db/pack.py *)
Module Pack.

Local Open Scope py_scope.

#[global] Instance byte_eq_decision : EqDecision byte := Byte.byte_eq_dec.

(** ** The collaborators

    [PackIndexFile] and [PackEntity] live in [gitdb.pack]; the database
    uses them through these methods only.  A lookup answers with a slot,
    with [None], or raises. *)
Record PackIndexFile : Type :=
  MkIndex { sha_to_index : list byte -> outcome (option Z);
            partial_sha_to_index : list byte -> Z -> outcome (option Z);
            sha : Z -> outcome (list byte);
            index_size : Z }.

Record PackEntity : Type :=
  MkEntity { pack_path : string;        (* entity.pack().path() *)
             pack_size : Z;             (* entity.pack().size() *)
             index : PackIndexFile }.   (* entity.index() *)

(** An element of [_entities]: the list [[hits, entity, sha_to_index]]. *)
Record item : Type :=
  Item { hits : Z;
         entity : PackEntity;
         lookup : list byte -> outcome (option Z) }.

Definition item_path (it : item) : string := pack_path (entity it).

(** The directory of packs as the database finds it during one call. *)
Record Disk : Type :=
  MkDisk { st_mtime : outcome Z;                  (* os.stat(root).st_mtime *)
           glob : string -> list string;          (* glob.glob(pattern) *)
           pack_file_size : string -> Z;
           pack_index : string -> PackIndexFile }.

(** The instance.  [_entities] is the lazily loaded attribute: [None]
    until [LazyMixin.__getattr__] has set it. *)
Record PackedDB : Type :=
  MkPackedDB { _root_path : string;
               _entities : option (list item);
               _hit_count : Z;
               _st_mtime : Z }.

(** [PackedDB.__init__]. *)
Definition PackedDB_init (root_path : string) : PackedDB :=
  MkPackedDB root_path None 0 0.

(** sort the priority list every N queries *)
Definition _sort_interval : Z := 500.

(** The calls that leave the module, in order. *)
Inductive call : Type :=
  | CallStat (path : string)
  | CallGlob (pattern : string)
  | CallPackEntity (path : string)
  | CallSort
  | CallShaToIndex (pack : string) (sha : list byte)
  | CallPartialShaToIndex (pack : string) (partial : list byte) (len : Z)
  | CallSha (pack : string) (slot : Z).

Definition world : Type := PackedDB * list call.

Definition log_call (c : call) : M world unit :=
  modify (fun w => (fst w, snd w ++ [c])).

Definition self_ : M world PackedDB := fun w => (Ok (fst w), w).

Definition set_entities (l : list item) : M world unit :=
  modify (fun w => (MkPackedDB (_root_path (fst w)) (Some l)
                      (_hit_count (fst w)) (_st_mtime (fst w)), snd w)).

Definition set_hit_count (n : Z) : M world unit :=
  modify (fun w => (MkPackedDB (_root_path (fst w)) (_entities (fst w))
                      n (_st_mtime (fst w)), snd w)).

Definition set_st_mtime (t : Z) : M world unit :=
  modify (fun w => (MkPackedDB (_root_path (fst w)) (_entities (fst w))
                      (_hit_count (fst w)) t, snd w)).

(** The outcome of a collaborator's call, as it is. *)
Definition returns {A} (r : outcome A) : M world A := fun w => (r, w).

(** [os.path.join(a, b)] for a relative [b]. *)
Fixpoint ends_with_slash (s : string) : bool :=
  match s with
  | EmptyString => false
  | String c EmptyString => bool_decide (c = "/"%char)
  | String _ rest => ends_with_slash rest
  end.

Definition path_join (a b : string) : string :=
  match a with
  | EmptyString => b
  | _ => if ends_with_slash a then a +:+ b else a +:+ "/" +:+ b
  end.

(** [list.sort(key=lambda l: l[0], reverse=True)]: a stable sort, larger
    hit counts first, equal ones in the order they had. *)
Fixpoint insert_desc (x : item) (l : list item) : list item :=
  match l with
  | [] => [x]
  | y :: l' => if (hits y <=? hits x)%Z then x :: y :: l'
               else y :: insert_desc x l'
  end.

Definition sort_desc (l : list item) : list item := foldr insert_desc [] l.

(** The first index whose pack has the given path ([enumerate] and
    [break]); [None] is [del_index == -1]. *)
Fixpoint find_index (pack_file : string) (l : list item) (i : nat) : option nat :=
  match l with
  | [] => None
  | it :: rest => if bool_decide (item_path it = pack_file) then Some i
                  else find_index pack_file rest (S i)
  end.

(** Python's truth value of [candidate]: [None] and [b''] are false. *)
Definition truthy (c : option (list byte)) : bool :=
  match c with
  | Some (_ :: _) => true
  | _ => false
  end.

Section OnDisk.

Variable d : Disk.

Section Lazy.

(** [LazyMixin.__getattr__] calls [self._set_cache_(attr)]; the methods
    below are written over it, and it is [_set_cache_] further down. *)
Variable set_cache : M world unit.

(** Reading [self._entities]. *)
Definition entities_attr : M world (list item) :=
  self <- self_ ;;
  match _entities self with
  | Some l => ret l
  | None =>
      set_cache ;;;
      self <- self_ ;;
      match _entities self with
      | Some l => ret l
      | None => raise (OtherError "AttributeError")
      end
  end.

Definition _sort_entities_with : M world unit :=
  l <- entities_attr ;;
  log_call CallSort ;;;
  set_entities (sort_desc l).

(** [for pack_file in (pack_files - our_pack_files)]. *)
Fixpoint add_new_packs (new_files : list string) : M world unit :=
  match new_files with
  | [] => ret tt
  | pack_file :: rest =>
      log_call (CallPackEntity pack_file) ;;;
      let ent := MkEntity pack_file (pack_file_size d pack_file)
                   (pack_index d pack_file) in
      l <- entities_attr ;;
      set_entities (l ++ [Item (pack_size ent) ent (sha_to_index (index ent))]) ;;;
      add_new_packs rest
  end.

(** [for pack_file in (our_pack_files - pack_files)]. *)
Fixpoint remove_gone_packs (gone_files : list string) : M world unit :=
  match gone_files with
  | [] => ret tt
  | pack_file :: rest =>
      l <- entities_attr ;;
      match find_index pack_file l 0 with
      | None => raise (AssertionError "del_index != -1")
      | Some del_index =>
          set_entities (delete del_index l) ;;;
          remove_gone_packs rest
      end
  end.

Definition update_cache_with (force : bool) : M world bool :=
  self <- self_ ;;
  log_call (CallStat (_root_path self)) ;;;
  mtime <- returns (st_mtime d) ;;
  if negb force && (mtime <=? _st_mtime self)%Z then ret false
  else
    set_st_mtime mtime ;;;
    let pattern := path_join (_root_path self) "pack-*.pack" in
    log_call (CallGlob pattern) ;;;
    let pack_files : gset string := list_to_set (glob d pattern) in
    l <- entities_attr ;;
    let our_pack_files : gset string := list_to_set (item_path <$> l) in
    add_new_packs (elements (pack_files ∖ our_pack_files)) ;;;
    remove_gone_packs (elements (our_pack_files ∖ pack_files)) ;;;
    _sort_entities_with ;;;
    ret true.

End Lazy.

(** [PackedDB._set_cache_('_entities')].  Inside it the attribute is set
    before [update_cache] runs, so no further load is triggered. *)
Definition _set_cache_ : M world unit :=
  set_entities [] ;;;
  update_cache_with (raise (OtherError "RecursionError")) true ;;;
  ret tt.

Definition entities_ : M world (list item) := entities_attr _set_cache_.

Definition _sort_entities : M world unit := _sort_entities_with _set_cache_.

Definition update_cache (force : bool) : M world bool :=
  update_cache_with _set_cache_ force.

(** The [for item in self._entities] of [_pack_info]; [i] is the position
    of the head of [l] in the list, where [item[0] += 1] lands. *)
Fixpoint scan_entities (l : list item) (i : nat) (sha_ : list byte)
  : M world (PackEntity * Z) :=
  match l with
  | [] => raise (BadObject sha_)
  | it :: rest =>
      log_call (CallShaToIndex (item_path it) sha_) ;;;
      r <- returns (sha_to_index (index (entity it)) sha_) ;;
      match r with
      | Some slot =>
          all <- entities_ ;;
          set_entities (<[i := Item (hits it + 1) (entity it) (lookup it)]> all) ;;;
          self <- self_ ;;
          set_hit_count (_hit_count self + 1) ;;;
          ret (entity it, slot)
      | None => scan_entities rest (S i) sha_
      end
  end.

Definition _pack_info (sha_ : list byte) : M world (PackEntity * Z) :=
  self <- self_ ;;
  (if (_hit_count self mod _sort_interval =? 0)%Z then _sort_entities
   else ret tt) ;;;
  l <- entities_ ;;
  scan_entities l 0 sha_.

Definition has_object (sha_ : list byte) : M world bool :=
  try_except (_pack_info sha_ ;;; ret true)
    (fun e => if is_BadObject e then Some (ret false) else None).

(** [store]: always [UnsupportedOperation]. *)
Definition store : M world unit := raise UnsupportedOperation.

(** [entities()]. *)
Definition entities : M world (list PackEntity) :=
  l <- entities_ ;; ret (entity <$> l).

(** The [for item in self._entities] of [partial_to_complete_sha]. *)
Fixpoint scan_partial (l : list item) (candidate : option (list byte))
    (partial_binsha : list byte) (canonical_length : Z)
  : M world (option (list byte)) :=
  match l with
  | [] => ret candidate
  | it :: rest =>
      log_call (CallPartialShaToIndex (item_path it) partial_binsha canonical_length) ;;;
      r <- returns (partial_sha_to_index (index (entity it))
                      partial_binsha canonical_length) ;;
      match r with
      | Some item_index =>
          log_call (CallSha (item_path it) item_index) ;;;
          sha_ <- returns (sha (index (entity it)) item_index) ;;
          if truthy candidate && bool_decide (candidate ≠ Some sha_)
          then raise (AmbiguousObjectName partial_binsha)
          else scan_partial rest (Some sha_) partial_binsha canonical_length
      | None => scan_partial rest candidate partial_binsha canonical_length
      end
  end.

Definition partial_to_complete_sha (partial_binsha : list byte)
    (canonical_length : Z) : M world (list byte) :=
  l <- entities_ ;;
  candidate <- scan_partial l None partial_binsha canonical_length ;;
  match candidate with
  | Some (b :: rest) => ret (b :: rest)
  | _ => raise (BadObject partial_binsha)
  end.

End OnDisk.

End Pack.

(** * Example packs and directories *)
Module Examples.

Import Pack.

(** The hexadecimal digits of raw bytes, and the test that the first
    [len] of them are the same in a partial and in a full digest (when
    [len] is odd the last nibble of the partial digest's bytes is not
    looked at). *)
Definition nibbles (bs : list byte) : list N :=
  concat ((fun b => [N.shiftr (Byte.to_N b) 4; N.land (Byte.to_N b) 15]) <$> bs).

Definition has_prefix (partial : list byte) (len : Z) (full : list byte) : Prop :=
  take (Z.to_nat len) (nibbles partial) = take (Z.to_nat len) (nibbles full).

#[global] Instance has_prefix_dec partial len full :
  Decision (has_prefix partial len full).
Proof. unfold has_prefix. apply _. Defined.

(** Modelled from the spec: the index of one pack ([PackIndexFile] of
    [gitdb.pack], of which the repository here shows the calls only).
    An index is the list of its digests; [sha_to_index] gives the slot
    of a digest, [partial_sha_to_index] the slot of the first digest
    with the given hex prefix, [sha] the digest in a slot.  It serves
    the examples; the theorems hold for any index. *)
Definition index_of (shas : list (list byte)) : PackIndexFile :=
  MkIndex
    (fun s => Ok (Z.of_nat <$> (fst <$> list_find (fun x => x = s) shas)))
    (fun partial len =>
       Ok (Z.of_nat <$> (fst <$> list_find (has_prefix partial len) shas)))
    (fun i => match (if (0 <=? i)%Z then shas !! Z.to_nat i else None) with
              | Some s => Ok s
              | None => Raise (OtherError "IndexError")
              end)
    (Z.of_nat (length shas)).

(** An index that cannot be read: every query raises. *)
Definition broken_index (e : exn) : PackIndexFile :=
  MkIndex (fun _ => Raise e) (fun _ _ => Raise e) (fun _ => Raise e) 0.

Definition item_of (hit_count : Z) (path : string) (idx : PackIndexFile) : item :=
  Item hit_count (MkEntity path hit_count idx) (sha_to_index idx).

(** Three digests: two share the hex prefix [aaaa] and differ in the
    fifth hex digit. *)
Definition sha_aaaa1 : list byte := [xaa; xaa; x10] ++ replicate 17 x00.
Definition sha_aaaa2 : list byte := [xaa; xaa; x20] ++ replicate 17 x00.
Definition sha_bb : list byte := xbb :: replicate 19 x00.

Definition pack_a : item := item_of 300 "/r/pack-a.pack" (index_of [sha_aaaa1]).
Definition pack_b : item := item_of 200 "/r/pack-b.pack" (index_of [sha_aaaa2]).
Definition pack_c : item := item_of 100 "/r/pack-c.pack" (index_of [sha_bb]).
Definition pack_broken : item :=
  item_of 400 "/r/pack-x.pack" (broken_index (IOError "index unreadable")).

(** A directory holding the given pack files, each of 50 bytes with an
    empty index, last modified at [mtime]. *)
Definition disk_with (mtime : Z) (pack_files : list string) : Disk :=
  MkDisk (Ok mtime) (fun _ => pack_files) (fun _ => 50%Z) (fun _ => index_of []).

(** A database with the given registry, [hit_count] hits so far, last
    refreshed at time 10. *)
Definition db_with (l : list item) (hit_count : Z) : PackedDB :=
  MkPackedDB "/r" (Some l) hit_count 10.

End Examples.

(** * gitdb/db/pack.py: the other read methods *)
Module PackRead.

Import Pack.
Local Open Scope py_scope.

Section Read.

Variable d : Disk.

(** [entity.info_at_index] and [entity.stream_at_index] belong to
    [gitdb.pack.PackEntity]; what they return ([OInfo], [OStream]) is
    left open, and so is what [with entity:] does on the way in and
    out. *)
Variables OInfo OStream : Type.
Variable info_at_index : PackEntity -> Z -> outcome OInfo.
Variable stream_at_index : PackEntity -> Z -> outcome OStream.

Definition info (sha_ : list byte) : M world OInfo :=
  r <- _pack_info d sha_ ;;
  returns (info_at_index (fst r) (snd r)).

Definition stream (sha_ : list byte) : M world OStream :=
  r <- _pack_info d sha_ ;;
  returns (stream_at_index (fst r) (snd r)).

(** [size]: [sz = 0], then [sz += idx.size()] for each entity. *)
Definition size : M world Z :=
  ents <- entities d ;;
  ret (foldl (fun sz ent => (sz + index_size (index ent))%Z) 0%Z ents).

(** [for index in xrange(index.size()): yield sha_by_index(index)], for
    one entity. *)
Fixpoint yield_shas (ent : PackEntity) (slots : list Z)
  : M world (list (list byte)) :=
  match slots with
  | [] => ret []
  | i :: rest =>
      log_call (CallSha (pack_path ent) i) ;;;
      s <- returns (sha (index ent) i) ;;
      more <- yield_shas ent rest ;;
      ret (s :: more)
  end.

Fixpoint yield_entities (ents : list PackEntity) : M world (list (list byte)) :=
  match ents with
  | [] => ret []
  | ent :: rest =>
      shas <- yield_shas ent (seqZ 0 (index_size (index ent))) ;;
      more <- yield_entities rest ;;
      ret (shas ++ more)
  end.

(** [sha_iter], consumed to its end ([list(db.sha_iter())]): the digests
    it yields, or the exception that ends it. *)
Definition sha_iter : M world (list (list byte)) :=
  ents <- entities d ;;
  yield_entities ents.

End Read.

Arguments info d {OInfo} info_at_index sha_.
Arguments stream d {OStream} stream_at_index sha_.

End PackRead.

(** * gitdb/util.py: reading files, digests as text, buffers *)
Module UtilRead.

Import Util.
Local Open Scope py_scope.

(** ** to_hex_sha, to_bin_sha *)

Section Hex.

(** [bin_to_hex = binascii.b2a_hex] and [hex_to_bin = binascii.a2b_hex];
    the second raises on text that is not hexadecimal. *)
Variable bin_to_hex : list byte -> list byte.
Variable hex_to_bin : list byte -> outcome (list byte).

Definition to_hex_sha (sha : list byte) : list byte :=
  if (length sha =? 40)%nat then sha else bin_to_hex sha.

Definition to_bin_sha (sha : list byte) : outcome (list byte) :=
  if (length sha =? 20)%nat then Ok sha else hex_to_bin sha.

End Hex.

(** ** _RandomAccessBytesIO *)

(** [seq[i]] of Python: a negative index counts from the end, an index
    out of range raises [IndexError]. *)
Definition py_index {A} (l : list A) (i : Z) : outcome A :=
  let j := if (i <? 0)%Z then (i + Z.of_nat (length l))%Z else i in
  match (if (0 <=? j)%Z then l !! Z.to_nat j else None) with
  | Some x => Ok x
  | None => Raise (OtherError "IndexError")
  end.

(** [seq[start:end]] of Python: negative bounds count from the end, and
    both are clipped to the sequence. *)
Definition py_bound (len i : Z) : Z :=
  if (i <? 0)%Z then Z.max (i + len) 0 else Z.min i len.

Definition py_slice {A} (l : list A) (start end_ : Z) : list A :=
  let len := Z.of_nat (length l) in
  let a := py_bound len start in
  let b := py_bound len end_ in
  take (Z.to_nat (b - a)) (drop (Z.to_nat a) l).

(** [__len__], [__getitem__] and [__getslice__] go through [getvalue()]. *)
Definition __len__ (sio : list byte) : Z := Z.of_nat (length sio).

Definition __getitem__ (sio : list byte) (i : Z) : outcome byte := py_index sio i.

Definition __getslice__ (sio : list byte) (start end_ : Z) : list byte :=
  py_slice sio start end_.

(** ** file_contents_ro, file_contents_ro_filepath *)

(** The calls on a descriptor that read, beside the [open] and [close]
    in the log of the operating system. *)
Inductive read_call : Type :=
  | CallMmap (fd : nat) (length : Z)
  | CallFstat (fd : nat)
  | CallRead (fd : nat) (n : Z).

Definition rworld : Type := os_state * list read_call.

Definition on_os {A} (m : M os_state A) : M rworld A :=
  fun w => let '(r, s') := m (fst w) in (r, (s', snd w)).

Definition log_read (c : read_call) : M rworld unit :=
  modify (fun w => (fst w, snd w ++ [c])).

(** [try: m finally: f]. *)
Definition try_finally {S A} (m : M S A) (f : M S unit) : M S A :=
  fun s => match m s with
           | (r, s') =>
               match f s' with
               | (Ok _, s'') => (r, s'')
               | (Raise e, s'') => (Raise e, s'')
               end
           end.

(** What [file_contents_ro] returns: the [bytes] read, or a buffer (a
    map of the file, or a [_RandomAccessBytesIO] around the bytes). *)
Inductive contents : Type :=
  | Bytes (data : list byte)
  | Buffer (buf : buffer).

(** The file behind a descriptor. *)
Definition behind (s : os_state) (fd : nat) : option file :=
  match fds s !! fd with
  | Some d => files s !! d_path d
  | None => None
  end.

Section Mapping.

(** The platform: what [mmap.mmap(fd, length, access=mmap.ACCESS_READ)]
    gives for the bytes behind the descriptor ([None]: there is no such
    file), a map or an exception. *)
Variable mmap_ro : option (list byte) -> Z -> outcome (list byte).

Definition call_mmap_ro (fd : nat) (len : Z) : M rworld (list byte) :=
  log_read (CallMmap fd len) ;;;
  w <- get ;;
  fun w' => (mmap_ro (f_data <$> behind (fst w) fd) len, w').

(** [os.fstat(fd).st_size]. *)
Definition os_fstat_size (fd : nat) : M rworld Z :=
  log_read (CallFstat fd) ;;;
  w <- get ;;
  match behind (fst w) fd with
  | Some f => ret (Z.of_nat (length (f_data f)))
  | None => raise (OSError "EBADF")
  end.

(** [os.read(fd, n)]: up to [n] bytes from the descriptor's position,
    which moves on. *)
Definition os_read (fd : nat) (n : Z) : M rworld (list byte) :=
  log_read (CallRead fd n) ;;;
  w <- get ;;
  match fds (fst w) !! fd with
  | None => raise (OSError "EBADF")
  | Some d =>
      match d_writable d, files (fst w) !! d_path d with
      | false, Some f =>
          if (n <? 0)%Z then raise (OSError "EINVAL")
          else
            let data := take (Z.to_nat n) (drop (d_pos d) (f_data f)) in
            on_os (set_fds (<[fd := Descriptor (d_path d) (d_pos d + length data) false]>
                              (fds (fst w)))) ;;;
            ret data
      | _, _ => raise (OSError "EBADF")
      end
  end.

Definition file_contents_ro (fd : nat) (stream allow_mmap : bool)
  : M rworld contents :=
  mapped <-
    try_except
      (if allow_mmap then
         try_except
           (data <- call_mmap_ro fd 0 ;; ret (Some (Buffer (MMap data))))
           (fun e =>
              if is_EnvironmentError e
              then Some (st_size <- os_fstat_size fd ;;
                         data <- call_mmap_ro fd st_size ;;
                         ret (Some (Buffer (MMap data))))
              else None)
       else ret None)
      (fun e => if is_OSError e then Some (ret None) else None) ;;
  match mapped with
  | Some m => ret m
  | None =>
      (* read manually *)
      st_size <- os_fstat_size fd ;;
      data <- os_read fd st_size ;;
      if stream then ret (Buffer (RandomAccessBytesIO data))
      else ret (Bytes data)
  end.

(** [os.open(filepath, os.O_RDONLY | O_BINARY | flags)].  With no flag
    added it is the read-only open of [os_open]; what the call does with
    other flags ([O_CREAT] creates the file, [O_TRUNC] empties it, ...)
    is the platform's. *)
Variable os_open_flags : string -> Z -> M os_state nat.

Definition open_for_reading (filepath : string) (flags : Z) : M os_state nat :=
  if (flags =? 0)%Z then os_open filepath O_RDONLY 0
  else os_open_flags filepath flags.

Definition file_contents_ro_filepath (filepath : string)
    (stream allow_mmap : bool) (flags : Z) : M rworld contents :=
  fd <- on_os (open_for_reading filepath flags) ;;
  try_finally (file_contents_ro fd stream allow_mmap) (on_os (os_close fd)).

End Mapping.

End UtilRead.

(** * Properties of gitdb/util.py *)
Module UtilProps.

Import Util.
Local Open Scope py_scope.

(** ** allocate_memory *)

(** A platform for examples: anonymous mappings below one page succeed
    and are zero-filled, larger ones are refused. *)
Definition small_mmap (size : Z) : outcome (list byte) :=
  if (size <? 4096)%Z then Ok (replicate (Z.to_nat size) x00)
  else Raise (OSError "ENOMEM").

Lemma allocate_memory_zero mmap_anon log :
  allocate_memory mmap_anon 0 log = (Ok (RandomAccessBytesIO []), log).
Proof. reflexivity. Qed.

Lemma allocate_memory_mapped mmap_anon size data log :
  size ≠ 0%Z -> mmap_anon size = Ok data ->
  allocate_memory mmap_anon size log = (Ok (MMap data), log ++ [MmapAnon size]).
Proof.
  intros Hsz Hmap. unfold allocate_memory.
  destruct (Z.eqb_spec size 0) as [->|_]; [done|].
  unfold try_except, bind, call_mmap, ret. by rewrite Hmap.
Qed.

Lemma allocate_memory_refused mmap_anon size e log :
  size ≠ 0%Z -> mmap_anon size = Raise e -> is_EnvironmentError e = true ->
  allocate_memory mmap_anon size log
  = (Ok (RandomAccessBytesIO (replicate (Z.to_nat size) x00)),
     log ++ [MmapAnon size]).
Proof.
  intros Hsz Hmap He. unfold allocate_memory.
  destruct (Z.eqb_spec size 0) as [->|_]; [done|].
  unfold try_except, bind, call_mmap, ret. by rewrite Hmap, He.
Qed.



(** ** LockedFD *)

Lemma append_neq (p s : string) : s ≠ "" -> p +:+ s ≠ p.
Proof.
  intros Hs. induction p as [|a p IH]; [done|].
  change (String a (p +:+ s) ≠ String a p). congruence.
Qed.

Lemma lockfile_neq (path : string) : path +:+ ".lock" ≠ path.
Proof. by apply append_neq. Qed.

Lemma fresh_fd_unused (D : gmap nat descriptor) : D !! fresh (dom D) = None.
Proof. apply not_elem_of_dom, is_fresh. Qed.

Lemma write_at_end (old data : list byte) :
  write_at (length old) data old = old ++ data.
Proof.
  unfold write_at. rewrite take_ge, drop_ge by lia. by rewrite app_nil_r.
Qed.

Ltac unfold_os :=
  unfold os_open, os_close, os_write, os_isfile, os_remove, os_rename, os_chmod,
    log_sys, set_files, set_fds, set_fd, set_write, self_, sys,
    bind, ret, raise, get, modify, try_except.

Lemma open_write_run (s : os_state) (path : string) (stream : bool) :
  files s !! (path +:+ ".lock") = None ->
  open true stream (s, LockedFD_init path)
  = (Ok ((if stream then FDStream else RawFD) (Some (fresh (dom (fds s))))),
     (OS (<[path +:+ ".lock" := File [] mode_600]> (files s))
         (<[fresh (dom (fds s)) := Descriptor (path +:+ ".lock") 0 true]> (fds s))
         (syslog s ++ [SysOpen (path +:+ ".lock") O_WRONLY_CREAT_EXCL]),
      MkLockedFD path (Some (fresh (dom (fds s)))) (Some true))).
Proof.
  intros Hlock. unfold open. unfold_os. unfold _lockfilepath. simpl.
  rewrite Hlock. simpl. by destruct stream.
Qed.

Lemma write_all_run (chunks : list (list byte)) :
  forall (F : gmap string file) (D : gmap nat descriptor) (L : list syscall)
         (self : LockedFD) (fd : nat) (lock : string) (old : list byte) (mode : Z),
    F !! lock = Some (File old mode) ->
    D !! fd = Some (Descriptor lock (length old) true) ->
    write_all fd chunks (OS F D L, self)
    = (Ok tt,
       (OS (<[lock := File (old ++ concat chunks) mode]> F)
           (<[fd := Descriptor lock (length (old ++ concat chunks)) true]> D)
           (L ++ (SysWrite fd <$> chunks)),
        self)).
Proof.
  induction chunks as [|c chunks IH]; intros F D L self fd lock old mode HF HD.
  - simpl. unfold ret. rewrite !app_nil_r.
    rewrite (insert_id F) by done. by rewrite (insert_id D).
  - simpl. unfold_os. simpl. rewrite HD. simpl. rewrite HF. simpl.
    rewrite write_at_end.
    rewrite (IH _ _ _ _ fd lock (old ++ c) mode).
    + rewrite (insert_insert_eq F), (insert_insert_eq D).
      by rewrite <- !app_assoc.
    + by rewrite lookup_insert_eq.
    + rewrite lookup_insert_eq. by rewrite length_app.
Qed.

(** The system calls [commit] makes after closing the descriptor. *)
Definition commit_calls (is_win existed : bool) (path : string) : list syscall :=
  (if is_win then SysIsfile path :: (if existed then [SysRemove path] else [])
   else [])
  ++ [SysRename (path +:+ ".lock") path; SysChmod path mode_644].

Lemma commit_run (is_win : bool) (F : gmap string file) (D : gmap nat descriptor)
    (L : list syscall) (path : string) (fd : nat) (data : list byte) (mode : Z)
    (dsc : descriptor) :
  F !! (path +:+ ".lock") = Some (File data mode) ->
  D !! fd = Some dsc ->
  commit is_win (OS F D L, MkLockedFD path (Some fd) (Some true))
  = (Ok tt,
     (OS (<[path := File data mode_644]> (delete (path +:+ ".lock") F))
         (delete fd D)
         (L ++ SysClose fd
            :: commit_calls is_win (bool_decide (is_Some (F !! path))) path),
      MkLockedFD path None (Some true))).
Proof.
  intros HF HD. pose proof (lockfile_neq path) as Hne.
  unfold commit, _end_writing, commit_calls. unfold_os. unfold _lockfilepath.
  simpl. rewrite HD. simpl.
  destruct is_win; simpl.
  - destruct (F !! path) as [f|] eqn:Hpath; simpl.
    + rewrite Hpath. simpl.
      rewrite lookup_delete_ne, HF by done. simpl.
      rewrite lookup_delete_eq. simpl.
      rewrite lookup_insert_eq. simpl.
      rewrite insert_insert_eq, <- !app_assoc. simpl.
      rewrite (delete_delete F), insert_delete_eq. done.
    + rewrite HF. simpl. rewrite Hpath. simpl.
      rewrite lookup_insert_eq. simpl.
      rewrite insert_insert_eq, <- !app_assoc. done.
  - rewrite HF. simpl. rewrite lookup_insert_eq. simpl.
    rewrite insert_insert_eq, <- !app_assoc. done.
Qed.

Lemma rollback_run (is_win write : bool) (F : gmap string file)
    (D : gmap nat descriptor) (L : list syscall) (path : string) (fd : nat)
    (f : file) (dsc : descriptor) :
  F !! (path +:+ ".lock") = Some f ->
  D !! fd = Some dsc ->
  rollback is_win (OS F D L, MkLockedFD path (Some fd) (Some write))
  = (Ok tt,
     (OS (delete (path +:+ ".lock") F) (delete fd D)
         (L ++ [SysClose fd; SysRemove (path +:+ ".lock")]),
      MkLockedFD path None (Some write))).
Proof.
  intros HF HD. unfold rollback, _end_writing. unfold_os. unfold _lockfilepath.
  simpl. rewrite HD. simpl. rewrite andb_false_r. simpl. rewrite HF. simpl.
  by rewrite <- !app_assoc.
Qed.

(** In read mode [commit] is [rollback]. *)
Lemma commit_read_is_rollback (is_win : bool) (w : world) :
  _write (snd w) = Some false -> commit is_win w = rollback is_win w.
Proof.
  intros Hw. unfold commit, rollback, _end_writing, bind, self_. simpl.
  rewrite Hw. done.
Qed.

(** Once the descriptor is gone, ending the operation does nothing. *)
Lemma end_writing_closed (is_win successful : bool) (w : world) :
  is_Some (_write (snd w)) -> _fd (snd w) = None ->
  _end_writing is_win successful w = (Ok tt, w).
Proof.
  intros [wr Hwr] Hfd. unfold _end_writing, bind, self_, ret. simpl.
  by rewrite Hwr, Hfd.
Qed.

(** *** What a method keeps true of the instance *)

Definition keeps {A} (Q : LockedFD -> Prop) (m : M world A) : Prop :=
  forall w r w', Q (snd w) -> m w = (r, w') -> Q (snd w').

Lemma keeps_ret {A} Q (a : A) : keeps Q (ret a).
Proof. intros w r w' HQ [= _ <-]. done. Qed.

Lemma keeps_raise {A} Q e : keeps Q (@raise world A e).
Proof. intros w r w' HQ [= _ <-]. done. Qed.

Lemma keeps_bind {A B} Q (m : M world A) (k : A -> M world B) :
  keeps Q m -> (forall a, keeps Q (k a)) -> keeps Q (bind m k).
Proof.
  intros Hm Hk w r w' HQ. unfold bind.
  destruct (m w) as [[a|e] w1] eqn:Hmw.
  - intros Hkw. eapply Hk; [|exact Hkw]. eapply Hm; eauto.
  - intros [= _ <-]. eapply Hm; eauto.
Qed.

Lemma keeps_try {A} Q (m : M world A) (h : exn -> option (M world A)) :
  keeps Q m -> (forall e k, h e = Some k -> keeps Q k) -> keeps Q (try_except m h).
Proof.
  intros Hm Hh w r w' HQ. unfold try_except.
  destruct (m w) as [[a|e] w1] eqn:Hmw.
  - intros [= _ <-]. eapply Hm; eauto.
  - destruct (h e) as [k|] eqn:Hhe.
    + intros Hkw. eapply Hh; [exact Hhe| |exact Hkw]. eapply Hm; eauto.
    + intros [= _ <-]. eapply Hm; eauto.
Qed.

Lemma keeps_sys {A} Q (m : M os_state A) : keeps Q (sys m).
Proof.
  intros w r w' HQ. unfold sys. destruct (m (fst w)) as [r1 s1].
  intros [= _ <-]. done.
Qed.

Lemma keeps_self Q : keeps Q self_.
Proof. intros w r w' HQ [= _ <-]. done. Qed.

Lemma keeps_set_fd (Q : LockedFD -> Prop) fd :
  (forall l, Q l -> Q (MkLockedFD (_filepath l) fd (_write l))) ->
  keeps Q (set_fd fd).
Proof. intros H w r w' HQ [= _ <-]. simpl. auto. Qed.

Create HintDb keeps.
#[local] Hint Resolve keeps_ret keeps_raise keeps_sys keeps_self : keeps.

(** After [open], whatever its outcome, [_write] is set. *)
Lemma open_sets_write (write stream : bool) (w : world) :
  is_Some (_write (snd (snd (open write stream w)))).
Proof.
  unfold open, bind at 1, self_. simpl.
  destruct (_write (snd w)) as [wr|] eqn:Hw.
  - unfold raise. simpl. rewrite Hw. eauto.
  - unfold bind at 1, set_write, modify. simpl.
    match goal with |- is_Some (_write (snd (snd (?m ?w0)))) =>
      assert (keeps (fun l => is_Some (_write l)) m) as Hk; [|
        destruct (m w0) as [r w'] eqn:Hrun;
        eapply Hk; [|exact Hrun]; simpl; eauto]
    end.
    apply keeps_bind; [|intros _; apply keeps_bind; [auto with keeps|]].
    + apply keeps_try.
      * apply keeps_bind; [auto with keeps|]. intros fd.
        destruct (negb write); [auto with keeps|]. by apply keeps_set_fd.
      * intros e k. destruct (is_OSError e); [|done]. intros [= <-]. auto with keeps.
    + intros self. apply keeps_bind; [|intros _; apply keeps_bind; [auto with keeps|]].
      * destruct (_fd self); [auto with keeps|].
        apply keeps_try.
        -- apply keeps_bind; [auto with keeps|]. intros fd. by apply keeps_set_fd.
        -- intros e k [= <-]. apply keeps_bind; auto with keeps.
      * intros self'. destruct stream; auto with keeps.
Qed.

Lemma close_fresh_fd (D : gmap nat descriptor) (x : descriptor) :
  delete (fresh (dom D)) (<[fresh (dom D) := x]> D) = D.
Proof. rewrite delete_insert_eq. apply delete_id, fresh_fd_unused. Qed.

Lemma remove_fresh_lock (F : gmap string file) (p : string) (x : file) :
  F !! p = None -> delete p (<[p := x]> F) = F.
Proof. intros H. rewrite delete_insert_eq. by apply delete_id. Qed.

Lemma open_read_run (s : os_state) (path : string) (stream : bool) (f : file) :
  files s !! (path +:+ ".lock") = None ->
  files s !! path = Some f -> owner_readable f = true ->
  open false stream (s, LockedFD_init path)
  = (Ok ((if stream then FDStream else RawFD) (Some (fresh (dom (fds s))))),
     (OS (<[path +:+ ".lock" := File [] mode_600]> (files s))
         (<[fresh (dom (fds s)) := Descriptor path 0 false]> (fds s))
         (syslog s ++ [SysOpen (path +:+ ".lock") O_WRONLY_CREAT_EXCL;
                       SysClose (fresh (dom (fds s)));
                       SysOpen path O_RDONLY]),
      MkLockedFD path (Some (fresh (dom (fds s)))) (Some false))).
Proof.
  intros Hlock Hpath Hread. pose proof (lockfile_neq path) as Hne.
  unfold open. unfold_os. unfold _lockfilepath. simpl.
  rewrite Hlock. simpl. rewrite lookup_insert_eq. simpl.
  rewrite lookup_insert_ne, Hpath by done. rewrite Hread. simpl.
  rewrite close_fresh_fd, <- !app_assoc. simpl. by destruct stream.
Qed.

(** The first [open] of a fresh instance never fails for misuse. *)
Lemma open_first_call (write stream : bool) (s : os_state) (path : string) :
  forall msg, fst (open write stream (s, LockedFD_init path))
              ≠ Raise (AssertionError msg).
Proof.
  intros msg. pose proof (lockfile_neq path) as Hne.
  unfold open. unfold_os. unfold _lockfilepath. simpl.
  destruct (files s !! (path +:+ ".lock")) as [lf|] eqn:Hlock; simpl; [done|].
  destruct write; simpl.
  - by destruct stream.
  - rewrite lookup_insert_eq. simpl. rewrite lookup_insert_ne by done.
    destruct (files s !! path) as [f|] eqn:Hpath; simpl.
    + destruct (owner_readable f); simpl.
      * by destruct stream.
      * rewrite lookup_insert_eq. simpl. done.
    + rewrite lookup_insert_eq. simpl. done.
Qed.

(** After a first call that returned, a later call does nothing. *)
Lemma end_writing_idempotent (is_win b1 b2 : bool) (w w1 : world) :
  _end_writing is_win b1 w = (Ok tt, w1) ->
  _end_writing is_win b2 w1 = (Ok tt, w1).
Proof.
  intros Hrun.
  assert (is_Some (_write (snd w1)) /\ _fd (snd w1) = None) as [Hw Hfd];
    [|by apply end_writing_closed].
  revert Hrun. unfold _end_writing at 1, bind at 1, self_. simpl.
  destruct (_write (snd w)) as [wr|] eqn:Hwr; [|done].
  destruct (_fd (snd w)) as [fd|] eqn:Hfd.
  - unfold bind at 1. destruct (sys (os_close fd) w) as [[[]|e] w2] eqn:Hclose; [|done].
    assert (snd w2 = snd w) as Hsnd.
    { revert Hclose. unfold sys. destruct (os_close fd (fst w)). by intros [= _ <-]. }
    unfold bind at 1, set_fd, modify. simpl.
    match goal with |- ?m ?w0 = _ -> _ =>
      assert (keeps (fun l => is_Some (_write l) /\ _fd l = None) m) as Hk
    end.
    { destruct (wr && b1).
      - apply keeps_bind; [|intros _; apply keeps_bind; auto with keeps].
        destruct is_win; [|auto with keeps].
        apply keeps_bind; [auto with keeps|]. intros []; auto with keeps.
      - auto with keeps. }
    intros Hrest. eapply Hk; [|exact Hrest]. simpl. rewrite Hsnd, Hwr. eauto.
  - intros [= <-]. rewrite Hwr, Hfd. eauto.
Qed.

Lemma write_transaction_run (stream : bool) (s : os_state) (path : string)
    (chunks : list (list byte)) (finish : M world unit) :
  files s !! (path +:+ ".lock") = None ->
  write_transaction stream chunks finish (s, LockedFD_init path)
  = finish
      (OS (<[path +:+ ".lock" := File (concat chunks) mode_600]> (files s))
          (<[fresh (dom (fds s))
             := Descriptor (path +:+ ".lock") (length (concat chunks)) true]> (fds s))
          (syslog s ++ SysOpen (path +:+ ".lock") O_WRONLY_CREAT_EXCL
             :: (SysWrite (fresh (dom (fds s))) <$> chunks)),
       MkLockedFD path (Some (fresh (dom (fds s)))) (Some true)).
Proof.
  intros Hlock. unfold write_transaction, bind at 1.
  rewrite open_write_run by done.
  replace (fd_of _) with (Some (fresh (dom (fds s)))) by (by destruct stream).
  unfold bind.
  rewrite (write_all_run chunks _ _ _ _ _ (path +:+ ".lock") [] mode_600)
    by (by rewrite lookup_insert_eq).
  simpl. rewrite (insert_insert_eq (files s)), (insert_insert_eq (fds s)).
  by rewrite <- app_assoc.
Qed.

Lemma write_commit_run (is_win stream : bool) (s : os_state) (path : string)
    (chunks : list (list byte)) :
  files s !! (path +:+ ".lock") = None ->
  write_transaction stream chunks (commit is_win) (s, LockedFD_init path)
  = (Ok tt,
     (OS (<[path := File (concat chunks) mode_644]> (files s))
         (fds s)
         (syslog s ++ SysOpen (path +:+ ".lock") O_WRONLY_CREAT_EXCL
            :: (SysWrite (fresh (dom (fds s))) <$> chunks)
            ++ SysClose (fresh (dom (fds s)))
            :: commit_calls is_win (bool_decide (is_Some (files s !! path))) path),
      MkLockedFD path None (Some true))).
Proof.
  intros Hlock. pose proof (lockfile_neq path) as Hne.
  rewrite write_transaction_run by done.
  erewrite commit_run; [|by rewrite lookup_insert_eq..].
  rewrite close_fresh_fd, remove_fresh_lock by done.
  rewrite lookup_insert_ne by done. by rewrite <- app_assoc.
Qed.

Lemma write_rollback_run (is_win stream : bool) (s : os_state) (path : string)
    (chunks : list (list byte)) :
  files s !! (path +:+ ".lock") = None ->
  write_transaction stream chunks (rollback is_win) (s, LockedFD_init path)
  = (Ok tt,
     (OS (files s) (fds s)
         (syslog s ++ SysOpen (path +:+ ".lock") O_WRONLY_CREAT_EXCL
            :: (SysWrite (fresh (dom (fds s))) <$> chunks)
            ++ [SysClose (fresh (dom (fds s))); SysRemove (path +:+ ".lock")]),
      MkLockedFD path None (Some true))).
Proof.
  intros Hlock.
  rewrite write_transaction_run by done.
  erewrite rollback_run; [|by rewrite lookup_insert_eq..].
  rewrite close_fresh_fd, remove_fresh_lock by done. by rewrite <- app_assoc.
Qed.


(** An example file system: one file ["a"] holding one byte, readable by
    all, and no open descriptor. *)
Definition os_example : os_state := OS {[ "a" := File [x01] mode_644 ]} ∅ [].

(** C5: a write transaction that is committed, and a read transaction
    that is committed.  With no lock file at [path.lock]: opening for
    writing, writing [chunks] and committing returns normally; the
    descriptor is closed (the descriptor table is as before), the calls
    are close, then (where rename does not overwrite) the removal of an
    existing destination, then the rename of the lock file onto [path],
    then chmod to 0644; [path] holds exactly the bytes written with mode
    0644, no lock file remains and no other file changed.  In read mode
    [commit] is [rollback]: the lock file is deleted and every file is as
    before. *)
Theorem commit_transaction (is_win stream : bool) (s : os_state)
    (path : string) (chunks : list (list byte)) :
  files s !! (path +:+ ".lock") = None ->
  (write_transaction stream chunks (commit is_win) (s, LockedFD_init path)
   = (Ok tt,
      (OS (<[path := File (concat chunks) mode_644]> (files s))
          (fds s)
          (syslog s ++ SysOpen (path +:+ ".lock") O_WRONLY_CREAT_EXCL
             :: (SysWrite (fresh (dom (fds s))) <$> chunks)
             ++ SysClose (fresh (dom (fds s)))
             :: commit_calls is_win (bool_decide (is_Some (files s !! path))) path),
       MkLockedFD path None (Some true)))
   /\ (<[path := File (concat chunks) mode_644]> (files s)) !! (path +:+ ".lock")
      = None)
  /\ (forall w : world,
        _write (snd w) = Some false -> commit is_win w = rollback is_win w)
  /\ (forall f : file,
        files s !! path = Some f -> owner_readable f = true ->
        (bind (open false stream) (fun _ => commit is_win)) (s, LockedFD_init path)
        = (Ok tt,
           (OS (files s) (fds s)
               (syslog s ++ [SysOpen (path +:+ ".lock") O_WRONLY_CREAT_EXCL;
                             SysClose (fresh (dom (fds s)));
                             SysOpen path O_RDONLY;
                             SysClose (fresh (dom (fds s)));
                             SysRemove (path +:+ ".lock")]),
            MkLockedFD path None (Some false)))).
Proof.
  intros Hlock. pose proof (lockfile_neq path) as Hne.
  split; [split|split].
  - by apply write_commit_run.
  - by rewrite lookup_insert_ne.
  - apply commit_read_is_rollback.
  - intros f Hpath Hread. unfold bind.
    rewrite (open_read_run s path stream f) by done.
    rewrite commit_read_is_rollback by done.
    erewrite rollback_run; [|by rewrite lookup_insert_eq..].
    rewrite close_fresh_fd, remove_fresh_lock by done.
    by rewrite <- app_assoc.
Qed.

Lemma commit_transaction_witness :
  files os_example !! "a.lock" = None
  /\ write_transaction false [[x02; x03]; [x04]] (commit true)
       (os_example, LockedFD_init "a")
     = (Ok tt,
        (OS (<["a" := File [x02; x03; x04] mode_644]> (files os_example)) ∅
            [SysOpen "a.lock" O_WRONLY_CREAT_EXCL;
             SysWrite 0 [x02; x03]; SysWrite 0 [x04]; SysClose 0;
             SysIsfile "a"; SysRemove "a"; SysRename "a.lock" "a";
             SysChmod "a" mode_644],
         MkLockedFD "a" None (Some true)))
  /\ bind (open false false) (fun _ => commit true)
       (os_example, LockedFD_init "a")
     = (Ok tt,
        (OS (files os_example) ∅
            [SysOpen "a.lock" O_WRONLY_CREAT_EXCL; SysClose 0;
             SysOpen "a" O_RDONLY; SysClose 0; SysRemove "a.lock"],
         MkLockedFD "a" None (Some false))).
Proof.
  split; [reflexivity|]. split.
  - exact (proj1 (proj1 (commit_transaction true false os_example "a"
                           [[x02; x03]; [x04]] eq_refl))).
  - exact (proj2 (proj2 (commit_transaction true false os_example "a"
                           [] eq_refl))
             (File [x01] mode_644) eq_refl eq_refl).
Defined.

(** C6: a write transaction that is rolled back.  With no lock file at
    [path.lock]: opening for writing, writing [chunks] and rolling back
    returns normally and leaves every file as it was ([path] with its
    prior contents, or absent), the descriptor table as it was, and no
    lock file; after the first [commit] or [rollback] a further [commit]
    or [rollback] returns normally and changes nothing, not even the log
    of system calls; and abandoning the open instance ([__del__]) does
    what [rollback] does. *)
Theorem rollback_transaction (is_win stream : bool) (s : os_state)
    (path : string) (chunks : list (list byte)) :
  files s !! (path +:+ ".lock") = None ->
  write_transaction stream chunks (rollback is_win) (s, LockedFD_init path)
  = (Ok tt,
     (OS (files s) (fds s)
         (syslog s ++ SysOpen (path +:+ ".lock") O_WRONLY_CREAT_EXCL
            :: (SysWrite (fresh (dom (fds s))) <$> chunks)
            ++ [SysClose (fresh (dom (fds s))); SysRemove (path +:+ ".lock")]),
      MkLockedFD path None (Some true)))
  /\ (forall first again : bool,
        let w1 := snd (write_transaction stream chunks (_end_writing is_win first)
                         (s, LockedFD_init path)) in
        commit is_win w1 = (Ok tt, w1) /\ rollback is_win w1 = (Ok tt, w1)
        /\ _end_writing is_win again w1 = (Ok tt, w1)
        /\ __del__ is_win w1 = (Ok tt, w1))
  /\ write_transaction stream chunks (__del__ is_win) (s, LockedFD_init path)
     = write_transaction stream chunks (rollback is_win) (s, LockedFD_init path).
Proof.
  intros Hlock. split; [by apply write_rollback_run|split].
  - intros first again w1.
    assert (exists L, w1 = (L, MkLockedFD path None (Some true))) as [L Hw1].
    { subst w1. destruct first.
      - change (_end_writing is_win true) with (commit is_win).
        rewrite write_commit_run by done. eauto.
      - change (_end_writing is_win false) with (rollback is_win).
        rewrite write_rollback_run by done. eauto. }
    rewrite Hw1. repeat split.
  - rewrite !write_transaction_run by done.
    unfold __del__, bind, self_, try_except. simpl.
    erewrite rollback_run; [|by rewrite lookup_insert_eq..]. done.
Qed.

Lemma rollback_transaction_witness :
  files os_example !! "a.lock" = None
  /\ write_transaction true [[x02; x03]; [x04]] (rollback false)
       (os_example, LockedFD_init "a")
     = (Ok tt,
        (OS (files os_example) ∅
            [SysOpen "a.lock" O_WRONLY_CREAT_EXCL;
             SysWrite 0 [x02; x03]; SysWrite 0 [x04]; SysClose 0;
             SysRemove "a.lock"],
         MkLockedFD "a" None (Some true))).
Proof.
  split; [reflexivity|].
  exact (proj1 (rollback_transaction false true os_example "a"
                  [[x02; x03]; [x04]] eq_refl)).
Defined.

(** C7: [open] once.  Whatever the instance, the mode and the outcome of
    a call to [open], the next call to [open], in any mode, raises the
    assertion error and changes nothing; the first call on a new instance
    never raises it. *)
Theorem open_only_once (write1 stream1 write2 stream2 : bool) (w : world) :
  open write2 stream2 (snd (open write1 stream1 w))
  = (Raise (AssertionError "Called open multiple times"),
     snd (open write1 stream1 w))
  /\ (forall (s : os_state) (path : string) (msg : string),
        fst (open write1 stream1 (s, LockedFD_init path))
        ≠ Raise (AssertionError msg)).
Proof.
  split.
  - destruct (open_sets_write write1 stream1 w) as [wr Hwr].
    unfold open at 1, bind at 1, self_. simpl. by rewrite Hwr.
  - intros s path msg. apply open_first_call.
Qed.

(** C9: ending what was never started.  On an instance on which [open]
    was never called, [commit] and [rollback] raise the assertion error
    and change nothing (so they raise it again the next time); a call
    that returned normally, which needs [open] to have been called, is
    followed by calls that return normally and change nothing. *)
Theorem end_before_open (is_win : bool) (s : os_state) (path : string) :
  commit is_win (s, LockedFD_init path)
  = (Raise (AssertionError "Cannot end operation if it wasn't started yet"),
     (s, LockedFD_init path))
  /\ rollback is_win (s, LockedFD_init path)
     = (Raise (AssertionError "Cannot end operation if it wasn't started yet"),
        (s, LockedFD_init path))
  /\ (forall (b1 b2 : bool) (w w1 : world),
        _end_writing is_win b1 w = (Ok tt, w1) ->
        is_Some (_write (snd w)) /\ _end_writing is_win b2 w1 = (Ok tt, w1)).
Proof.
  split; [reflexivity|split; [reflexivity|]].
  intros b1 b2 w w1 Hrun. split; [|by eapply end_writing_idempotent].
  revert Hrun. unfold _end_writing, bind at 1, self_. simpl.
  destruct (_write (snd w)); [eauto|done].
Qed.

(** *** Further runs on the example file system *)

(** While one writer holds the lock, a second [open] fails at once with
    [IOError] and touches no file. *)
Example second_writer_is_refused :
  let w1 := snd (open true false (os_example, LockedFD_init "a")) in
  let r2 := open true false (fst w1, LockedFD_init "a") in
  fst r2 = Raise (IOError "Lock could not be obtained")
  /\ files (fst (snd r2)) = files (fst w1)
  /\ fds (fst (snd r2)) = fds (fst w1).
Proof. repeat split. Qed.

(** Opening for reading a file that is not there releases the lock and
    lets the error of [os.open] through. *)
Example read_of_missing_file_releases_lock :
  open false false (os_example, LockedFD_init "b")
  = (Raise (OSError "ENOENT"),
     (OS (files os_example) ∅
         [SysOpen "b.lock" O_WRONLY_CREAT_EXCL; SysClose 0;
          SysOpen "b" O_RDONLY; SysRemove "b.lock"],
      MkLockedFD "b" None (Some false))).
Proof. reflexivity. Qed.

End UtilProps.

(** * Properties of gitdb/db/pack.py *)
Module PackProps.
Import Pack Examples.
Local Open Scope py_scope.

(** ** Sorting *)

Lemma insert_desc_perm (x : item) (l : list item) : insert_desc x l ≡ₚ x :: l.
Proof.
  induction l as [|y l IH]; simpl; [done|].
  destruct (hits y <=? hits x)%Z; [done|].
  rewrite IH. apply Permutation_swap.
Qed.

Lemma sort_desc_perm (l : list item) : sort_desc l ≡ₚ l.
Proof.
  induction l as [|x l IH]; simpl; [done|].
  rewrite insert_desc_perm. by rewrite IH.
Qed.

(** Larger hit counts first. *)
Definition descending (l : list item) : Prop :=
  StronglySorted (fun x y => (hits y <= hits x)%Z) l.

Lemma insert_desc_descending (x : item) (l : list item) :
  descending l -> descending (insert_desc x l).
Proof.
  unfold descending. induction l as [|y l IH]; simpl; intros Hl.
  - by repeat constructor.
  - apply StronglySorted_inv in Hl as [Hl Hy].
    destruct (Z.leb_spec (hits y) (hits x)) as [Hle|Hlt].
    + constructor; [by constructor|]. constructor; [done|].
      eapply Forall_impl; [exact Hy|]. simpl. intros z Hz. lia.
    + constructor; [by apply IH|].
      rewrite insert_desc_perm. constructor; [lia|done].
Qed.

Lemma sort_desc_descending (l : list item) : descending (sort_desc l).
Proof.
  induction l as [|x l IH]; simpl; [constructor|].
  by apply insert_desc_descending.
Qed.

(** The sort is stable: entries with the same hit count keep their order. *)
Lemma insert_desc_stable (h : Z) (x : item) (l : list item) :
  descending l ->
  filter (fun it => hits it = h) (insert_desc x l)
  = filter (fun it => hits it = h) (x :: l).
Proof.
  unfold descending. induction l as [|y l IH]; simpl; intros Hl; [done|].
  apply StronglySorted_inv in Hl as [Hl Hy].
  destruct (Z.leb_spec (hits y) (hits x)) as [Hle|Hlt]; [done|].
  rewrite (filter_cons _ y), IH, !filter_cons by done.
  destruct (decide (hits y = h)), (decide (hits x = h)); try done. lia.
Qed.

Lemma sort_desc_stable (h : Z) (l : list item) :
  filter (fun it => hits it = h) (sort_desc l) = filter (fun it => hits it = h) l.
Proof.
  induction l as [|x l IH]; simpl; [done|].
  rewrite insert_desc_stable by apply sort_desc_descending.
  by rewrite !filter_cons, IH.
Qed.

Lemma sort_desc_idem (l : list item) : descending l -> sort_desc l = l.
Proof.
  unfold descending. induction l as [|x l IH]; intros Hl; [done|].
  apply StronglySorted_inv in Hl as [Hl Hx]. simpl. rewrite IH by done.
  destruct l as [|y l]; [done|]. simpl.
  apply Forall_cons in Hx as [Hy _].
  by rewrite (proj2 (Z.leb_le _ _) Hy).
Qed.

Lemma sort_desc_paths (l : list item) :
  (item_path <$> sort_desc l) ≡ₚ (item_path <$> l).
Proof. by rewrite sort_desc_perm. Qed.


(** ** Running the methods on a loaded database *)

(** The entry [update_cache] appends for a new pack file. *)
Definition new_item (d : Disk) (pack_file : string) : item :=
  Item (pack_file_size d pack_file)
       (MkEntity pack_file (pack_file_size d pack_file) (pack_index d pack_file))
       (sha_to_index (pack_index d pack_file)).

Definition with_entities (db : PackedDB) (l : list item) : PackedDB :=
  MkPackedDB (_root_path db) (Some l) (_hit_count db) (_st_mtime db).

Lemma with_entities_id (db : PackedDB) (l : list item) :
  _entities db = Some l -> with_entities db l = db.
Proof. destruct db. simpl. by intros ->. Qed.

Lemma new_item_path (d : Disk) (p : string) : item_path (new_item d p) = p.
Proof. done. Qed.

Lemma new_items_paths (d : Disk) (ps : list string) :
  item_path <$> (new_item d <$> ps) = ps.
Proof. induction ps as [|p ps IH]; [done|]. rewrite !fmap_cons. by rewrite IH. Qed.

Lemma entities_attr_loaded (sc : M world unit) (db : PackedDB) (log : list call)
    (l : list item) :
  _entities db = Some l -> entities_attr sc (db, log) = (Ok l, (db, log)).
Proof. intros H. unfold entities_attr, bind, self_, ret. simpl. by rewrite H. Qed.

Lemma sort_entities_run (sc : M world unit) (db : PackedDB) (log : list call)
    (l : list item) :
  _entities db = Some l ->
  _sort_entities_with sc (db, log)
  = (Ok tt, (with_entities db (sort_desc l), log ++ [CallSort])).
Proof.
  intros H. unfold _sort_entities_with, bind.
  rewrite (entities_attr_loaded sc db log l H). done.
Qed.

Lemma add_new_packs_run (d : Disk) (sc : M world unit) (news : list string) :
  forall (db : PackedDB) (log : list call) (l : list item),
    _entities db = Some l ->
    add_new_packs d sc news (db, log)
    = (Ok tt, (with_entities db (l ++ (new_item d <$> news)),
               log ++ (CallPackEntity <$> news))).
Proof.
  induction news as [|p news IH]; intros db log l Hl.
  - simpl. unfold ret. by rewrite !app_nil_r, with_entities_id.
  - cbn [add_new_packs]. unfold bind at 1, log_call, modify. cbn [fst snd].
    unfold bind at 1.
    rewrite (entities_attr_loaded sc db (log ++ [CallPackEntity p]) l Hl).
    unfold bind at 1, set_entities, modify. cbn [fst snd].
    rewrite (IH _ _ (l ++ [new_item d p])) by done.
    unfold with_entities. cbn [_root_path _hit_count _st_mtime fmap list_fmap].
    by rewrite <- !app_assoc.
Qed.

Lemma find_index_delete (p : string) (l : list item) :
  forall k : nat,
    NoDup (item_path <$> l) -> p ∈ item_path <$> l ->
    exists i, find_index p l k = Some (k + i)
              /\ delete i l = filter (fun it => item_path it ≠ p) l.
Proof.
  induction l as [|it l IH]; intros k Hnd Hin.
  - by apply elem_of_nil in Hin.
  - rewrite fmap_cons in Hnd, Hin. apply NoDup_cons in Hnd as [Hnotin Hnd].
    cbn [find_index]. destruct (decide (item_path it = p)) as [Heq|Hne].
    + rewrite bool_decide_true by done. exists 0. split; [f_equal; lia|].
      rewrite filter_cons_False by (intros H; by apply H).
      cbn. symmetry. clear IH Hnd Hin. subst p.
      induction l as [|x l IHl]; [done|].
      rewrite fmap_cons in Hnotin. apply not_elem_of_cons in Hnotin as [Hx Hl].
      rewrite filter_cons_True by done. f_equal. by apply IHl.
    + rewrite bool_decide_false by done.
      apply elem_of_cons in Hin as [Hin|Hin]; [done|].
      destruct (IH (S k) Hnd Hin) as (i & Hfind & Hdel).
      exists (S i). split; [rewrite Hfind; f_equal; lia|].
      rewrite filter_cons_True by done.
      change (delete (S i) (it :: l)) with (it :: delete i l). by rewrite Hdel.
Qed.

Lemma remove_gone_packs_run (d : Disk) (sc : M world unit) (gones : list string) :
  forall (db : PackedDB) (log : list call) (l : list item),
    _entities db = Some l ->
    NoDup (item_path <$> l) ->
    (forall p, p ∈ gones -> p ∈ item_path <$> l) ->
    NoDup gones ->
    remove_gone_packs sc gones (db, log)
    = (Ok tt, (with_entities db (filter (fun it => item_path it ∉ gones) l), log)).
Proof.
  induction gones as [|p gones IH]; intros db log l Hl Hnd Hin Hgones.
  - simpl. unfold ret. f_equal. f_equal.
    rewrite <- (with_entities_id db l Hl) at 1. f_equal.
    clear. induction l as [|x l IHl]; [done|].
    rewrite filter_cons_True by apply not_elem_of_nil. by f_equal.
  - apply NoDup_cons in Hgones as [Hp Hgones].
    cbn [remove_gone_packs]. unfold bind at 1.
    rewrite (entities_attr_loaded sc db log l Hl).
    destruct (find_index_delete p l 0 Hnd) as (i & Hfind & Hdel).
    { apply Hin. by left. }
    change (0 + i) with i in Hfind. rewrite Hfind. unfold bind at 1, set_entities, modify. cbn [fst snd].
    rewrite Hdel.
    rewrite (IH _ _ (filter (fun it => item_path it ≠ p) l)); first last.
    + done.
    + intros q Hq. assert (q ≠ p) as Hqp by (intros ->; done).
      specialize (Hin q (ltac:(by right))).
      apply list_elem_of_fmap in Hin as (it & -> & Hit).
      apply list_elem_of_fmap. exists it. split; [done|].
      by apply list_elem_of_filter.
    + clear -Hnd. induction l as [|x l IHl]; [constructor|].
      rewrite fmap_cons in Hnd. apply NoDup_cons in Hnd as [Hx Hnd].
      destruct (decide (item_path x ≠ p)).
      * rewrite filter_cons_True by done. rewrite fmap_cons.
        apply NoDup_cons. split; [|by apply IHl].
        intros (y & Hy & Hyl%list_elem_of_filter)%list_elem_of_fmap.
        apply Hx. apply list_elem_of_fmap. exists y. tauto.
      * rewrite filter_cons_False by done. by apply IHl.
    + done.
    + unfold with_entities. cbn [_root_path _hit_count _st_mtime].
      f_equal. f_equal. f_equal. f_equal.
      rewrite list_filter_filter. apply list_filter_iff.
      intros it. rewrite not_elem_of_cons. tauto.
Qed.


(** The pack files the directory listing shows. *)
Definition pack_pattern (db : PackedDB) : string :=
  path_join (_root_path db) "pack-*.pack".

Definition disk_packs (d : Disk) (db : PackedDB) : gset string :=
  list_to_set (glob d (pack_pattern db)).

Definition our_packs (l : list item) : gset string :=
  list_to_set (item_path <$> l).

(** The registry after a reconciliation: the entries whose file is still
    there, then an entry for each new file, sorted. *)
Definition kept (d : Disk) (db : PackedDB) (l : list item) : list item :=
  filter (fun it => item_path it ∈ disk_packs d db) l.

Definition discovered (d : Disk) (db : PackedDB) (l : list item) : list string :=
  elements (disk_packs d db ∖ our_packs l).

Definition reconciled (d : Disk) (db : PackedDB) (l : list item) : list item :=
  sort_desc (kept d db l ++ (new_item d <$> discovered d db l)).

Lemma update_cache_gate (d : Disk) (sc : M world unit) (db : PackedDB)
    (log : list call) (mtime : Z) :
  st_mtime d = Ok mtime -> (mtime <= _st_mtime db)%Z ->
  update_cache_with d sc false (db, log)
  = (Ok false, (db, log ++ [CallStat (_root_path db)])).
Proof.
  intros Hstat Hle. unfold update_cache_with, bind, self_, log_call, modify, returns.
  cbn [fst snd]. rewrite Hstat. cbn [negb andb].
  by rewrite (proj2 (Z.leb_le _ _) Hle).
Qed.

Lemma update_cache_stat_fails (d : Disk) (sc : M world unit) (force : bool)
    (db : PackedDB) (log : list call) (e : exn) :
  st_mtime d = Raise e ->
  update_cache_with d sc force (db, log)
  = (Raise e, (db, log ++ [CallStat (_root_path db)])).
Proof.
  intros Hstat. unfold update_cache_with, bind, self_, log_call, modify, returns.
  cbn [fst snd]. by rewrite Hstat.
Qed.

Lemma filter_ext_in {A} (P Q : A -> Prop) `{!forall x, Decision (P x)}
    `{!forall x, Decision (Q x)} (l : list A) :
  (forall x, x ∈ l -> (P x <-> Q x)) -> filter P l = filter Q l.
Proof.
  induction l as [|x l IH]; intros Hext; [done|].
  rewrite !filter_cons.
  rewrite IH by (intros y Hy; apply Hext; by right).
  destruct (decide (P x)) as [HP|HP], (decide (Q x)) as [HQ|HQ]; try done.
  - exfalso. apply HQ, Hext; [by left|done].
  - exfalso. apply HP, Hext; [by left|done].
Qed.

Lemma filter_all_in {A} (P : A -> Prop) `{!forall x, Decision (P x)} (l : list A) :
  (forall x, x ∈ l -> P x) -> filter P l = l.
Proof.
  induction l as [|x l IH]; intros Hall; [done|].
  rewrite filter_cons_True by (apply Hall; by left).
  f_equal. apply IH. intros y Hy. apply Hall. by right.
Qed.

Lemma discovered_spec (d : Disk) (db : PackedDB) (l : list item) (p : string) :
  p ∈ discovered d db l <-> p ∈ disk_packs d db /\ p ∉ item_path <$> l.
Proof.
  unfold discovered, our_packs.
  rewrite elem_of_elements, elem_of_difference, elem_of_list_to_set. done.
Qed.

Lemma kept_after_removal (d : Disk) (db : PackedDB) (l : list item) :
  filter (fun it => item_path it ∉ elements (our_packs l ∖ disk_packs d db))
    (l ++ (new_item d <$> discovered d db l))
  = kept d db l ++ (new_item d <$> discovered d db l).
Proof.
  rewrite filter_app. f_equal.
  - apply filter_ext_in. intros it Hit.
    rewrite elem_of_elements, elem_of_difference.
    unfold our_packs. rewrite elem_of_list_to_set.
    split.
    + intros Hn. destruct (decide (item_path it ∈ disk_packs d db)); [done|].
      exfalso. apply Hn. split; [|done]. by apply list_elem_of_fmap_2.
    + intros Hin [_ Hout]. done.
  - apply filter_all_in. intros it (p & -> & Hp)%list_elem_of_fmap.
    rewrite new_item_path, elem_of_elements, elem_of_difference.
    apply discovered_spec in Hp as [Hp _]. tauto.
Qed.

(** What [update_cache] does once it has read [self._entities]. *)
Lemma reconcile_run (d : Disk) (sc : M world unit) (db : PackedDB)
    (log : list call) (l : list item) :
  _entities db = Some l ->
  NoDup (item_path <$> l) ->
  (add_new_packs d sc (elements (disk_packs d db ∖ our_packs l)) ;;;
   remove_gone_packs sc (elements (our_packs l ∖ disk_packs d db)) ;;;
   _sort_entities_with sc ;;;
   ret true) (db, log)
  = (Ok true,
     (with_entities db (reconciled d db l),
      log ++ (CallPackEntity <$> discovered d db l) ++ [CallSort])).
Proof.
  intros Hl Hnd. fold (discovered d db l).
  unfold bind at 1.
  rewrite (add_new_packs_run d sc _ db _ l) by done.
  unfold bind at 1.
  rewrite (remove_gone_packs_run d sc _ _ _ (l ++ (new_item d <$> discovered d db l)));
    first last.
  - apply NoDup_elements.
  - intros p Hp. apply elem_of_elements, elem_of_difference in Hp as [Hp _].
    apply elem_of_list_to_set in Hp. rewrite fmap_app. apply elem_of_app. by left.
  - rewrite fmap_app. apply NoDup_app. split; [done|]. split.
    + intros p Hp. rewrite new_items_paths.
      intros Hq. by apply discovered_spec in Hq as [_ Hq].
    + rewrite new_items_paths. apply NoDup_elements.
  - done.
  - unfold bind at 1.
    erewrite sort_entities_run by done.
    rewrite kept_after_removal.
    unfold ret, with_entities. cbn [_root_path _hit_count _st_mtime].
    unfold reconciled. by rewrite <- !app_assoc.
Qed.

(** [update_cache] up to the point where it reads [self._entities]. *)
Lemma update_cache_head (d : Disk) (sc : M world unit) (force : bool)
    (db : PackedDB) (log : list call) (mtime : Z) :
  st_mtime d = Ok mtime ->
  force = true \/ (_st_mtime db < mtime)%Z ->
  update_cache_with d sc force (db, log)
  = (l <- entities_attr sc ;;
     add_new_packs d sc (elements (disk_packs d db ∖ our_packs l)) ;;;
     remove_gone_packs sc (elements (our_packs l ∖ disk_packs d db)) ;;;
     _sort_entities_with sc ;;;
     ret true)
      (MkPackedDB (_root_path db) (_entities db) (_hit_count db) mtime,
       log ++ [CallStat (_root_path db); CallGlob (pack_pattern db)]).
Proof.
  intros Hstat Hgate.
  unfold update_cache_with. unfold bind at 1, self_. cbn [fst snd].
  unfold bind at 1, log_call, modify. cbn [fst snd].
  unfold bind at 1, returns. rewrite Hstat.
  replace (negb force && (mtime <=? _st_mtime db)%Z) with false; first last.
  { destruct Hgate as [->|Hlt]; [done|].
    rewrite (proj2 (Z.leb_gt _ _) Hlt). by rewrite andb_false_r. }
  unfold bind at 1, set_st_mtime, modify. cbn [fst snd].
  unfold bind at 1. cbn [fst snd]. by rewrite <- app_assoc.
Qed.

Lemma update_cache_run (d : Disk) (sc : M world unit) (force : bool)
    (db : PackedDB) (log : list call) (l : list item) (mtime : Z) :
  st_mtime d = Ok mtime ->
  force = true \/ (_st_mtime db < mtime)%Z ->
  _entities db = Some l ->
  NoDup (item_path <$> l) ->
  update_cache_with d sc force (db, log)
  = (Ok true,
     (MkPackedDB (_root_path db) (Some (reconciled d db l)) (_hit_count db) mtime,
      log ++ CallStat (_root_path db) :: CallGlob (pack_pattern db)
          :: (CallPackEntity <$> discovered d db l) ++ [CallSort])).
Proof.
  intros Hstat Hgate Hl Hnd.
  rewrite (update_cache_head d sc force db log mtime) by done.
  set (db1 := MkPackedDB (_root_path db) (_entities db) (_hit_count db) mtime).
  unfold bind at 1.
  rewrite (entities_attr_loaded sc db1 _ l) by done.
  rewrite (reconcile_run d sc db1 _ l) by done.
  by rewrite <- app_assoc.
Qed.

(** *** The registry after a reconciliation *)

Lemma reconciled_perm (d : Disk) (db : PackedDB) (l : list item) :
  reconciled d db l ≡ₚ kept d db l ++ (new_item d <$> discovered d db l).
Proof. apply sort_desc_perm. Qed.

Lemma reconciled_paths (d : Disk) (db : PackedDB) (l : list item) :
  our_packs (reconciled d db l) = disk_packs d db.
Proof.
  apply set_eq. intros p. unfold our_packs.
  rewrite elem_of_list_to_set, reconciled_perm, fmap_app, elem_of_app, new_items_paths.
  rewrite discovered_spec. unfold kept. split.
  - intros [(it & -> & [Hit _]%list_elem_of_filter)%list_elem_of_fmap|[Hp _]]; done.
  - intros Hp. destruct (decide (p ∈ item_path <$> l)) as [Hin|Hout]; [left|by right].
    apply list_elem_of_fmap in Hin as (it & -> & Hit).
    apply list_elem_of_fmap_2. by apply list_elem_of_filter.
Qed.

Lemma reconciled_NoDup (d : Disk) (db : PackedDB) (l : list item) :
  NoDup (item_path <$> l) -> NoDup (item_path <$> reconciled d db l).
Proof.
  intros Hnd. rewrite reconciled_perm, fmap_app, new_items_paths.
  apply NoDup_app. split; [|split].
  - unfold kept. clear -Hnd. induction l as [|x l IHl]; [constructor|].
    rewrite fmap_cons in Hnd. apply NoDup_cons in Hnd as [Hx Hnd].
    rewrite filter_cons. destruct (decide _); [|by apply IHl].
    rewrite fmap_cons. apply NoDup_cons. split; [|by apply IHl].
    intros (y & Hy & Hyl%list_elem_of_filter)%list_elem_of_fmap.
    apply Hx. apply list_elem_of_fmap. exists y. tauto.
  - intros p (it & -> & [_ Hit]%list_elem_of_filter)%list_elem_of_fmap.
    intros [_ Hout]%discovered_spec. apply Hout. by apply list_elem_of_fmap_2.
  - apply NoDup_elements.
Qed.

(** Reconciling twice against the same directory is reconciling once. *)
Lemma reconciled_idem (d : Disk) (db : PackedDB) (l : list item) :
  reconciled d db (reconciled d db l) = reconciled d db l.
Proof.
  unfold reconciled at 1, kept, discovered.
  rewrite reconciled_paths, difference_diag_L, elements_empty, app_nil_r.
  rewrite filter_all_in.
  - apply sort_desc_idem, sort_desc_descending.
  - intros it Hit. rewrite <- (reconciled_paths d db l).
    unfold our_packs. apply elem_of_list_to_set. by apply list_elem_of_fmap_2.
Qed.


(** *** The first use: loading [_entities] *)

(** The database once [_set_cache_] has run, and the calls it made. *)
Definition loaded (d : Disk) (db : PackedDB) (mtime : Z) : PackedDB :=
  MkPackedDB (_root_path db) (Some (reconciled d db [])) (_hit_count db) mtime.

Definition load_calls (d : Disk) (db : PackedDB) : list call :=
  CallStat (_root_path db) :: CallGlob (pack_pattern db)
    :: (CallPackEntity <$> discovered d db []) ++ [CallSort].

Lemma set_cache_run (d : Disk) (db : PackedDB) (log : list call) (mtime : Z) :
  st_mtime d = Ok mtime ->
  _set_cache_ d (db, log) = (Ok tt, (loaded d db mtime, log ++ load_calls d db)).
Proof.
  intros Hstat. unfold _set_cache_. unfold bind at 1, set_entities, modify.
  cbn [fst snd]. unfold bind at 1.
  erewrite (update_cache_run d _ true _ _ [] mtime); [done|done|by left|done|].
  simpl. constructor.
Qed.

Lemma entities_unloaded (d : Disk) (db : PackedDB) (log : list call) (mtime : Z) :
  st_mtime d = Ok mtime -> _entities db = None ->
  entities_ d (db, log)
  = (Ok (reconciled d db []), (loaded d db mtime, log ++ load_calls d db)).
Proof.
  intros Hstat Hnone. unfold entities_, entities_attr.
  unfold bind at 1, self_. cbn [fst snd]. rewrite Hnone.
  unfold bind at 1. rewrite (set_cache_run d db log mtime Hstat). done.
Qed.

Lemma entities_loaded (d : Disk) (db : PackedDB) (log : list call) (l : list item) :
  _entities db = Some l -> entities_ d (db, log) = (Ok l, (db, log)).
Proof. apply entities_attr_loaded. Qed.

Lemma entities_first_use (d : Disk) (db : PackedDB) (log : list call) (mtime : Z) :
  st_mtime d = Ok mtime -> _entities db = None ->
  entities_ d (db, log) = entities_ d (loaded d db mtime, log ++ load_calls d db).
Proof.
  intros Hstat Hnone. rewrite (entities_unloaded d db log mtime Hstat Hnone).
  by rewrite (entities_loaded d (loaded d db mtime) _ (reconciled d db [])).
Qed.

Lemma sort_first_use (d : Disk) (db : PackedDB) (log : list call) (mtime : Z) :
  st_mtime d = Ok mtime -> _entities db = None ->
  _sort_entities d (db, log)
  = _sort_entities d (loaded d db mtime, log ++ load_calls d db).
Proof.
  intros Hstat Hnone. unfold _sort_entities, _sort_entities_with.
  fold (entities_ d). unfold bind at 1 3.
  by rewrite (entities_first_use d db log mtime Hstat Hnone).
Qed.

Lemma pack_info_unfold (d : Disk) (sha_ : list byte) (w : world) :
  _pack_info d sha_ w
  = ((if (_hit_count (fst w) mod _sort_interval =? 0)%Z
      then _sort_entities d else ret tt) ;;;
     l <- entities_ d ;;
     scan_entities d l 0 sha_) w.
Proof. done. Qed.

(** A query on a database that has not loaded its packs yet is the same
    query on the loaded database. *)
Lemma pack_info_unloaded (d : Disk) (db : PackedDB) (log : list call)
    (mtime : Z) (sha_ : list byte) :
  st_mtime d = Ok mtime -> _entities db = None ->
  _pack_info d sha_ (db, log)
  = _pack_info d sha_ (loaded d db mtime, log ++ load_calls d db).
Proof.
  intros Hstat Hnone. rewrite !pack_info_unfold.
  cbn [fst snd loaded _hit_count].
  destruct (_hit_count db mod _sort_interval =? 0)%Z.
  - unfold bind at 1 3.
    by rewrite (sort_first_use d db log mtime Hstat Hnone).
  - unfold bind at 1 3, ret. unfold bind.
    by rewrite (entities_first_use d db log mtime Hstat Hnone).
Qed.

Lemma partial_unloaded (d : Disk) (db : PackedDB) (log : list call)
    (mtime : Z) (partial : list byte) (len : Z) :
  st_mtime d = Ok mtime -> _entities db = None ->
  partial_to_complete_sha d partial len (db, log)
  = partial_to_complete_sha d partial len
      (loaded d db mtime, log ++ load_calls d db).
Proof.
  intros Hstat Hnone. unfold partial_to_complete_sha. unfold bind at 1 3.
  by rewrite (entities_first_use d db log mtime Hstat Hnone).
Qed.

(** *** The scan of [_pack_info] *)

Definition misses (sha_ : list byte) (it : item) : Prop :=
  sha_to_index (index (entity it)) sha_ = Ok None.

Definition lookup_calls (sha_ : list byte) (l : list item) : list call :=
  (fun it => CallShaToIndex (item_path it) sha_) <$> l.

Lemma scan_misses (d : Disk) (sha_ : list byte) (pre : list item) :
  forall (rest : list item) (i : nat) (w : world),
    Forall (misses sha_) pre ->
    scan_entities d (pre ++ rest) i sha_ w
    = scan_entities d rest (i + length pre) sha_
        (fst w, snd w ++ lookup_calls sha_ pre).
Proof.
  induction pre as [|it pre IH]; intros rest i [db log] Hpre.
  - simpl. by rewrite Nat.add_0_r, app_nil_r.
  - apply Forall_cons in Hpre as [Hit Hpre].
    cbn [app scan_entities]. unfold bind at 1, log_call, modify. cbn [fst snd].
    unfold bind at 1, returns. rewrite Hit.
    rewrite IH by done. cbn [fst snd length].
    replace (i + S (length pre)) with (S i + length pre) by lia.
    unfold lookup_calls. by rewrite fmap_cons, <- app_assoc.
Qed.

Lemma scan_exhausted (d : Disk) (sha_ : list byte) (i : nat) (w : world) :
  scan_entities d [] i sha_ w = (Raise (BadObject sha_), w).
Proof. done. Qed.

Lemma scan_hit (d : Disk) (sha_ : list byte) (it : item) (post all : list item)
    (i : nat) (slot : Z) (db : PackedDB) (log : list call) :
  _entities db = Some all ->
  sha_to_index (index (entity it)) sha_ = Ok (Some slot) ->
  scan_entities d (it :: post) i sha_ (db, log)
  = (Ok (entity it, slot),
     (MkPackedDB (_root_path db)
        (Some (<[i := Item (hits it + 1) (entity it) (lookup it)]> all))
        (_hit_count db + 1) (_st_mtime db),
      log ++ [CallShaToIndex (item_path it) sha_])).
Proof.
  intros Hall Hit. cbn [scan_entities].
  unfold bind at 1, log_call, modify. cbn [fst snd].
  unfold bind at 1, returns. rewrite Hit.
  unfold bind at 1. rewrite (entities_loaded d db _ all Hall).
  unfold bind, set_entities, set_hit_count, self_, modify, ret. done.
Qed.

Lemma scan_raises (d : Disk) (sha_ : list byte) (it : item) (post : list item)
    (i : nat) (e : exn) (w : world) :
  sha_to_index (index (entity it)) sha_ = Raise e ->
  scan_entities d (it :: post) i sha_ w
  = (Raise e, (fst w, snd w ++ [CallShaToIndex (item_path it) sha_])).
Proof.
  intros Hit. cbn [scan_entities].
  unfold bind at 1, log_call, modify. cbn [fst snd].
  unfold bind at 1, returns. by rewrite Hit.
Qed.

(** The list [_pack_info] scans, and the call it makes before the scan:
    sorted when the hit counter is a multiple of the interval. *)
Definition presorted (db : PackedDB) (l : list item) : list item :=
  if (_hit_count db mod _sort_interval =? 0)%Z then sort_desc l else l.

Definition presort_calls (db : PackedDB) : list call :=
  if (_hit_count db mod _sort_interval =? 0)%Z then [CallSort] else [].

Lemma pack_info_presort (d : Disk) (sha_ : list byte) (db : PackedDB)
    (log : list call) (l : list item) :
  _entities db = Some l ->
  _pack_info d sha_ (db, log)
  = scan_entities d (presorted db l) 0 sha_
      (with_entities db (presorted db l), log ++ presort_calls db).
Proof.
  intros Hl. rewrite pack_info_unfold. unfold presorted, presort_calls.
  cbn [fst snd].
  destruct (_hit_count db mod _sort_interval =? 0)%Z.
  - unfold bind at 1, _sort_entities.
    rewrite (sort_entities_run _ db log l Hl).
    unfold bind at 1. by rewrite (entities_loaded d _ _ (sort_desc l)).
  - unfold bind at 1, ret. unfold bind at 1.
    rewrite (entities_loaded d db log l Hl).
    by rewrite app_nil_r, with_entities_id.
Qed.


(** *** The scan of [partial_to_complete_sha] *)

(** The full digest an entity reports for a partial one, if any. *)
Definition match_of (partial : list byte) (len : Z) (it : item)
  : option (list byte) :=
  match partial_sha_to_index (index (entity it)) partial len with
  | Ok (Some i) =>
      match sha (index (entity it)) i with
      | Ok s => Some s
      | Raise _ => None
      end
  | _ => None
  end.

(** The entity's index answers: the partial lookup returns, and the slot
    it may return holds a digest that is not empty. *)
Definition answers (partial : list byte) (len : Z) (it : item) : Prop :=
  match partial_sha_to_index (index (entity it)) partial len with
  | Ok None => True
  | Ok (Some i) => exists s, sha (index (entity it)) i = Ok s /\ s ≠ []
  | Raise _ => False
  end.

(** The calls made on one entity, and on a list of them. *)
Definition partial_calls_of (partial : list byte) (len : Z) (it : item)
  : list call :=
  CallPartialShaToIndex (item_path it) partial len
    :: match partial_sha_to_index (index (entity it)) partial len with
       | Ok (Some i) => [CallSha (item_path it) i]
       | _ => []
       end.

Definition partial_calls (partial : list byte) (len : Z) (l : list item)
  : list call :=
  concat (partial_calls_of partial len <$> l).

(** The digests in play: the candidate so far and what the entities
    report; they agree when they are all the same. *)
Definition digests (partial : list byte) (len : Z)
    (c : option (list byte)) (l : list item) : list (list byte) :=
  option_list c ++ omap (match_of partial len) l.

Definition agree (partial : list byte) (len : Z)
    (c : option (list byte)) (l : list item) : Prop :=
  forall s1 s2, s1 ∈ digests partial len c l -> s2 ∈ digests partial len c l ->
                s1 = s2.

Definition nonempty_candidate (c : option (list byte)) : Prop :=
  forall s, c = Some s -> s ≠ [].

(** Membership in lists written out with [++] and [::]. *)
Ltac list_mem :=
  unfold option_list in *; cbn [option_rect] in *;
  repeat match goal with
         | H : _ ∈ _ |- _ =>
             progress rewrite ?elem_of_app, ?elem_of_cons, ?elem_of_nil in H
         end;
  rewrite ?elem_of_app, ?elem_of_cons, ?elem_of_nil;
  intuition congruence.

Lemma truthy_nonempty (s : list byte) : s ≠ [] -> truthy (Some s) = true.
Proof. by destruct s. Qed.

Lemma partial_calls_cons partial len it l :
  partial_calls partial len (it :: l)
  = partial_calls_of partial len it ++ partial_calls partial len l.
Proof. done. Qed.

Lemma partial_calls_app partial len l1 l2 :
  partial_calls partial len (l1 ++ l2)
  = partial_calls partial len l1 ++ partial_calls partial len l2.
Proof. unfold partial_calls. by rewrite fmap_app, concat_app. Qed.

(** One step of the scan on an entity that reports nothing. *)
Lemma scan_partial_none (d : Disk) partial len it l c (w : world) :
  partial_sha_to_index (index (entity it)) partial len = Ok None ->
  scan_partial (it :: l) c partial len w
  = scan_partial l c partial len
      (fst w, snd w ++ partial_calls_of partial len it).
Proof.
  intros Hnone. destruct w as [db log]. cbn [scan_partial].
  unfold bind at 1, log_call, modify. cbn [fst snd].
  unfold bind at 1, returns. rewrite Hnone.
  unfold partial_calls_of. by rewrite Hnone.
Qed.

(** One step of the scan on an entity that reports a digest. *)
Lemma scan_partial_some (d : Disk) partial len it l c i s (w : world) :
  partial_sha_to_index (index (entity it)) partial len = Ok (Some i) ->
  sha (index (entity it)) i = Ok s ->
  scan_partial (it :: l) c partial len w
  = if truthy c && bool_decide (c ≠ Some s)
    then (Raise (AmbiguousObjectName partial),
          (fst w, snd w ++ partial_calls_of partial len it))
    else scan_partial l (Some s) partial len
           (fst w, snd w ++ partial_calls_of partial len it).
Proof.
  intros Hsome Hsha. destruct w as [db log]. cbn [scan_partial].
  unfold bind at 1, log_call, modify. cbn [fst snd].
  unfold bind at 1, returns. rewrite Hsome.
  unfold bind at 1, log_call, modify. cbn [fst snd].
  unfold bind at 1. rewrite Hsha.
  unfold partial_calls_of. rewrite Hsome, <- app_assoc.
  by destruct (truthy c && bool_decide (c ≠ Some s)).
Qed.

Lemma answers_inv partial len it :
  answers partial len it ->
  (partial_sha_to_index (index (entity it)) partial len = Ok None
   /\ match_of partial len it = None)
  \/ (exists i s, partial_sha_to_index (index (entity it)) partial len = Ok (Some i)
                  /\ sha (index (entity it)) i = Ok s /\ s ≠ []
                  /\ match_of partial len it = Some s).
Proof.
  unfold answers, match_of.
  destruct (partial_sha_to_index _ _ _) as [[i|]|e]; [|by left|done].
  intros (s & Hs & Hne). right. exists i, s. by rewrite Hs.
Qed.

(** While the digests agree the scan goes through every entity and ends
    with the last digest reported, or with the candidate it started with. *)
Lemma scan_partial_agree (d : Disk) partial len (l : list item) :
  forall (c : option (list byte)) (w : world),
    Forall (answers partial len) l ->
    nonempty_candidate c ->
    agree partial len c l ->
    scan_partial l c partial len w
    = (Ok (match last (omap (match_of partial len) l) with
           | Some s => Some s
           | None => c
           end),
       (fst w, snd w ++ partial_calls partial len l)).
Proof.
  induction l as [|it l IH]; intros c w Hans Hc Hagree.
  - destruct w. simpl. unfold ret. by rewrite app_nil_r.
  - apply Forall_cons in Hans as [Hit Hans].
    destruct (answers_inv _ _ _ Hit) as [[Hnone Hm]|(i & s & Hsome & Hsha & Hne & Hm)].
    + rewrite (scan_partial_none d) by done.
      rewrite IH; [|done|done|].
      * cbn [omap list_omap]. rewrite Hm, partial_calls_cons.
        cbn [fst snd]. by rewrite <- app_assoc.
      * intros s1 s2. unfold agree, digests in Hagree.
        cbn [omap list_omap] in Hagree. rewrite Hm in Hagree. apply Hagree.
    + rewrite (scan_partial_some d _ _ _ _ _ i s) by done.
      assert (c = None \/ c = Some s) as Hcs.
      { destruct c as [s0|]; [right|by left]. f_equal.
        apply Hagree; unfold digests; cbn [omap list_omap option_list];
          rewrite Hm; list_mem. }
      replace (truthy c && bool_decide (c ≠ Some s)) with false; first last.
      { destruct Hcs as [->| ->]; [done|].
        rewrite bool_decide_false by (intros H; by apply H). by rewrite andb_false_r. }
      rewrite IH; [|done|by intros s0 [= <-]|].
      * cbn [omap list_omap]. rewrite Hm, partial_calls_cons.
        cbn [fst snd]. rewrite <- app_assoc. do 2 f_equal.
        destruct (omap (match_of partial len) l) as [|x xs]; [done|].
        change (last (s :: x :: xs)) with (last (x :: xs)).
        destruct (last (x :: xs)) eqn:E; [done|]. by apply last_None in E.
      * intros s1 s2 H1 H2. unfold digests in H1, H2.
        cbn [option_list] in H1, H2.
        apply Hagree; unfold digests; cbn [omap list_omap]; rewrite Hm;
          destruct c; cbn [option_list]; list_mem.
Qed.


Lemma agree_nil partial len c : agree partial len c [].
Proof.
  intros s1 s2. unfold digests. cbn [omap list_omap]. rewrite app_nil_r.
  destruct c as [s|]; cbn [option_list]; intros H1 H2; list_mem.
Qed.

Lemma agree_cons_none partial len c it l :
  match_of partial len it = None ->
  agree partial len c (it :: l) <-> agree partial len c l.
Proof.
  intros Hm. unfold agree, digests. cbn [omap list_omap]. by rewrite Hm.
Qed.

Lemma agree_cons_some partial len c it l s :
  match_of partial len it = Some s -> c = None \/ c = Some s ->
  agree partial len c (it :: l) <-> agree partial len (Some s) l.
Proof.
  intros Hm Hc. unfold agree, digests. cbn [omap list_omap]. rewrite Hm.
  destruct Hc as [-> | ->]; cbn [option_list]; [done|].
  split; intros H s1 s2 H1 H2; apply H; list_mem.
Qed.

(** When the digests do not agree the scan stops with the ambiguity
    error at the first entity that reports a digest different from the
    one found before it, and examines no entity after that one. *)
Lemma scan_partial_conflict (d : Disk) partial len (l : list item) :
  forall (c : option (list byte)) (w : world),
    Forall (answers partial len) l ->
    nonempty_candidate c ->
    ~ agree partial len c l ->
    exists pre it post,
      l = pre ++ it :: post
      /\ agree partial len c pre
      /\ ~ agree partial len c (pre ++ [it])
      /\ scan_partial l c partial len w
         = (Raise (AmbiguousObjectName partial),
            (fst w, snd w ++ partial_calls partial len (pre ++ [it]))).
Proof.
  induction l as [|it l IH]; intros c w Hans Hc Hconf.
  - exfalso. apply Hconf, agree_nil.
  - apply Forall_cons in Hans as [Hit Hans].
    destruct (answers_inv _ _ _ Hit) as [[Hnone Hm]|(i & s & Hsome & Hsha & Hne & Hm)].
    + rewrite (scan_partial_none d) by done.
      destruct (IH c (fst w, snd w ++ partial_calls_of partial len it) Hans Hc)
        as (pre & it' & post & -> & Hpre & Hbad & Hrun).
      { by rewrite <- (agree_cons_none _ _ _ it) by done. }
      exists (it :: pre), it', post. split; [done|]. split; [|split].
      * by apply agree_cons_none.
      * change ((it :: pre) ++ [it']) with (it :: (pre ++ [it'])).
        by rewrite agree_cons_none.
      * rewrite Hrun. cbn [fst snd].
        change ((it :: pre) ++ [it']) with (it :: (pre ++ [it'])).
        by rewrite partial_calls_cons, <- app_assoc.
    + rewrite (scan_partial_some d _ _ _ _ _ i s) by done.
      destruct (decide (c = None \/ c = Some s)) as [Hcs|Hcs].
      * replace (truthy c && bool_decide (c ≠ Some s)) with false; first last.
        { destruct Hcs as [->| ->]; [done|].
          rewrite bool_decide_false by (intros H; by apply H).
          by rewrite andb_false_r. }
        destruct (IH (Some s) (fst w, snd w ++ partial_calls_of partial len it) Hans)
          as (pre & it' & post & -> & Hpre & Hbad & Hrun).
        { by intros s0 [= <-]. }
        { by rewrite <- (agree_cons_some _ _ c it) by done. }
        exists (it :: pre), it', post. split; [done|]. split; [|split].
        -- by apply (agree_cons_some _ _ c it _ s).
        -- change ((it :: pre) ++ [it']) with (it :: (pre ++ [it'])).
           by rewrite (agree_cons_some _ _ c it _ s).
        -- rewrite Hrun. cbn [fst snd].
           change ((it :: pre) ++ [it']) with (it :: (pre ++ [it'])).
           by rewrite partial_calls_cons, <- app_assoc.
      * destruct c as [s0|]; [|exfalso; apply Hcs; by left].
        assert (s0 ≠ s) as Hs0 by (intros ->; apply Hcs; by right).
        rewrite truthy_nonempty by (by apply Hc).
        rewrite bool_decide_true by congruence.
        exists [], it, l. split; [done|]. split; [apply agree_nil|]. split.
        -- intros Hag. apply Hs0, Hag; unfold digests;
             cbn [app omap list_omap option_list]; rewrite Hm; list_mem.
        -- cbn [app andb]. unfold partial_calls. cbn [fmap list_fmap concat].
           by rewrite app_nil_r.
Qed.

(** What [partial_to_complete_sha] makes of the scan. *)
Lemma partial_unfold (d : Disk) partial len (db : PackedDB) (log : list call)
    (l : list item) :
  _entities db = Some l ->
  partial_to_complete_sha d partial len (db, log)
  = (candidate <- scan_partial l None partial len ;;
     match candidate with
     | Some (b :: rest) => ret (b :: rest)
     | _ => raise (BadObject partial)
     end) (db, log).
Proof.
  intros Hl. unfold partial_to_complete_sha. unfold bind at 1.
  by rewrite (entities_loaded d db log l Hl).
Qed.

Lemma matched_nonempty partial len (l : list item) (s : list byte) :
  Forall (answers partial len) l -> s ∈ omap (match_of partial len) l -> s ≠ [].
Proof.
  intros Hans (it & Hit & Hm)%list_elem_of_omap.
  rewrite Forall_forall in Hans.
  destruct (answers_inv _ _ _ (Hans it Hit)) as [[_ Hm']|(i & s' & _ & _ & Hne & Hm')];
    congruence.
Qed.


(** *** [update_cache] on any database *)

(** The entries registered so far: none before the first load. *)
Definition registered (db : PackedDB) : list item := default [] (_entities db).

(** The calls of a reconciliation after the directory listing. *)
Definition reconcile_calls (d : Disk) (db : PackedDB) : list call :=
  match _entities db with
  | Some l => (CallPackEntity <$> discovered d db l) ++ [CallSort]
  | None => load_calls d db ++ [CallSort]
  end.

Lemma update_cache_unloaded_run (d : Disk) (force : bool) (db : PackedDB)
    (log : list call) (mtime : Z) :
  st_mtime d = Ok mtime ->
  force = true \/ (_st_mtime db < mtime)%Z ->
  _entities db = None ->
  update_cache d force (db, log)
  = (Ok true,
     (MkPackedDB (_root_path db) (Some (reconciled d db [])) (_hit_count db) mtime,
      log ++ CallStat (_root_path db) :: CallGlob (pack_pattern db)
          :: load_calls d db ++ [CallSort])).
Proof.
  intros Hstat Hgate Hnone. unfold update_cache.
  rewrite (update_cache_head d _ force db log mtime) by done.
  set (db1 := MkPackedDB (_root_path db) (_entities db) (_hit_count db) mtime).
  unfold bind at 1. fold (entities_ d).
  rewrite (entities_unloaded d db1 _ mtime) by done.
  change (loaded d db1 mtime) with (loaded d db mtime).
  change (reconciled d db1 []) with (reconciled d db []).
  change (load_calls d db1) with (load_calls d db).
  change (disk_packs d db) with (disk_packs d (loaded d db mtime)).
  rewrite (reconcile_run d _ (loaded d db mtime) _ (reconciled d db [])); first last.
  { apply reconciled_NoDup. constructor. }
  { done. }
  change (reconciled d (loaded d db mtime) ?l) with (reconciled d db l).
  change (discovered d (loaded d db mtime) ?l) with (discovered d db l).
  rewrite reconciled_idem.
  unfold discovered at 1. rewrite reconciled_paths, difference_diag_L, elements_empty.
  cbn [fmap list_fmap app]. unfold with_entities, loaded.
  cbn [_root_path _hit_count _st_mtime]. by rewrite <- !app_assoc.
Qed.

Lemma update_cache_any_run (d : Disk) (force : bool) (db : PackedDB)
    (log : list call) (mtime : Z) :
  st_mtime d = Ok mtime ->
  force = true \/ (_st_mtime db < mtime)%Z ->
  NoDup (item_path <$> registered db) ->
  update_cache d force (db, log)
  = (Ok true,
     (MkPackedDB (_root_path db) (Some (reconciled d db (registered db)))
        (_hit_count db) mtime,
      log ++ CallStat (_root_path db) :: CallGlob (pack_pattern db)
          :: reconcile_calls d db)).
Proof.
  intros Hstat Hgate Hnd. unfold registered, reconcile_calls in *.
  destruct (_entities db) as [l|] eqn:Hl.
  - by apply update_cache_run.
  - by apply update_cache_unloaded_run.
Qed.

(** ** update_cache *)

(** The claim about the result of [update_cache(force=False)], as the
    specification words it: false without a listing when the directory's
    modification time is unchanged; otherwise the registry is reconciled
    with the directory and the result is true if and only if the set of
    registered packs changed. *)
Definition refresh_as_specified : Prop :=
  forall (d : Disk) (db : PackedDB) (l : list item) (mtime : Z),
    st_mtime d = Ok mtime ->
    _entities db = Some l ->
    NoDup (item_path <$> l) ->
    let '(r, (db', log')) := update_cache d false (db, []) in
    if (mtime =? _st_mtime db)%Z
    then r = Ok false /\ CallGlob (pack_pattern db) ∉ log'
    else our_packs (registered db') = disk_packs d db
         /\ r = Ok (bool_decide (our_packs (registered db') ≠ our_packs l)).

(** The directory changed (a file that is no pack was added, say) but
    holds the registered pack and no other: the refresh answers true. *)
Lemma refresh_without_change_is_true :
  update_cache (disk_with 20 ["/r/pack-a.pack"]) false (db_with [pack_a] 0, [])
  = (Ok true,
     (MkPackedDB "/r" (Some [pack_a]) 0 20,
      [CallStat "/r"; CallGlob "/r/pack-*.pack"; CallSort])).
Proof. reflexivity. Qed.

(** The directory's modification time went back, and a pack was added:
    the refresh answers false and does not look. *)
Lemma refresh_older_mtime_is_skipped :
  update_cache (disk_with 5 ["/r/pack-a.pack"; "/r/pack-b.pack"]) false
    (db_with [pack_a] 0, [])
  = (Ok false, (db_with [pack_a] 0, [CallStat "/r"])).
Proof. reflexivity. Qed.

Lemma NoDup_one_pack : NoDup (item_path <$> [pack_a]).
Proof. apply NoDup_singleton. Qed.

(** C1, counterexample.  The registry holds [pack-a] and was refreshed at
    time 10; the directory now holds [pack-a] and [pack-b] and says it
    was modified at time 5.  Its modification time has changed, so the
    claim has the registry reconciled with the directory; the code
    answers false and leaves [pack-b] out. *)
Lemma refresh_as_specified_fails : ~ refresh_as_specified.
Proof.
  intros H.
  specialize (H (disk_with 5 ["/r/pack-a.pack"; "/r/pack-b.pack"])
                (db_with [pack_a] 0) [pack_a] 5%Z eq_refl eq_refl NoDup_one_pack).
  rewrite refresh_older_mtime_is_skipped in H.
  destruct H as [H _].
  assert ("/r/pack-b.pack" ∈ our_packs (registered (db_with [pack_a] 0))) as Hin.
  { rewrite H. apply elem_of_list_to_set, list_elem_of_further, list_elem_of_here. }
  apply elem_of_list_to_set, list_elem_of_fmap in Hin as (it & Hpath & Hit).
  apply list_elem_of_singleton in Hit as ->. discriminate Hpath.
Qed.

(** C1, as amended.  With the directory's modification time [mtime]:
    when it is not later than the time recorded at the last refresh, an
    unforced [update_cache] answers false, changes nothing and makes no
    call but [os.stat] (no listing); when it is later, [update_cache]
    records it, lists the directory, leaves as registered packs exactly
    the pack files listed, and answers true whenever that set differs
    from the one registered before. *)
Theorem refresh_gate_and_result (d : Disk) (db : PackedDB) (log : list call)
    (mtime : Z) :
  st_mtime d = Ok mtime ->
  NoDup (item_path <$> registered db) ->
  ((mtime <= _st_mtime db)%Z ->
   update_cache d false (db, log)
   = (Ok false, (db, log ++ [CallStat (_root_path db)])))
  /\ ((_st_mtime db < mtime)%Z ->
      exists (r : bool) (l' : list item) (calls : list call),
        update_cache d false (db, log)
        = (Ok r,
           (MkPackedDB (_root_path db) (Some l') (_hit_count db) mtime,
            log ++ CallStat (_root_path db) :: CallGlob (pack_pattern db) :: calls))
        /\ our_packs l' = disk_packs d db
        /\ NoDup (item_path <$> l')
        /\ (our_packs l' ≠ our_packs (registered db) -> r = true)).
Proof.
  intros Hstat Hnd. split.
  - intros Hle. by apply (update_cache_gate d _ db log mtime).
  - intros Hlt.
    exists true, (reconciled d db (registered db)), (reconcile_calls d db).
    split; [apply update_cache_any_run; auto|].
    split; [apply reconciled_paths|].
    split; [by apply reconciled_NoDup|done].
Qed.

Lemma refresh_gate_and_result_witness :
  update_cache (disk_with 10 ["/r/pack-a.pack"; "/r/pack-b.pack"]) false
    (db_with [pack_a] 0, [])
  = (Ok false, (db_with [pack_a] 0, [CallStat "/r"]))
  /\ exists (r : bool) (l' : list item) (calls : list call),
       update_cache (disk_with 20 ["/r/pack-a.pack"; "/r/pack-b.pack"]) false
         (db_with [pack_a] 0, [])
       = (Ok r,
          (MkPackedDB "/r" (Some l') 0 20,
           CallStat "/r" :: CallGlob "/r/pack-*.pack" :: calls))
       /\ our_packs l'
          = disk_packs (disk_with 20 ["/r/pack-a.pack"; "/r/pack-b.pack"])
              (db_with [pack_a] 0)
       /\ NoDup (item_path <$> l')
       /\ (our_packs l' ≠ our_packs [pack_a] -> r = true).
Proof.
  split.
  - apply (proj1 (refresh_gate_and_result
                    (disk_with 10 ["/r/pack-a.pack"; "/r/pack-b.pack"])
                    (db_with [pack_a] 0) [] 10%Z eq_refl NoDup_one_pack)).
    simpl. lia.
  - apply (proj2 (refresh_gate_and_result
                    (disk_with 20 ["/r/pack-a.pack"; "/r/pack-b.pack"])
                    (db_with [pack_a] 0) [] 20%Z eq_refl NoDup_one_pack)).
    simpl. lia.
Defined.

(** C10: what a reconciliation keeps.  When [update_cache] goes on to
    reconcile (forced, or the directory is newer), on a registry with
    one entry per pack file at most (an invariant: [reconciled_NoDup]),
    the registry it leaves is, up to the order the final sort gives it, the old entries
    whose pack file is still listed, as they were (hit count, entity
    and lookup untouched), followed by one new entry per listed file
    that was not registered; so an entry whose file is listed stays, an
    entry whose file is gone is removed, and every other entry of the
    new registry is new, for a listed file that had no entry.  The
    global hit counter is untouched. *)
Theorem refresh_keeps_entries (d : Disk) (force : bool) (db : PackedDB)
    (log : list call) (mtime : Z) :
  st_mtime d = Ok mtime ->
  force = true \/ (_st_mtime db < mtime)%Z ->
  NoDup (item_path <$> registered db) ->
  exists l' : list item,
    fst (snd (update_cache d force (db, log)))
    = MkPackedDB (_root_path db) (Some l') (_hit_count db) mtime
    /\ l' ≡ₚ filter (fun it => item_path it ∈ disk_packs d db) (registered db)
             ++ (new_item d
                   <$> elements (disk_packs d db ∖ our_packs (registered db)))
    /\ (forall it, it ∈ registered db ->
                   item_path it ∈ disk_packs d db -> it ∈ l')
    /\ (forall it, it ∈ registered db ->
                   item_path it ∉ disk_packs d db -> it ∉ l')
    /\ (forall it, it ∈ l' ->
          it ∈ registered db
          \/ (it = new_item d (item_path it)
              /\ item_path it ∈ disk_packs d db
              /\ item_path it ∉ item_path <$> registered db)).
Proof.
  intros Hstat Hgate Hnd. set (l := registered db) in *.
  exists (reconciled d db l).
  rewrite (update_cache_any_run d force db log mtime) by done.
  split; [done|]. split; [apply reconciled_perm|].
  assert (forall it, it ∈ reconciled d db l <->
                     (it ∈ l /\ item_path it ∈ disk_packs d db)
                     \/ (exists p, it = new_item d p /\ p ∈ discovered d db l))
    as Hmem.
  { intros it. rewrite reconciled_perm, elem_of_app. unfold kept.
    rewrite list_elem_of_filter, list_elem_of_fmap. tauto. }
  split; [|split].
  - intros it Hit Hdisk. apply Hmem. by left.
  - intros it Hit Hgone [[_ Hdisk]|(p & -> & [Hp _]%discovered_spec)]%Hmem; done.
  - intros it [[Hit _]|(p & -> & [Hp Hnew]%discovered_spec)]%Hmem; [by left|].
    right. by rewrite new_item_path.
Qed.

Lemma refresh_keeps_entries_witness :
  exists l' : list item,
    fst (snd (update_cache (disk_with 20 ["/r/pack-a.pack"; "/r/pack-b.pack"])
                false (db_with [pack_c; pack_a] 7, [])))
    = MkPackedDB "/r" (Some l') 7 20
    /\ pack_a ∈ l' /\ pack_c ∉ l'.
Proof.
  destruct (refresh_keeps_entries
              (disk_with 20 ["/r/pack-a.pack"; "/r/pack-b.pack"]) false
              (db_with [pack_c; pack_a] 7) [] 20%Z)
    as (l' & Hrun & _ & Hkeep & Hgone & _).
  - reflexivity.
  - right. simpl. lia.
  - apply NoDup_cons. split; [|apply NoDup_singleton].
    intros Hin%list_elem_of_singleton. discriminate Hin.
  - exists l'. split; [exact Hrun|]. split.
    + apply Hkeep; [apply list_elem_of_further, list_elem_of_here|].
      apply elem_of_list_to_set, list_elem_of_here.
    + apply Hgone; [apply list_elem_of_here|].
      intros Hin%elem_of_list_to_set.
      apply elem_of_cons in Hin as [Hin|Hin]; [discriminate Hin|].
      apply list_elem_of_singleton in Hin. discriminate Hin.
Defined.

(** ** _pack_info *)

(** The queries [shas], one after the other, from the world [w]. *)
Fixpoint run_queries (d : Disk) (shas : list (list byte)) (w : world) : world :=
  match shas with
  | [] => w
  | sha_ :: rest => run_queries d rest (snd (_pack_info d sha_ w))
  end.

(** Whether the next query for [sha_] sorts the registry. *)
Definition is_sort (c : call) : bool :=
  match c with CallSort => true | _ => false end.

Definition resorts (d : Disk) (sha_ : list byte) (w : world) : bool :=
  existsb is_sort (snd (snd (_pack_info d sha_ (fst w, [])))).

(** The claim about the periodic sort, as the specification words it:
    counting the queries made on a database, the registry is sorted on
    every 500th of them and on no other. *)
Definition resorts_every_Nth_query : Prop :=
  forall (d : Disk) (db : PackedDB) (l : list item),
    _entities db = Some l ->
    exists first : Z,
      forall (earlier : list (list byte)) (sha_ : list byte),
        resorts d sha_ (run_queries d earlier (db, [])) = true
        <-> ((Z.of_nat (length earlier) - first) mod _sort_interval = 0)%Z.

(** On a registry of one pack that does not hold digest [bb], two
    queries for it in a row both sort. *)
Lemma two_misses_sort_twice :
  resorts (disk_with 10 []) sha_bb (db_with [pack_a] 0, []) = true
  /\ resorts (disk_with 10 []) sha_bb
       (run_queries (disk_with 10 []) [sha_bb] (db_with [pack_a] 0, [])) = true.
Proof. split; reflexivity. Qed.

(** Were the sort made on every 500th query only, two queries in a row
    could not both sort; the two misses above do. *)
Lemma resorts_every_Nth_query_fails : ~ resorts_every_Nth_query.
Proof.
  intros H.
  destruct (H (disk_with 10 []) (db_with [pack_a] 0) [pack_a] eq_refl)
    as [first Hfirst].
  destruct two_misses_sort_twice as [H0 H1].
  apply (Hfirst [] sha_bb) in H0. apply (Hfirst [sha_bb] sha_bb) in H1.
  unfold _sort_interval in *. cbn [length Z.of_nat Pos.of_succ_nat] in *.
  apply Z.mod_divide in H0; [|lia]. apply Z.mod_divide in H1; [|lia].
  destruct H0 as [a Ha], H1 as [b Hb]. lia.
Qed.

(** C2: the sort is not made every 500th query.  A database with one
    pack that does not hold digest [bb] and no hit so far: the query for
    [bb] sorts the registry, asks the pack, raises [BadObject] and
    leaves the hit counter at 0, and the very next query sorts again.
    Two queries in a row both sort, where the comment on
    [_sort_interval] says: sort the priority list every N queries. *)
Theorem consecutive_misses_both_sort :
  _pack_info (disk_with 10 []) sha_bb (db_with [pack_a] 0, [])
  = (Raise (BadObject sha_bb),
     (db_with [pack_a] 0, [CallSort; CallShaToIndex "/r/pack-a.pack" sha_bb]))
  /\ _pack_info (disk_with 10 []) sha_bb
       (snd (_pack_info (disk_with 10 []) sha_bb (db_with [pack_a] 0, [])))
     = (Raise (BadObject sha_bb),
        (db_with [pack_a] 0,
         [CallSort; CallShaToIndex "/r/pack-a.pack" sha_bb;
          CallSort; CallShaToIndex "/r/pack-a.pack" sha_bb])).
Proof. split; reflexivity. Qed.

(** What a query does, as the code has it.  On a database that has
    loaded its packs (the first use loads them and goes on as below:
    [pack_info_unloaded]), the counter [_hit_count] counts the queries
    that found their digest, not the queries.  A query sorts the
    registry (stably, larger hit counts first) before it scans when
    that counter is a multiple of 500; it then asks the entities in
    order: at the first
    one whose index has the digest it adds one to that entry's hit count
    and to the counter and returns that entity and slot, having asked no
    later entity; when none has it, it raises [BadObject] and leaves the
    counter as it was. *)
Theorem pack_info_resolution (d : Disk) (sha_ : list byte) (db : PackedDB)
    (log : list call) (l : list item) :
  _entities db = Some l ->
  (((_hit_count db mod 500 = 0)%Z ->
    presorted db l = sort_desc l /\ presort_calls db = [CallSort])
   /\ ((_hit_count db mod 500 ≠ 0)%Z ->
       presorted db l = l /\ presort_calls db = [])
   /\ sort_desc l ≡ₚ l /\ descending (sort_desc l)
   /\ (forall h : Z, filter (fun it => hits it = h) (sort_desc l)
                     = filter (fun it => hits it = h) l))
  /\ (forall (pre : list item) (it : item) (post : list item) (slot : Z),
        presorted db l = pre ++ it :: post ->
        Forall (misses sha_) pre ->
        sha_to_index (index (entity it)) sha_ = Ok (Some slot) ->
        _pack_info d sha_ (db, log)
        = (Ok (entity it, slot),
           (MkPackedDB (_root_path db)
              (Some (pre ++ Item (hits it + 1) (entity it) (lookup it) :: post))
              (_hit_count db + 1) (_st_mtime db),
            log ++ presort_calls db ++ lookup_calls sha_ (pre ++ [it]))))
  /\ (Forall (misses sha_) (presorted db l) ->
      _pack_info d sha_ (db, log)
      = (Raise (BadObject sha_),
         (MkPackedDB (_root_path db) (Some (presorted db l))
            (_hit_count db) (_st_mtime db),
          log ++ presort_calls db ++ lookup_calls sha_ (presorted db l)))).
Proof.
  intros Hl. split; [|split].
  - unfold presorted, presort_calls, _sort_interval.
    destruct (Z.eqb_spec (_hit_count db mod 500) 0) as [H0|H0].
    + split; [done|]. split; [done|].
      split; [apply sort_desc_perm|].
      split; [apply sort_desc_descending|intros h; apply sort_desc_stable].
    + split; [done|]. split; [done|].
      split; [apply sort_desc_perm|].
      split; [apply sort_desc_descending|intros h; apply sort_desc_stable].
  - intros pre it post slot Hsplit Hpre Hit.
    rewrite (pack_info_presort d sha_ db log l Hl), Hsplit.
    rewrite scan_misses by done. cbn [fst snd].
    rewrite (scan_hit d sha_ it post (pre ++ it :: post) _ slot) by done.
    cbn [with_entities _root_path _hit_count _st_mtime].
    rewrite Nat.add_0_l. replace (length pre) with (length pre + 0) at 1 by lia.
    rewrite insert_app_r. cbn [insert list_insert].
    unfold lookup_calls. rewrite fmap_app. cbn [fmap list_fmap].
    by rewrite <- !app_assoc.
  - intros Hmiss.
    rewrite (pack_info_presort d sha_ db log l Hl).
    rewrite <- (app_nil_r (presorted db l)) at 1.
    rewrite scan_misses by done. rewrite scan_exhausted.
    cbn [fst snd with_entities]. by rewrite <- !app_assoc.
Qed.

Lemma pack_info_resolution_witness :
  _pack_info (disk_with 10 []) sha_aaaa2 (db_with [pack_c; pack_a; pack_b] 500, [])
  = (Ok (entity pack_b, 0%Z),
     (MkPackedDB "/r"
        (Some [pack_a; Item 201 (entity pack_b) (lookup pack_b); pack_c])
        501 10,
      [CallSort; CallShaToIndex "/r/pack-a.pack" sha_aaaa2;
       CallShaToIndex "/r/pack-b.pack" sha_aaaa2])).
Proof.
  apply (proj1 (proj2 (pack_info_resolution (disk_with 10 []) sha_aaaa2
                         (db_with [pack_c; pack_a; pack_b] 500) []
                         [pack_c; pack_a; pack_b] eq_refl))
           [pack_a] pack_b [pack_c] 0%Z).
  - reflexivity.
  - repeat constructor.
  - reflexivity.
Defined.

(** The claim about failures, as the specification words it: whatever
    an entity's index raises while it is queried is swallowed, so the
    only exception a resolution lets out is [BadObject], after every
    entity was tried. *)
Definition entity_failures_are_swallowed : Prop :=
  forall (d : Disk) (db : PackedDB) (l : list item) (sha_ : list byte) (e : exn),
    _entities db = Some l ->
    fst (_pack_info d sha_ (db, [])) = Raise e \/
    fst (has_object d sha_ (db, [])) = Raise e ->
    e = BadObject sha_.

(** A registry whose first pack has an index that cannot be read, and
    whose second pack holds the digest: the query raises what the index
    raised and never asks the second pack. *)
Lemma unreadable_index_surfaces :
  _pack_info (disk_with 10 []) sha_aaaa1 (db_with [pack_broken; pack_a] 1, [])
  = (Raise (IOError "index unreadable"),
     (db_with [pack_broken; pack_a] 1,
      [CallShaToIndex "/r/pack-x.pack" sha_aaaa1])).
Proof. reflexivity. Qed.

(** C4, counterexample: the error of the unreadable index reaches the
    caller. *)
Lemma entity_failures_are_swallowed_fails : ~ entity_failures_are_swallowed.
Proof.
  intros H.
  specialize (H (disk_with 10 []) (db_with [pack_broken; pack_a] 1)
                [pack_broken; pack_a] sha_aaaa1 (IOError "index unreadable")
                eq_refl).
  rewrite unreadable_index_surfaces in H.
  discriminate H. by left.
Qed.

(** C4, as amended.  On a database that has loaded its packs: an
    entity whose index answers [None] is passed over and the next one is asked; when every entity answered [None]
    the query raises [BadObject] ([has_object]: false).  There is no
    handler around the index query: when the first entity that does not
    answer [None] raises, that exception ends the query at once, no
    later entity is asked, nothing is counted, and the exception reaches
    the caller of [_pack_info], and of [has_object] too unless it is a
    [BadObject]. *)
Theorem pack_info_propagation (d : Disk) (sha_ : list byte) (db : PackedDB)
    (log : list call) (l : list item) :
  _entities db = Some l ->
  (forall (pre rest : list item),
     presorted db l = pre ++ rest ->
     Forall (misses sha_) pre ->
     _pack_info d sha_ (db, log)
     = scan_entities d rest (length pre) sha_
         (with_entities db (presorted db l),
          log ++ presort_calls db ++ lookup_calls sha_ pre))
  /\ (Forall (misses sha_) (presorted db l) ->
      fst (_pack_info d sha_ (db, log)) = Raise (BadObject sha_)
      /\ fst (has_object d sha_ (db, log)) = Ok false)
  /\ (forall (pre : list item) (it : item) (post : list item) (e : exn),
        presorted db l = pre ++ it :: post ->
        Forall (misses sha_) pre ->
        sha_to_index (index (entity it)) sha_ = Raise e ->
        _pack_info d sha_ (db, log)
        = (Raise e,
           (with_entities db (presorted db l),
            log ++ presort_calls db ++ lookup_calls sha_ (pre ++ [it])))
        /\ fst (has_object d sha_ (db, log))
           = (if is_BadObject e then Ok false else Raise e)).
Proof.
  intros Hl.
  assert (forall pre rest, presorted db l = pre ++ rest ->
            Forall (misses sha_) pre ->
            _pack_info d sha_ (db, log)
            = scan_entities d rest (length pre) sha_
                (with_entities db (presorted db l),
                 log ++ presort_calls db ++ lookup_calls sha_ pre)) as Hadv.
  { intros pre rest Hsplit Hpre.
    rewrite (pack_info_presort d sha_ db log l Hl). rewrite Hsplit at 1.
    rewrite scan_misses by done. cbn [fst snd]. by rewrite <- app_assoc. }
  split; [exact Hadv|]. split.
  - intros Hmiss.
    assert (fst (_pack_info d sha_ (db, log)) = Raise (BadObject sha_)) as Hbad.
    { rewrite (Hadv (presorted db l) []) by (by rewrite ?app_nil_r). done. }
    split; [done|].
    unfold has_object, try_except, bind.
    destruct (_pack_info d sha_ (db, log)) as [[r|e] w]; [done|].
    simpl in Hbad. by injection Hbad as ->.
  - intros pre it post e Hsplit Hpre Hit.
    assert (_pack_info d sha_ (db, log)
            = (Raise e,
               (with_entities db (presorted db l),
                log ++ presort_calls db ++ lookup_calls sha_ (pre ++ [it]))))
      as Hrun.
    { rewrite (Hadv pre (it :: post)) by done.
      rewrite (scan_raises d sha_ it post _ e) by done. cbn [fst snd].
      unfold lookup_calls. rewrite fmap_app. cbn [fmap list_fmap].
      by rewrite <- !app_assoc. }
    split; [done|].
    unfold has_object, try_except, bind. rewrite Hrun.
    by destruct (is_BadObject e).
Qed.

Lemma pack_info_propagation_witness :
  _pack_info (disk_with 10 []) sha_aaaa1 (db_with [pack_c; pack_broken; pack_a] 1, [])
  = (Raise (IOError "index unreadable"),
     (db_with [pack_c; pack_broken; pack_a] 1,
      [CallShaToIndex "/r/pack-c.pack" sha_aaaa1;
       CallShaToIndex "/r/pack-x.pack" sha_aaaa1]))
  /\ fst (has_object (disk_with 10 []) sha_aaaa1
            (db_with [pack_c; pack_broken; pack_a] 1, []))
     = Raise (IOError "index unreadable").
Proof.
  apply (proj2 (proj2 (pack_info_propagation (disk_with 10 []) sha_aaaa1
                         (db_with [pack_c; pack_broken; pack_a] 1) []
                         [pack_c; pack_broken; pack_a] eq_refl))
           [pack_c] pack_broken [pack_a] (IOError "index unreadable")).
  - reflexivity.
  - repeat constructor.
  - reflexivity.
Defined.

(** ** partial_to_complete_sha *)

(** The entities whose index was asked for the partial digest, in order. *)
Definition asked (log : list call) : list string :=
  omap (fun c => match c with
                 | CallPartialShaToIndex pack _ _ => Some pack
                 | _ => None
                 end) log.

(** The claim about the scan, as the specification words it: every
    entity of the registry is examined, whatever the others reported. *)
Definition every_entity_is_examined : Prop :=
  forall (d : Disk) (db : PackedDB) (l : list item) (partial : list byte) (len : Z),
    _entities db = Some l ->
    Forall (answers partial len) l ->
    (1 <= len <= 39)%Z ->
    asked (snd (snd (partial_to_complete_sha d partial len (db, []))))
    = item_path <$> l.

(** Three packs; the first two hold digests that share the hex prefix
    [aaaa].  The scan fails at the second and never asks the third. *)
Lemma ambiguity_ends_the_scan :
  partial_to_complete_sha (disk_with 10 []) [xaa; xaa] 4
    (db_with [pack_a; pack_b; pack_c] 0, [])
  = (Raise (AmbiguousObjectName [xaa; xaa]),
     (db_with [pack_a; pack_b; pack_c] 0,
      [CallPartialShaToIndex "/r/pack-a.pack" [xaa; xaa] 4;
       CallSha "/r/pack-a.pack" 0;
       CallPartialShaToIndex "/r/pack-b.pack" [xaa; xaa] 4;
       CallSha "/r/pack-b.pack" 0])).
Proof. reflexivity. Qed.

(** With five hex digits the prefix [aaaa1] is that of one digest only. *)
Lemma longer_prefix_resolves :
  partial_to_complete_sha (disk_with 10 []) [xaa; xaa; x10] 5
    (db_with [pack_a; pack_b; pack_c] 0, [])
  = (Ok sha_aaaa1,
     (db_with [pack_a; pack_b; pack_c] 0,
      [CallPartialShaToIndex "/r/pack-a.pack" [xaa; xaa; x10] 5;
       CallSha "/r/pack-a.pack" 0;
       CallPartialShaToIndex "/r/pack-b.pack" [xaa; xaa; x10] 5;
       CallPartialShaToIndex "/r/pack-c.pack" [xaa; xaa; x10] 5])).
Proof. reflexivity. Qed.

Lemma index_of_one_answers (n : Z) (path : string) (s : list byte)
    (partial : list byte) (len : Z) :
  s ≠ [] -> answers partial len (item_of n path (index_of [s])).
Proof.
  intros Hs. unfold answers, item_of, index_of.
  cbn [entity index partial_sha_to_index sha list_find].
  destruct (decide (has_prefix partial len s)); cbn; eauto.
Qed.

Lemma example_packs_answer (partial : list byte) (len : Z) :
  Forall (answers partial len) [pack_a; pack_b; pack_c].
Proof. repeat constructor; by apply index_of_one_answers. Qed.

(** C3, counterexample: the third pack is not examined. *)
Lemma every_entity_is_examined_fails : ~ every_entity_is_examined.
Proof.
  intros H.
  specialize (H (disk_with 10 []) (db_with [pack_a; pack_b; pack_c] 0)
                [pack_a; pack_b; pack_c] [xaa; xaa] 4%Z eq_refl
                (example_packs_answer _ _) ltac:(lia)).
  rewrite ambiguity_ends_the_scan in H. discriminate H.
Qed.

(** C3, as amended.  On a database that has loaded its packs (the first
    use loads them: [partial_unloaded]) and whose indexes answer (the partial
    lookup returns, and a slot it returns holds a digest that is not
    empty), with [matched] the digests the entities report in registry
    order: when no entity reports one, [BadObject], every entity
    examined; when all the reported digests are one and the same digest
    (found in one entity or in several) it is returned, every entity
    examined, so the first hit does not end the scan; when two reported
    digests differ, [AmbiguousObjectName], raised at the first entity
    whose digest differs from the one found before it, the entities
    before it examined and those after it not.  The database is never
    changed. *)
Theorem partial_resolution (d : Disk) (partial : list byte) (len : Z)
    (db : PackedDB) (log : list call) (l : list item) :
  _entities db = Some l ->
  Forall (answers partial len) l ->
  (omap (match_of partial len) l = [] ->
   partial_to_complete_sha d partial len (db, log)
   = (Raise (BadObject partial), (db, log ++ partial_calls partial len l)))
  /\ (forall s : list byte,
        s ∈ omap (match_of partial len) l ->
        (forall s', s' ∈ omap (match_of partial len) l -> s' = s) ->
        partial_to_complete_sha d partial len (db, log)
        = (Ok s, (db, log ++ partial_calls partial len l)))
  /\ (forall s1 s2 : list byte,
        s1 ∈ omap (match_of partial len) l ->
        s2 ∈ omap (match_of partial len) l ->
        s1 ≠ s2 ->
        exists (pre : list item) (it : item) (post : list item),
          l = pre ++ it :: post
          /\ agree partial len None pre
          /\ ~ agree partial len None (pre ++ [it])
          /\ partial_to_complete_sha d partial len (db, log)
             = (Raise (AmbiguousObjectName partial),
                (db, log ++ partial_calls partial len (pre ++ [it]))))
  /\ asked (partial_calls partial len l) = item_path <$> l.
Proof.
  intros Hl Hans. split; [|split; [|split]].
  - intros Hnone. rewrite (partial_unfold d _ _ db log l Hl). unfold bind.
    rewrite (scan_partial_agree d) by
      (try done; intros s1 s2; unfold digests; rewrite Hnone;
       cbn [option_list app]; intros H1; list_mem).
    by rewrite Hnone.
  - intros s Hs Hall. rewrite (partial_unfold d _ _ db log l Hl). unfold bind.
    rewrite (scan_partial_agree d); [|done|done|]; first last.
    { intros s1 s2 H1 H2. unfold digests in *. cbn [option_list app] in *.
      by rewrite (Hall s1), (Hall s2). }
    destruct (last (omap (match_of partial len) l)) as [s'|] eqn:Hlast.
    + assert (s' = s) as ->.
      { apply Hall. apply last_Some in Hlast as [l' ->].
        apply elem_of_app. right. by left. }
      pose proof (matched_nonempty _ _ _ _ Hans Hs). by destruct s.
    + apply last_None in Hlast. rewrite Hlast in Hs. by apply elem_of_nil in Hs.
  - intros s1 s2 H1 H2 Hne.
    destruct (scan_partial_conflict d partial len l None (db, log) Hans)
      as (pre & it & post & Hsplit & Hpre & Hbad & Hrun).
    { done. }
    { intros Hag. apply Hne, Hag; unfold digests; by cbn [option_list app]. }
    exists pre, it, post. split; [done|]. split; [done|]. split; [done|].
    rewrite (partial_unfold d _ _ db log l Hl). unfold bind. by rewrite Hrun.
  - clear. induction l as [|it l IH]; [done|].
    rewrite partial_calls_cons, fmap_cons. unfold asked in *.
    rewrite omap_app, IH. unfold partial_calls_of.
    by destruct (partial_sha_to_index _ _ _) as [[i|]|e].
Qed.

Lemma partial_resolution_witness :
  partial_to_complete_sha (disk_with 10 []) [xaa; xaa; x10] 5
    (db_with [pack_a; pack_b; pack_c] 0, [])
  = (Ok sha_aaaa1,
     (db_with [pack_a; pack_b; pack_c] 0,
      [CallPartialShaToIndex "/r/pack-a.pack" [xaa; xaa; x10] 5;
       CallSha "/r/pack-a.pack" 0;
       CallPartialShaToIndex "/r/pack-b.pack" [xaa; xaa; x10] 5;
       CallPartialShaToIndex "/r/pack-c.pack" [xaa; xaa; x10] 5])).
Proof.
  apply (proj1 (proj2 (partial_resolution (disk_with 10 []) [xaa; xaa; x10] 5
                         (db_with [pack_a; pack_b; pack_c] 0) []
                         [pack_a; pack_b; pack_c] eq_refl
                         (example_packs_answer _ _)))
           sha_aaaa1).
  - apply list_elem_of_here.
  - intros s' Hs'. apply list_elem_of_singleton in Hs'. exact Hs'.
Defined.

(** ** Further runs on the example directory *)

(** A pack file added to the directory gives the registry one entry
    more, seeded with the size of the pack; the pack file removed, one
    entry less. *)
Example refresh_adds_then_removes_one :
  let w1 := snd (update_cache (disk_with 20 ["/r/pack-a.pack"; "/r/pack-b.pack"])
                   false (db_with [pack_a] 3, [])) in
  let w2 := snd (update_cache (disk_with 30 ["/r/pack-a.pack"]) false w1) in
  _entities (fst w1)
  = Some [pack_a; new_item (disk_with 20 []) "/r/pack-b.pack"]
  /\ hits (new_item (disk_with 20 []) "/r/pack-b.pack") = 50%Z
  /\ _entities (fst w2) = Some [pack_a]
  /\ _hit_count (fst w2) = 3%Z.
Proof. repeat split. Qed.

(** The first query on a new database loads the packs, then resolves. *)
Example first_query_loads :
  snd (snd (_pack_info (disk_with 20 ["/r/pack-a.pack"]) sha_bb
              (PackedDB_init "/r", [])))
  = [CallStat "/r"; CallGlob "/r/pack-*.pack"; CallPackEntity "/r/pack-a.pack";
     CallSort; CallSort; CallShaToIndex "/r/pack-a.pack" sha_bb].
Proof. reflexivity. Qed.

End PackProps.

(** * More on gitdb/db/pack.py: every outcome of a query *)
Module PackExtra.

Import Pack Examples PackProps PackRead.
Local Open Scope py_scope.

(** ** Where the scan ends *)

(** The index of the entity has the digest in a slot; it answers at all. *)
Definition has_digest (sha_ : list byte) (ent : PackEntity) : Prop :=
  exists slot, sha_to_index (index ent) sha_ = Ok (Some slot).

Definition responds (sha_ : list byte) (ent : PackEntity) : Prop :=
  forall e, sha_to_index (index ent) sha_ ≠ Raise e.

#[global] Instance has_digest_dec sha_ ent : Decision (has_digest sha_ ent).
Proof.
  unfold has_digest. destruct (sha_to_index (index ent) sha_) as [[s|]|e].
  - left. by exists s.
  - right. intros [s Hs]. discriminate.
  - right. intros [s Hs]. discriminate.
Defined.

(** The entry of [it] after a hit. *)
Definition hit (it : item) : item := Item (hits it + 1) (entity it) (lookup it).

(** The first entity that does not answer [None], if there is one. *)
Lemma first_answer (sha_ : list byte) (l : list item) :
  Forall (misses sha_) l
  \/ exists pre it post,
       l = pre ++ it :: post /\ Forall (misses sha_) pre /\ ~ misses sha_ it.
Proof.
  induction l as [|it l IH]; [left; constructor|].
  destruct (sha_to_index (index (entity it)) sha_) as [[s|]|e] eqn:Hit.
  - right. exists [], it, l. unfold misses. rewrite Hit.
    split; [done|]. split; [constructor|done].
  - destruct IH as [Hall|(pre & it' & post & -> & Hpre & Hit')].
    + left. by constructor.
    + right. exists (it :: pre), it', post.
      split; [done|]. split; [by constructor|done].
  - right. exists [], it, l. unfold misses. rewrite Hit.
    split; [done|]. split; [constructor|done].
Qed.

Lemma query_misses (d : Disk) (sha_ : list byte) (db : PackedDB)
    (log : list call) (l : list item) :
  _entities db = Some l ->
  Forall (misses sha_) (presorted db l) ->
  _pack_info d sha_ (db, log)
  = (Raise (BadObject sha_),
     (with_entities db (presorted db l),
      log ++ presort_calls db ++ lookup_calls sha_ (presorted db l))).
Proof.
  intros Hl Hmiss. rewrite (pack_info_presort d sha_ db log l Hl).
  rewrite <- (app_nil_r (presorted db l)) at 1.
  rewrite scan_misses by done. rewrite scan_exhausted.
  cbn [fst snd]. by rewrite <- !app_assoc.
Qed.

Lemma query_hits (d : Disk) (sha_ : list byte) (db : PackedDB)
    (log : list call) (l pre post : list item) (it : item) (slot : Z) :
  _entities db = Some l ->
  presorted db l = pre ++ it :: post ->
  Forall (misses sha_) pre ->
  sha_to_index (index (entity it)) sha_ = Ok (Some slot) ->
  _pack_info d sha_ (db, log)
  = (Ok (entity it, slot),
     (MkPackedDB (_root_path db) (Some (pre ++ hit it :: post))
        (_hit_count db + 1) (_st_mtime db),
      log ++ presort_calls db ++ lookup_calls sha_ (pre ++ [it]))).
Proof.
  intros Hl Hsplit Hpre Hit.
  rewrite (pack_info_presort d sha_ db log l Hl), Hsplit.
  rewrite scan_misses by done. cbn [fst snd].
  rewrite (scan_hit d sha_ it post (pre ++ it :: post) _ slot) by done.
  cbn [with_entities _root_path _hit_count _st_mtime].
  rewrite Nat.add_0_l. replace (length pre) with (length pre + 0) at 1 by lia.
  rewrite insert_app_r. cbn [insert list_insert].
  unfold lookup_calls. rewrite fmap_app. cbn [fmap list_fmap].
  by rewrite <- !app_assoc.
Qed.

Lemma query_fails (d : Disk) (sha_ : list byte) (db : PackedDB)
    (log : list call) (l pre post : list item) (it : item) (e : exn) :
  _entities db = Some l ->
  presorted db l = pre ++ it :: post ->
  Forall (misses sha_) pre ->
  sha_to_index (index (entity it)) sha_ = Raise e ->
  _pack_info d sha_ (db, log)
  = (Raise e,
     (with_entities db (presorted db l),
      log ++ presort_calls db ++ lookup_calls sha_ (pre ++ [it]))).
Proof.
  intros Hl Hsplit Hpre Hit.
  rewrite (pack_info_presort d sha_ db log l Hl). rewrite Hsplit at 1.
  rewrite scan_misses by done. cbn [fst snd].
  rewrite (scan_raises d sha_ it post _ e) by done. cbn [fst snd].
  unfold lookup_calls. rewrite fmap_app. cbn [fmap list_fmap].
  by rewrite <- !app_assoc.
Qed.

(** What one query leaves behind, whatever its outcome: the registry it
    scanned with at most one entry counted up, the hit counter moved by
    [count], and the calls it made on a prefix of the registry. *)
Inductive query_run (sha_ : list byte) (db : PackedDB) (l : list item)
  : outcome (PackEntity * Z) -> list item -> Z -> list item -> Prop :=
  | run_miss :
      Forall (misses sha_) (presorted db l) ->
      query_run sha_ db l (Raise (BadObject sha_)) (presorted db l) 0
        (presorted db l)
  | run_hit pre it post slot :
      presorted db l = pre ++ it :: post ->
      Forall (misses sha_) pre ->
      sha_to_index (index (entity it)) sha_ = Ok (Some slot) ->
      query_run sha_ db l (Ok (entity it, slot)) (pre ++ hit it :: post) 1
        (pre ++ [it])
  | run_error pre it post e :
      presorted db l = pre ++ it :: post ->
      Forall (misses sha_) pre ->
      sha_to_index (index (entity it)) sha_ = Raise e ->
      query_run sha_ db l (Raise e) (presorted db l) 0 (pre ++ [it]).

Lemma query_cases (d : Disk) (sha_ : list byte) (db : PackedDB)
    (log : list call) (l : list item) :
  _entities db = Some l ->
  exists r l' count examined,
    query_run sha_ db l r l' count examined
    /\ _pack_info d sha_ (db, log)
       = (r, (MkPackedDB (_root_path db) (Some l') (_hit_count db + count)
                (_st_mtime db),
              log ++ presort_calls db ++ lookup_calls sha_ examined)).
Proof.
  intros Hl.
  destruct (first_answer sha_ (presorted db l))
    as [Hmiss|(pre & it & post & Hsplit & Hpre & Hit)].
  - exists (Raise (BadObject sha_)), (presorted db l), 0%Z, (presorted db l).
    split; [by constructor|].
    rewrite (query_misses d sha_ db log l) by done.
    unfold with_entities. by rewrite Z.add_0_r.
  - unfold misses in Hit.
    destruct (sha_to_index (index (entity it)) sha_) as [[slot|]|e] eqn:Hans;
      [| done |].
    + exists (Ok (entity it, slot)), (pre ++ hit it :: post), 1%Z, (pre ++ [it]).
      split; [by econstructor|].
      by rewrite (query_hits d sha_ db log l pre post it slot).
    + exists (Raise e), (presorted db l), 0%Z, (pre ++ [it]).
      split; [by econstructor|].
      rewrite (query_fails d sha_ db log l pre post it e) by done.
      unfold with_entities. by rewrite Z.add_0_r.
Qed.

(** ** What a query changes *)

Definition total_hits (l : list item) : Z :=
  foldr (fun it s => (hits it + s)%Z) 0%Z l.

Definition touches_disk (c : call) : bool :=
  match c with
  | CallStat _ | CallGlob _ | CallPackEntity _ => true
  | _ => false
  end.

Definition succeeded {A} (r : outcome A) : bool :=
  match r with Ok _ => true | Raise _ => false end.

Lemma total_hits_app (l1 l2 : list item) :
  total_hits (l1 ++ l2) = (total_hits l1 + total_hits l2)%Z.
Proof. induction l1 as [|x l1 IH]; simpl; lia. Qed.

Lemma total_hits_perm (l1 l2 : list item) :
  l1 ≡ₚ l2 -> total_hits l1 = total_hits l2.
Proof. induction 1; simpl; lia. Qed.

Lemma presorted_perm (db : PackedDB) (l : list item) : presorted db l ≡ₚ l.
Proof. unfold presorted. destruct (_ =? _)%Z; [apply sort_desc_perm|done]. Qed.

Lemma lookup_calls_quiet (sha_ : list byte) (l : list item) :
  Forall (fun c => touches_disk c = false) (lookup_calls sha_ l).
Proof. unfold lookup_calls. apply Forall_fmap, Forall_true. done. Qed.

Lemma presort_calls_quiet (db : PackedDB) :
  Forall (fun c => touches_disk c = false) (presort_calls db).
Proof. unfold presort_calls. destruct (_ =? _)%Z; repeat constructor. Qed.

Lemma query_run_registry sha_ db l r l' count examined :
  query_run sha_ db l r l' count examined ->
  entity <$> l' ≡ₚ entity <$> l
  /\ total_hits l' = (total_hits l + count)%Z
  /\ count = (if succeeded r then 1 else 0)%Z.
Proof.
  intros [Hmiss|pre it post slot Hsplit Hpre Hit|pre it post e Hsplit Hpre Hit].
  - split; [by rewrite presorted_perm|].
    split; [|done]. rewrite (total_hits_perm _ _ (presorted_perm db l)). lia.
  - split; [|split; [|done]].
    + rewrite <- (presorted_perm db l), Hsplit.
      rewrite !fmap_app, !fmap_cons. reflexivity.
    + rewrite <- (total_hits_perm _ _ (presorted_perm db l)), Hsplit.
      rewrite !total_hits_app. simpl. lia.
  - split; [by rewrite presorted_perm|].
    split; [|done]. rewrite (total_hits_perm _ _ (presorted_perm db l)). lia.
Qed.

Lemma query_run_examined sha_ db l r l' count examined :
  query_run sha_ db l r l' count examined ->
  exists n, examined = take n (presorted db l).
Proof.
  intros [Hmiss|pre it post slot Hsplit Hpre Hit|pre it post e Hsplit Hpre Hit].
  - exists (length (presorted db l)). by rewrite firstn_all.
  - exists (S (length pre)). rewrite Hsplit.
    replace (pre ++ it :: post) with ((pre ++ [it]) ++ post)
      by (by rewrite <- app_assoc).
    rewrite take_app_length'; [done|]. rewrite length_app. simpl. lia.
  - exists (S (length pre)). rewrite Hsplit.
    replace (pre ++ it :: post) with ((pre ++ [it]) ++ post)
      by (by rewrite <- app_assoc).
    rewrite take_app_length'; [done|]. rewrite length_app. simpl. lia.
Qed.

Lemma query_run_sound sha_ db l r l' count examined ent slot :
  query_run sha_ db l r l' count examined ->
  r = Ok (ent, slot) ->
  ent ∈ entity <$> l /\ sha_to_index (index ent) sha_ = Ok (Some slot).
Proof.
  intros [Hmiss|pre it post slot' Hsplit Hpre Hit|pre it post e Hsplit Hpre Hit] Hr;
    [done| |done].
  injection Hr as <- <-. split; [|done].
  rewrite <- (presorted_perm db l), Hsplit.
  apply list_elem_of_fmap_2, elem_of_app. right. by left.
Qed.

Lemma has_object_state (d : Disk) (sha_ : list byte) (w : world) :
  snd (has_object d sha_ w) = snd (_pack_info d sha_ w).
Proof.
  unfold has_object, try_except, bind, ret.
  destruct (_pack_info d sha_ w) as [[r|e] w']; [reflexivity|].
  cbn [fst snd]. destruct (is_BadObject e); reflexivity.
Qed.

Lemma has_object_result (d : Disk) (sha_ : list byte) (w : world) :
  fst (has_object d sha_ w)
  = match fst (_pack_info d sha_ w) with
    | Ok _ => Ok true
    | Raise e => if is_BadObject e then Ok false else Raise e
    end.
Proof.
  unfold has_object, try_except, bind, ret.
  destruct (_pack_info d sha_ w) as [[r|e] w']; [reflexivity|].
  cbn [fst snd]. destruct (is_BadObject e); reflexivity.
Qed.

(** X1: whatever the outcome of a query on a database that has loaded
    its packs (found, not found, or an index that raised), the registry
    afterwards holds the same pack entities as before, only their order
    and one hit count may have changed; root path and modification time
    are untouched; the hit counter went up by one exactly when the query
    returned; and the counter and the sum of the entries' hit counts
    moved by the same amount. *)
Theorem query_keeps_registry (d : Disk) (sha_ : list byte) (db : PackedDB)
    (log : list call) (l : list item) :
  _entities db = Some l ->
  exists l',
    _entities (fst (snd (_pack_info d sha_ (db, log)))) = Some l'
    /\ entity <$> l' ≡ₚ entity <$> l
    /\ _root_path (fst (snd (_pack_info d sha_ (db, log)))) = _root_path db
    /\ _st_mtime (fst (snd (_pack_info d sha_ (db, log)))) = _st_mtime db
    /\ _hit_count (fst (snd (_pack_info d sha_ (db, log))))
       = (_hit_count db
          + (if succeeded (fst (_pack_info d sha_ (db, log))) then 1 else 0))%Z
    /\ (_hit_count (fst (snd (_pack_info d sha_ (db, log)))) - total_hits l'
        = _hit_count db - total_hits l)%Z.
Proof.
  intros Hl.
  destruct (query_cases d sha_ db log l Hl) as (r & l' & count & ex & Hrun & ->).
  destruct (query_run_registry _ _ _ _ _ _ _ Hrun) as (Hperm & Htot & Hcount).
  exists l'. cbn [fst snd _entities _root_path _st_mtime _hit_count].
  repeat split; try done; [by rewrite Hcount | lia].
Qed.

Lemma query_keeps_registry_witness :
  exists l',
    _entities (fst (snd (_pack_info (disk_with 10 []) sha_aaaa2
                           (db_with [pack_c; pack_a; pack_b] 500, [])))) = Some l'
    /\ entity <$> l' ≡ₚ entity <$> [pack_c; pack_a; pack_b]
    /\ _root_path (fst (snd (_pack_info (disk_with 10 []) sha_aaaa2
                               (db_with [pack_c; pack_a; pack_b] 500, []))))
       = _root_path (db_with [pack_c; pack_a; pack_b] 500)
    /\ _st_mtime (fst (snd (_pack_info (disk_with 10 []) sha_aaaa2
                              (db_with [pack_c; pack_a; pack_b] 500, []))))
       = _st_mtime (db_with [pack_c; pack_a; pack_b] 500)
    /\ _hit_count (fst (snd (_pack_info (disk_with 10 []) sha_aaaa2
                               (db_with [pack_c; pack_a; pack_b] 500, []))))
       = (_hit_count (db_with [pack_c; pack_a; pack_b] 500)
          + (if succeeded (fst (_pack_info (disk_with 10 []) sha_aaaa2
                                  (db_with [pack_c; pack_a; pack_b] 500, [])))
             then 1 else 0))%Z
    /\ (_hit_count (fst (snd (_pack_info (disk_with 10 []) sha_aaaa2
                                (db_with [pack_c; pack_a; pack_b] 500, []))))
        - total_hits l'
        = _hit_count (db_with [pack_c; pack_a; pack_b] 500)
          - total_hits [pack_c; pack_a; pack_b])%Z.
Proof.
  exact (query_keeps_registry (disk_with 10 []) sha_aaaa2
           (db_with [pack_c; pack_a; pack_b] 500) []
           [pack_c; pack_a; pack_b] eq_refl).
Defined.

(** X2: a query on a database that has loaded its packs never goes to
    the directory, whatever its outcome: besides the sort it may start
    with, the only calls it makes are [sha_to_index] on the entities of a
    prefix of the registry, one each and in registry order; it does not
    stat the directory, list it or open a pack.  [has_object] makes the
    same calls and leaves the same state as [_pack_info]. *)
Theorem query_never_reads_directory (d : Disk) (sha_ : list byte)
    (db : PackedDB) (log : list call) (l : list item) :
  _entities db = Some l ->
  (exists n,
     snd (snd (_pack_info d sha_ (db, log)))
     = log ++ presort_calls db ++ lookup_calls sha_ (take n (presorted db l))
     /\ Forall (fun c => touches_disk c = false)
          (presort_calls db ++ lookup_calls sha_ (take n (presorted db l))))
  /\ snd (has_object d sha_ (db, log)) = snd (_pack_info d sha_ (db, log)).
Proof.
  intros Hl. split; [|apply has_object_state].
  destruct (query_cases d sha_ db log l Hl) as (r & l' & count & ex & Hrun & ->).
  destruct (query_run_examined _ _ _ _ _ _ _ Hrun) as [n ->].
  exists n. split; [done|].
  apply Forall_app. split; [apply presort_calls_quiet|apply lookup_calls_quiet].
Qed.

Lemma query_never_reads_directory_witness :
  (exists n,
     snd (snd (_pack_info (disk_with 10 []) sha_aaaa1
                 (db_with [pack_c; pack_broken; pack_a] 1, [])))
     = [] ++ presort_calls (db_with [pack_c; pack_broken; pack_a] 1)
          ++ lookup_calls sha_aaaa1
               (take n (presorted (db_with [pack_c; pack_broken; pack_a] 1)
                          [pack_c; pack_broken; pack_a]))
     /\ Forall (fun c => touches_disk c = false)
          (presort_calls (db_with [pack_c; pack_broken; pack_a] 1)
           ++ lookup_calls sha_aaaa1
                (take n (presorted (db_with [pack_c; pack_broken; pack_a] 1)
                           [pack_c; pack_broken; pack_a]))))
  /\ snd (has_object (disk_with 10 []) sha_aaaa1
            (db_with [pack_c; pack_broken; pack_a] 1, []))
     = snd (_pack_info (disk_with 10 []) sha_aaaa1
              (db_with [pack_c; pack_broken; pack_a] 1, [])).
Proof.
  exact (query_never_reads_directory (disk_with 10 []) sha_aaaa1
           (db_with [pack_c; pack_broken; pack_a] 1) []
           [pack_c; pack_broken; pack_a] eq_refl).
Defined.

Section ReadResults.

Context {OInfo OStream : Type}.
Variable info_at_index : PackEntity -> Z -> outcome OInfo.
Variable stream_at_index : PackEntity -> Z -> outcome OStream.

Lemma info_run (d : Disk) (sha_ : list byte) (w : world) :
  info d info_at_index sha_ w
  = match _pack_info d sha_ w with
    | (Ok r, w') => (info_at_index (fst r) (snd r), w')
    | (Raise e, w') => (Raise e, w')
    end.
Proof.
  unfold info, bind, returns. by destruct (_pack_info d sha_ w) as [[r|e] w'].
Qed.

Lemma stream_run (d : Disk) (sha_ : list byte) (w : world) :
  stream d stream_at_index sha_ w
  = match _pack_info d sha_ w with
    | (Ok r, w') => (stream_at_index (fst r) (snd r), w')
    | (Raise e, w') => (Raise e, w')
    end.
Proof.
  unfold stream, bind, returns. by destruct (_pack_info d sha_ w) as [[r|e] w'].
Qed.

(** X3: what a resolution returns is right.  On a database that has
    loaded its packs, the entity and slot returned by [_pack_info] are a
    registered entity and the slot its index gives for the digest; what
    [info] and [stream] return is what [info_at_index] and
    [stream_at_index] return for such an entity and slot. *)
Theorem query_result_is_sound (d : Disk) (sha_ : list byte) (db : PackedDB)
    (log : list call) (l : list item) :
  _entities db = Some l ->
  (forall ent slot,
     fst (_pack_info d sha_ (db, log)) = Ok (ent, slot) ->
     ent ∈ entity <$> l /\ sha_to_index (index ent) sha_ = Ok (Some slot))
  /\ (forall r,
        fst (info d info_at_index sha_ (db, log)) = Ok r ->
        exists ent slot,
          ent ∈ entity <$> l /\ sha_to_index (index ent) sha_ = Ok (Some slot)
          /\ info_at_index ent slot = Ok r)
  /\ (forall r,
        fst (stream d stream_at_index sha_ (db, log)) = Ok r ->
        exists ent slot,
          ent ∈ entity <$> l /\ sha_to_index (index ent) sha_ = Ok (Some slot)
          /\ stream_at_index ent slot = Ok r).
Proof.
  intros Hl.
  destruct (query_cases d sha_ db log l Hl) as (r & l' & count & ex & Hrun & Heq).
  split; [|split].
  - intros ent slot. rewrite Heq. cbn [fst]. intros ->.
    by apply (query_run_sound _ _ _ _ _ _ _ _ _ Hrun).
  - intros res. rewrite info_run, Heq.
    destruct r as [[ent slot]|e]; [|done]. cbn [fst snd]. intros Hres.
    exists ent, slot.
    destruct (query_run_sound _ _ _ _ _ _ _ ent slot Hrun eq_refl). done.
  - intros res. rewrite stream_run, Heq.
    destruct r as [[ent slot]|e]; [|done]. cbn [fst snd]. intros Hres.
    exists ent, slot.
    destruct (query_run_sound _ _ _ _ _ _ _ ent slot Hrun eq_refl). done.
Qed.

(** When every index answers, the outcome of a query is decided by
    whether some registered entity has the digest. *)
Lemma query_answering (d : Disk) (sha_ : list byte) (db : PackedDB)
    (log : list call) (l : list item) :
  _entities db = Some l ->
  Forall (responds sha_) (entity <$> l) ->
  (~ Exists (has_digest sha_) (entity <$> l)
   /\ fst (_pack_info d sha_ (db, log)) = Raise (BadObject sha_))
  \/ (Exists (has_digest sha_) (entity <$> l)
      /\ exists ent slot,
           ent ∈ entity <$> l /\ sha_to_index (index ent) sha_ = Ok (Some slot)
           /\ fst (_pack_info d sha_ (db, log)) = Ok (ent, slot)).
Proof.
  intros Hl Hresp.
  destruct (query_cases d sha_ db log l Hl) as (r & l' & count & ex & Hrun & ->).
  cbn [fst].
  destruct Hrun as [Hmiss|pre it post slot Hsplit Hpre Hit|pre it post e Hsplit Hpre Hit].
  - left. split; [|done].
    rewrite Exists_exists. intros (ent & Hent & slot & Hslot).
    apply list_elem_of_fmap in Hent as (it & -> & Hit).
    rewrite <- (presorted_perm db l) in Hit.
    rewrite Forall_forall in Hmiss. specialize (Hmiss it Hit).
    unfold misses in Hmiss. congruence.
  - right.
    assert (entity it ∈ entity <$> l) as Hin.
    { rewrite <- (presorted_perm db l), Hsplit.
      apply list_elem_of_fmap_2, elem_of_app. right. by left. }
    split.
    + apply Exists_exists. exists (entity it). split; [done|]. by exists slot.
    + by exists (entity it), slot.
  - exfalso.
    assert (entity it ∈ entity <$> l) as Hin.
    { rewrite <- (presorted_perm db l), Hsplit.
      apply list_elem_of_fmap_2, elem_of_app. right. by left. }
    rewrite Forall_forall in Hresp. by apply (Hresp _ Hin e).
Qed.

Lemma has_object_decided (d : Disk) (sha_ : list byte) (db : PackedDB)
    (log : list call) (l : list item) :
  _entities db = Some l ->
  Forall (responds sha_) (entity <$> l) ->
  fst (has_object d sha_ (db, log))
  = Ok (bool_decide (Exists (has_digest sha_) (entity <$> l))).
Proof.
  intros Hl Hresp. rewrite has_object_result.
  destruct (query_answering d sha_ db log l Hl Hresp) as [[Hno ->]|[Hyes Hrun]].
  - cbn [is_BadObject]. by rewrite bool_decide_false.
  - destruct Hrun as (ent & slot & _ & _ & ->). by rewrite bool_decide_true.
Qed.

(** X4: the answer of [has_object] does not depend on the order of the
    registry nor on the hit counts.  On a database that has loaded its
    packs and whose indexes all answer the lookup, [has_object] returns
    true exactly when the index of some registered entity has the
    digest; so two databases that register the same entities, in any
    order and with any counters, give the same answer. *)
Theorem has_object_any_order (d : Disk) (sha_ : list byte) (db : PackedDB)
    (log : list call) (l : list item) :
  _entities db = Some l ->
  Forall (responds sha_) (entity <$> l) ->
  fst (has_object d sha_ (db, log))
  = Ok (bool_decide (Exists (has_digest sha_) (entity <$> l)))
  /\ forall (d' : Disk) (db' : PackedDB) (log' : list call) (l' : list item),
       _entities db' = Some l' ->
       entity <$> l' ≡ₚ entity <$> l ->
       fst (has_object d' sha_ (db', log')) = fst (has_object d sha_ (db, log)).
Proof.
  intros Hl Hresp. split; [by apply has_object_decided|].
  intros d' db' log' l' Hl' Hperm.
  rewrite (has_object_decided d' sha_ db' log' l' Hl') by (by rewrite Hperm).
  rewrite (has_object_decided d sha_ db log l Hl Hresp).
  f_equal. apply bool_decide_ext. by rewrite Hperm.
Qed.

Lemma has_object_any_order_witness :
  fst (has_object (disk_with 10 []) sha_bb (db_with [pack_a; pack_c] 7, []))
  = fst (has_object (disk_with 10 []) sha_bb (db_with [pack_c; pack_a] 500, [])).
Proof.
  apply (proj2 (has_object_any_order (disk_with 10 []) sha_bb
                  (db_with [pack_c; pack_a] 500) [] [pack_c; pack_a] eq_refl
                  ltac:(repeat constructor; intros e; discriminate))
           (disk_with 10 []) (db_with [pack_a; pack_c] 7) [] [pack_a; pack_c]
           eq_refl).
  apply perm_swap.
Defined.

(** X5: [has_object] followed by [info] or [stream].  On a database
    that has loaded its packs and whose indexes all answer the lookup:
    when [has_object] returned true, an [info] or [stream] for the same
    digest right after it does not raise [BadObject]; it returns what
    [info_at_index] or [stream_at_index] gives for a registered entity
    that has the digest (the registry may have been sorted in between,
    so it need not be the entity [has_object] found). *)
Theorem has_object_then_read (d d' : Disk) (sha_ : list byte) (db : PackedDB)
    (log : list call) (l : list item) :
  _entities db = Some l ->
  Forall (responds sha_) (entity <$> l) ->
  fst (has_object d sha_ (db, log)) = Ok true ->
  (exists ent slot,
     ent ∈ entity <$> l /\ sha_to_index (index ent) sha_ = Ok (Some slot)
     /\ fst (info d' info_at_index sha_ (snd (has_object d sha_ (db, log))))
        = info_at_index ent slot)
  /\ (exists ent slot,
        ent ∈ entity <$> l /\ sha_to_index (index ent) sha_ = Ok (Some slot)
        /\ fst (stream d' stream_at_index sha_ (snd (has_object d sha_ (db, log))))
           = stream_at_index ent slot).
Proof.
  intros Hl Hresp Htrue.
  rewrite (has_object_decided d sha_ db log l Hl Hresp) in Htrue. injection Htrue as Hex%bool_decide_eq_true.
  rewrite has_object_state.
  destruct (query_cases d sha_ db log l Hl) as (r & l1 & count & ex & Hrun & ->).
  destruct (query_run_registry _ _ _ _ _ _ _ Hrun) as (Hperm & _ & _).
  cbn [snd].
  set (db1 := MkPackedDB (_root_path db) (Some l1) (_hit_count db + count)
                (_st_mtime db)).
  set (log1 := log ++ presort_calls db ++ lookup_calls sha_ ex).
  destruct (query_answering d' sha_ db1 log1 l1 eq_refl) as [[Hno _]|[_ Hyes]].
  { by rewrite Hperm. }
  { exfalso. apply Hno. by rewrite Hperm. }
  destruct Hyes as (ent & slot & Hin & Hslot & Hq).
  rewrite Hperm in Hin.
  rewrite info_run, stream_run.
  destruct (_pack_info d' sha_ (db1, log1)) as [[res|e] w1]; [|done].
  cbn [fst] in Hq. injection Hq as ->.
  split; by exists ent, slot.
Qed.

End ReadResults.

Lemma query_result_is_sound_witness :
  entity pack_b ∈ entity <$> [pack_c; pack_a; pack_b]
  /\ sha_to_index (index (entity pack_b)) sha_aaaa2 = Ok (Some 0%Z).
Proof.
  exact (proj1 (query_result_is_sound (fun _ _ => Ok tt) (fun _ _ => Ok tt)
                  (disk_with 10 []) sha_aaaa2
                  (db_with [pack_c; pack_a; pack_b] 500) []
                  [pack_c; pack_a; pack_b] eq_refl)
           (entity pack_b) 0%Z eq_refl).
Defined.

Lemma has_object_then_read_witness :
  (exists ent slot,
     ent ∈ entity <$> [pack_c; pack_a]
     /\ sha_to_index (index ent) sha_bb = Ok (Some slot)
     /\ fst (info (disk_with 10 []) (fun ent slot => Ok (pack_path ent, slot))
               sha_bb
               (snd (has_object (disk_with 10 []) sha_bb
                       (db_with [pack_c; pack_a] 499, []))))
        = Ok (pack_path ent, slot))
  /\ (exists ent slot,
        ent ∈ entity <$> [pack_c; pack_a]
        /\ sha_to_index (index ent) sha_bb = Ok (Some slot)
        /\ fst (stream (disk_with 10 []) (fun ent slot => Ok slot) sha_bb
                  (snd (has_object (disk_with 10 []) sha_bb
                          (db_with [pack_c; pack_a] 499, []))))
           = Ok slot).
Proof.
  exact (has_object_then_read (fun ent slot => Ok (pack_path ent, slot))
           (fun ent slot => Ok slot) (disk_with 10 []) (disk_with 10 [])
           sha_bb (db_with [pack_c; pack_a] 499) [] [pack_c; pack_a] eq_refl
           ltac:(repeat constructor; intros e; discriminate) eq_refl).
Defined.

(** ** A first use that cannot read the directory *)

Lemma set_cache_stat_fails (d : Disk) (db : PackedDB) (log : list call) (e : exn) :
  st_mtime d = Raise e ->
  _set_cache_ d (db, log)
  = (Raise e, (with_entities db [], log ++ [CallStat (_root_path db)])).
Proof.
  intros Hstat. unfold _set_cache_. unfold bind at 1, set_entities, modify.
  cbn [fst snd]. unfold bind at 1.
  by rewrite (update_cache_stat_fails d _ true _ _ e Hstat).
Qed.

Lemma entities_load_fails (d : Disk) (db : PackedDB) (log : list call) (e : exn) :
  st_mtime d = Raise e -> _entities db = None ->
  entities_ d (db, log)
  = (Raise e, (with_entities db [], log ++ [CallStat (_root_path db)])).
Proof.
  intros Hstat Hnone. unfold entities_, entities_attr.
  unfold bind at 1, self_. cbn [fst snd]. rewrite Hnone.
  unfold bind at 1. by rewrite (set_cache_stat_fails d db log e Hstat).
Qed.

Lemma pack_info_load_fails (d : Disk) (sha_ : list byte) (db : PackedDB)
    (log : list call) (e : exn) :
  st_mtime d = Raise e -> _entities db = None ->
  _pack_info d sha_ (db, log)
  = (Raise e, (with_entities db [], log ++ [CallStat (_root_path db)])).
Proof.
  intros Hstat Hnone. rewrite pack_info_unfold. cbn [fst snd].
  destruct (_hit_count db mod _sort_interval =? 0)%Z.
  - unfold bind at 1, _sort_entities, _sort_entities_with.
    fold (entities_ d). unfold bind at 1.
    by rewrite (entities_load_fails d db log e Hstat Hnone).
  - unfold bind at 1, ret. unfold bind at 1.
    by rewrite (entities_load_fails d db log e Hstat Hnone).
Qed.

Lemma partial_load_fails (d : Disk) (partial : list byte) (len : Z)
    (db : PackedDB) (log : list call) (e : exn) :
  st_mtime d = Raise e -> _entities db = None ->
  partial_to_complete_sha d partial len (db, log)
  = (Raise e, (with_entities db [], log ++ [CallStat (_root_path db)])).
Proof.
  intros Hstat Hnone. unfold partial_to_complete_sha. unfold bind at 1.
  by rewrite (entities_load_fails d db log e Hstat Hnone).
Qed.

Lemma query_empty (d : Disk) (sha_ : list byte) (db : PackedDB) (log : list call) :
  _pack_info d sha_ (with_entities db [], log)
  = (Raise (BadObject sha_), (with_entities db [], log ++ presort_calls db)).
Proof.
  rewrite (query_misses d sha_ (with_entities db []) log []); [|done|].
  - unfold presorted, presort_calls, lookup_calls, with_entities.
    cbn [_hit_count _root_path _st_mtime].
    destruct (_ =? _)%Z; cbn [fmap list_fmap sort_desc foldr];
      by rewrite ?app_nil_r.
  - unfold presorted. destruct (_ =? _)%Z; constructor.
Qed.

(** X6: a first use that cannot read the directory leaves the database
    empty, not unloaded.  When [os.stat] of the pack directory raises
    during the lazy load that the first query triggers, the exception
    reaches the caller, after one [stat] call, and [_entities] is left as
    the empty list that [_set_cache_] assigned before it called
    [update_cache].  No later query loads again: against any directory,
    readable or not, [_pack_info] raises [BadObject], [has_object]
    answers false and [partial_to_complete_sha] raises [BadObject],
    without a call to the directory. *)
Theorem failed_load_leaves_empty_registry (d : Disk) (db : PackedDB)
    (log : list call) (e : exn) :
  st_mtime d = Raise e -> _entities db = None ->
  (forall sha_,
     _pack_info d sha_ (db, log)
     = (Raise e, (with_entities db [], log ++ [CallStat (_root_path db)])))
  /\ (forall partial len,
        partial_to_complete_sha d partial len (db, log)
        = (Raise e, (with_entities db [], log ++ [CallStat (_root_path db)])))
  /\ (forall (d' : Disk) (sha_ : list byte) (log' : list call),
        _pack_info d' sha_ (with_entities db [], log')
        = (Raise (BadObject sha_), (with_entities db [], log' ++ presort_calls db))
        /\ has_object d' sha_ (with_entities db [], log')
           = (Ok false, (with_entities db [], log' ++ presort_calls db)))
  /\ (forall (d' : Disk) (partial : list byte) (len : Z) (log' : list call),
        partial_to_complete_sha d' partial len (with_entities db [], log')
        = (Raise (BadObject partial), (with_entities db [], log'))).
Proof.
  intros Hstat Hnone. split; [|split; [|split]].
  - intros sha_. by apply pack_info_load_fails.
  - intros partial len. by apply partial_load_fails.
  - intros d' sha_ log'. split; [apply query_empty|].
    unfold has_object, try_except, bind. by rewrite query_empty.
  - intros d' partial len log'.
    rewrite (partial_unfold d' partial len _ log' []) by done.
    unfold bind. cbn [scan_partial ret]. done.
Qed.

(** A directory that cannot be read. *)
Definition no_disk : Disk :=
  MkDisk (Raise (OSError "ENOENT")) (fun _ => []) (fun _ => 0%Z)
    (fun _ => index_of []).

Lemma failed_load_leaves_empty_registry_witness :
  _pack_info no_disk sha_bb (PackedDB_init "/r", [])
  = (Raise (OSError "ENOENT"),
     (with_entities (PackedDB_init "/r") [], [] ++ [CallStat "/r"]))
  /\ has_object (disk_with 10 ["/r/pack-c.pack"]) sha_bb
       (with_entities (PackedDB_init "/r") [], [])
     = (Ok false,
        (with_entities (PackedDB_init "/r") [],
         [] ++ presort_calls (PackedDB_init "/r"))).
Proof.
  split.
  - exact (proj1 (failed_load_leaves_empty_registry no_disk (PackedDB_init "/r")
                    [] (OSError "ENOENT") eq_refl eq_refl) sha_bb).
  - exact (proj2 (proj1 (proj2 (proj2
             (failed_load_leaves_empty_registry no_disk (PackedDB_init "/r")
                [] (OSError "ENOENT") eq_refl eq_refl)))
             (disk_with 10 ["/r/pack-c.pack"]) sha_bb [])).
Defined.

(** ** Refreshing twice *)




(** ** The completion of a partial digest, in closed form *)

(** The outcome decided by the digests the entities report. *)
Definition completion (partial : list byte) (ds : list (list byte))
  : outcome (list byte) :=
  match ds with
  | [] => Raise (BadObject partial)
  | s :: rest =>
      if bool_decide (Forall (fun x => x = s) rest) then Ok s
      else Raise (AmbiguousObjectName partial)
  end.

(** An entry for an entity, to speak of the entity alone. *)
Definition as_item (ent : PackEntity) : item :=
  Item 0 ent (sha_to_index (index ent)).

Lemma omap_match_entities partial len (l : list item) :
  omap (match_of partial len) l
  = omap (fun ent => match_of partial len (as_item ent)) (entity <$> l).
Proof.
  induction l as [|it l IH]; [done|].
  rewrite fmap_cons. cbn [omap list_omap]. fold (omap (match_of partial len) l).
  fold (omap (fun ent => match_of partial len (as_item ent)) (entity <$> l)).
  rewrite IH. reflexivity.
Qed.

Lemma matches_perm partial len (l l' : list item) :
  entity <$> l' ≡ₚ entity <$> l ->
  omap (match_of partial len) l' ≡ₚ omap (match_of partial len) l.
Proof. intros Hperm. rewrite !omap_match_entities. by rewrite Hperm. Qed.

Lemma answers_perm partial len (l l' : list item) :
  entity <$> l' ≡ₚ entity <$> l ->
  Forall (answers partial len) l -> Forall (answers partial len) l'.
Proof.
  intros Hperm Hans. rewrite Forall_forall in *. intros it Hit.
  assert (entity it ∈ entity <$> l) as Hin
    by (rewrite <- Hperm; by apply list_elem_of_fmap_2).
  apply list_elem_of_fmap in Hin as (it0 & Heq & Hin0).
  specialize (Hans it0 Hin0). unfold answers in *. by rewrite Heq.
Qed.

Lemma completion_perm partial (ds ds' : list (list byte)) :
  ds' ≡ₚ ds -> completion partial ds' = completion partial ds.
Proof.
  intros Hperm. destruct ds as [|s rest], ds' as [|s' rest'].
  - done.
  - by apply Permutation_nil_r in Hperm.
  - by apply Permutation_nil_l in Hperm.
  - unfold completion.
    destruct (decide (Forall (fun x => x = s) (s :: rest))) as [Hall|Hnot].
    + assert (Forall (fun x => x = s) (s' :: rest')) as Hall'
        by (by rewrite Hperm).
      apply Forall_cons in Hall as [_ Hall].
      apply Forall_cons in Hall' as [-> Hall'].
      by rewrite !bool_decide_true.
    + assert (~ Forall (fun x => x = s') (s' :: rest')) as Hnot'.
      { intros Hall'. apply Hnot. rewrite <- Hperm.
        assert (s = s') as <-; [|done].
        assert (s ∈ s' :: rest') as Hin by (rewrite Hperm; by left).
        rewrite Forall_forall in Hall'. by apply Hall'. }
      rewrite !bool_decide_false; [done| |].
      * intros H. apply Hnot. by constructor.
      * intros H. apply Hnot'. by constructor.
Qed.

Lemma partial_outcome (d : Disk) (partial : list byte) (len : Z)
    (db : PackedDB) (log : list call) (l : list item) :
  _entities db = Some l ->
  Forall (answers partial len) l ->
  fst (partial_to_complete_sha d partial len (db, log))
  = completion partial (omap (match_of partial len) l).
Proof.
  intros Hl Hans. rewrite (partial_unfold d _ _ db log l Hl). unfold bind.
  destruct (omap (match_of partial len) l) as [|s rest] eqn:Hds.
  - rewrite (scan_partial_agree d) by
      (try done; intros s1 s2; unfold digests; rewrite Hds;
       cbn [option_list app]; intros H1; list_mem).
    by rewrite Hds.
  - assert (s ≠ []) as Hne.
    { apply (matched_nonempty partial len l s Hans). rewrite Hds. by left. }
    unfold completion.
    destruct (decide (Forall (fun x => x = s) rest)) as [Hall|Hnot].
    + rewrite bool_decide_true by done.
      assert (forall x, x ∈ s :: rest -> x = s) as Hsame.
      { intros x [->|Hx]%elem_of_cons; [done|].
        rewrite Forall_forall in Hall. by apply Hall. }
      rewrite (scan_partial_agree d); [|done|done|]; first last.
      { intros s1 s2. unfold digests. rewrite Hds. cbn [option_list app].
        intros H1 H2. by rewrite (Hsame s1), (Hsame s2). }
      rewrite Hds.
      destruct (last (s :: rest)) as [x|] eqn:Hlast.
      * assert (x = s) as ->.
        { apply Hsame. apply last_Some in Hlast as [l0 ->].
          apply elem_of_app. right. by left. }
        by destruct s.
      * by apply last_None in Hlast.
    + rewrite bool_decide_false by done.
      destruct (scan_partial_conflict d partial len l None (db, log) Hans)
        as (pre & it & post & _ & _ & _ & ->); [done| |done].
      intros Hag. apply Hnot. apply Forall_forall. intros x Hx.
      apply Hag; unfold digests; rewrite Hds; cbn [option_list app];
        [by right|by left].
Qed.

(** X8: the completion of a partial digest does not depend on the order
    of the registry.  On a database that has loaded its packs and whose
    indexes all answer, the outcome of [partial_to_complete_sha] is
    decided by the digests the entities report: [BadObject] when there is
    none, the digest when all are the same, [AmbiguousObjectName]
    otherwise; so two databases that register the same entities, in any
    order and with any hit counts, give the same outcome. *)
Theorem partial_any_order (d : Disk) (partial : list byte) (len : Z)
    (db : PackedDB) (log : list call) (l : list item) :
  _entities db = Some l ->
  Forall (answers partial len) l ->
  fst (partial_to_complete_sha d partial len (db, log))
  = completion partial (omap (match_of partial len) l)
  /\ forall (d' : Disk) (db' : PackedDB) (log' : list call) (l' : list item),
       _entities db' = Some l' ->
       entity <$> l' ≡ₚ entity <$> l ->
       fst (partial_to_complete_sha d' partial len (db', log'))
       = fst (partial_to_complete_sha d partial len (db, log)).
Proof.
  intros Hl Hans. split; [by apply partial_outcome|].
  intros d' db' log' l' Hl' Hperm.
  rewrite (partial_outcome d' partial len db' log' l' Hl')
    by (by apply (answers_perm partial len l l')).
  rewrite (partial_outcome d partial len db log l Hl Hans).
  by apply completion_perm, matches_perm.
Qed.

Lemma partial_any_order_witness :
  fst (partial_to_complete_sha (disk_with 10 []) [xaa; xaa] 4
         (db_with [pack_c; pack_b; pack_a] 7, []))
  = fst (partial_to_complete_sha (disk_with 10 []) [xaa; xaa] 4
           (db_with [pack_a; pack_b; pack_c] 0, [])).
Proof.
  apply (proj2 (partial_any_order (disk_with 10 []) [xaa; xaa] 4
                  (db_with [pack_a; pack_b; pack_c] 0) []
                  [pack_a; pack_b; pack_c] eq_refl
                  (example_packs_answer [xaa; xaa] 4))
           (disk_with 10 []) (db_with [pack_c; pack_b; pack_a] 7) []
           [pack_c; pack_b; pack_a] eq_refl).
  apply Permutation_rev.
Defined.

(** ** Every state the methods can reach *)

(** The calls of the public interface that touch the instance, and a
    history of them, each against the directory as it was at that time.
    [info] and [stream] act on the instance as [_pack_info] does. *)
Inductive request : Type :=
  | Refresh (force : bool)
  | Query (sha_ : list byte)
  | Has (sha_ : list byte)
  | Complete (partial : list byte) (len : Z)
  | Entities
  | Size
  | ShaIter.

Definition serve (d : Disk) (r : request) (w : world) : world :=
  match r with
  | Refresh force => snd (update_cache d force w)
  | Query sha_ => snd (_pack_info d sha_ w)
  | Has sha_ => snd (has_object d sha_ w)
  | Complete partial len => snd (partial_to_complete_sha d partial len w)
  | Entities => snd (entities d w)
  | Size => snd (size d w)
  | ShaIter => snd (sha_iter d w)
  end.

Fixpoint serve_all (history : list (Disk * request)) (w : world) : world :=
  match history with
  | [] => w
  | (d, r) :: rest => serve_all rest (serve d r w)
  end.

(** No two registered packs have the same path. *)
Definition distinct_packs (db : PackedDB) : Prop :=
  NoDup (item_path <$> registered db).

Lemma paths_of_entities (l : list item) :
  item_path <$> l = pack_path <$> (entity <$> l).
Proof. by rewrite <- list_fmap_compose. Qed.

Lemma entities_keeps_distinct (d : Disk) (w : world) :
  distinct_packs (fst w) -> distinct_packs (fst (snd (entities_ d w))).
Proof.
  destruct w as [db log]. cbn [fst]. intros Hnd.
  destruct (_entities db) as [l|] eqn:Hl.
  - by rewrite (entities_loaded d db log l Hl).
  - destruct (st_mtime d) as [mtime|e] eqn:Hstat.
    + rewrite (entities_unloaded d db log mtime Hstat Hl). cbn [fst snd].
      unfold distinct_packs, loaded, registered. cbn [_entities default].
      apply reconciled_NoDup. constructor.
    + rewrite (entities_load_fails d db log e Hstat Hl). cbn [fst snd].
      unfold distinct_packs, registered. cbn. constructor.
Qed.

Lemma scan_partial_db (l : list item) :
  forall c partial len (w : world),
    fst (snd (scan_partial l c partial len w)) = fst w.
Proof.
  induction l as [|it l IH]; intros c partial len w; [done|].
  cbn [scan_partial]. unfold bind at 1, log_call, modify. cbn [fst snd].
  unfold bind at 1, returns.
  destruct (partial_sha_to_index _ _ _) as [[i|]|e]; [| by rewrite IH | done].
  unfold bind at 1, log_call, modify. cbn [fst snd]. unfold bind at 1.
  destruct (sha _ _) as [s|e]; [|done].
  destruct (_ && _); [done|]. by rewrite IH.
Qed.

Lemma yield_shas_db (ent : PackEntity) (slots : list Z) :
  forall w : world, fst (snd (yield_shas ent slots w)) = fst w.
Proof.
  induction slots as [|i slots IH]; intros w; [done|].
  cbn [yield_shas]. unfold bind at 1, log_call, modify. cbn [fst snd].
  unfold bind at 1, returns. destruct (sha _ _) as [s|e]; [|done].
  unfold bind at 1. specialize (IH (w.1, w.2 ++ [CallSha (pack_path ent) i])).
  destruct (yield_shas ent slots _) as [[more|e] w']; done.
Qed.

Lemma yield_entities_db (ents : list PackEntity) :
  forall w : world, fst (snd (yield_entities ents w)) = fst w.
Proof.
  induction ents as [|ent ents IH]; intros w; [done|].
  cbn [yield_entities]. unfold bind at 1.
  pose proof (yield_shas_db ent (seqZ 0 (index_size (index ent))) w) as Hs.
  destruct (yield_shas ent _ w) as [[shas|e] w1]; [|done].
  unfold bind at 1. specialize (IH w1).
  destruct (yield_entities ents w1) as [[more|e] w2];
    unfold ret; cbn [fst snd] in *; congruence.
Qed.

Lemma query_keeps_distinct (d : Disk) (sha_ : list byte) (w : world) :
  distinct_packs (fst w) -> distinct_packs (fst (snd (_pack_info d sha_ w))).
Proof.
  assert (forall db log l, _entities db = Some l -> distinct_packs db ->
            distinct_packs (fst (snd (_pack_info d sha_ (db, log))))) as Hloaded.
  { intros db log l Hl Hnd.
    destruct (query_cases d sha_ db log l Hl) as (r & l' & n & ex & Hrun & ->).
    destruct (query_run_registry _ _ _ _ _ _ _ Hrun) as (Hperm & _ & _).
    unfold distinct_packs, registered in *. rewrite Hl in Hnd.
    cbn [fst snd _entities default] in *.
    by rewrite paths_of_entities, Hperm, <- paths_of_entities. }
  destruct w as [db log]. cbn [fst]. intros Hnd.
  destruct (_entities db) as [l|] eqn:Hl; [by apply (Hloaded db log l)|].
  destruct (st_mtime d) as [mtime|e] eqn:Hstat.
  - rewrite (pack_info_unloaded d db log mtime sha_ Hstat Hl).
    apply (Hloaded _ _ (reconciled d db [])); [done|].
    unfold distinct_packs, loaded, registered. cbn [_entities default].
    apply reconciled_NoDup. constructor.
  - rewrite (pack_info_load_fails d sha_ db log e Hstat Hl). cbn [fst snd].
    unfold distinct_packs, registered. cbn. constructor.
Qed.

Lemma refresh_keeps_distinct (d : Disk) (force : bool) (db : PackedDB)
    (log : list call) :
  distinct_packs db ->
  distinct_packs (fst (snd (update_cache d force (db, log)))).
Proof.
  intros Hnd. destruct (st_mtime d) as [mtime|e] eqn:Hstat.
  - destruct force.
    + rewrite (update_cache_any_run d true db log mtime) by (done || by left).
      by apply reconciled_NoDup.
    + destruct (Z.ltb_spec (_st_mtime db) mtime) as [Hlt|Hle].
      * rewrite (update_cache_any_run d false db log mtime)
          by (done || by right).
        by apply reconciled_NoDup.
      * unfold update_cache.
        by rewrite (update_cache_gate d _ db log mtime Hstat Hle).
  - unfold update_cache.
    by rewrite (update_cache_stat_fails d _ force db log e Hstat).
Qed.

Lemma serve_keeps_distinct (d : Disk) (r : request) (w : world) :
  distinct_packs (fst w) -> distinct_packs (fst (serve d r w)).
Proof.
  intros Hnd. destruct r as [force|sha_|sha_|partial len| | |]; cbn [serve].
  - destruct w as [db log]. by apply refresh_keeps_distinct.
  - by apply query_keeps_distinct.
  - rewrite has_object_state. by apply query_keeps_distinct.
  - unfold partial_to_complete_sha. unfold bind at 1.
    pose proof (entities_keeps_distinct d w Hnd) as Hent.
    destruct (entities_ d w) as [[l|e] w1]; [|done]. cbn [fst snd] in Hent.
    unfold bind.
    pose proof (scan_partial_db l None partial len w1) as Hscan.
    destruct (scan_partial l None partial len w1) as [[c|e] w2];
      cbn [fst snd] in *; [|by rewrite Hscan].
    destruct c as [[|b s]|]; cbn; by rewrite Hscan.
  - unfold entities, bind, ret.
    pose proof (entities_keeps_distinct d w Hnd) as Hent.
    by destruct (entities_ d w) as [[l|e] w1].
  - unfold size, entities, bind, ret.
    pose proof (entities_keeps_distinct d w Hnd) as Hent.
    by destruct (entities_ d w) as [[l|e] w1].
  - unfold sha_iter, entities. unfold bind at 1. unfold bind at 1, ret.
    pose proof (entities_keeps_distinct d w Hnd) as Hent.
    destruct (entities_ d w) as [[l|e] w1]; [|done].
    cbn [fst snd] in *. by rewrite yield_entities_db.
Qed.

(** X9: in every state the database can reach from its constructor,
    through any history of refreshes, queries, membership tests,
    completions and listings, each against whatever the directory held
    at that time (readable or not), no two registered packs have the
    same path. *)
Theorem registry_paths_stay_distinct (root_path : string)
    (history : list (Disk * request)) :
  NoDup (item_path
           <$> registered (fst (serve_all history (PackedDB_init root_path, [])))).
Proof.
  change (distinct_packs (fst (serve_all history (PackedDB_init root_path, [])))).
  assert (distinct_packs (fst (PackedDB_init root_path, @nil call))) as Hinit.
  { unfold distinct_packs, registered. cbn. constructor. }
  revert Hinit. generalize (PackedDB_init root_path, @nil call).
  induction history as [|[d r] history IH]; intros w Hw; [done|].
  cbn [serve_all]. apply IH.
  destruct r as [force|sha_|sha_|partial len| | |].
  - destruct w as [db log]. by apply refresh_keeps_distinct.
  - by apply query_keeps_distinct.
  - cbn [serve]. rewrite has_object_state. by apply query_keeps_distinct.
  - by apply (serve_keeps_distinct d (Complete partial len)).
  - by apply (serve_keeps_distinct d Entities).
  - by apply (serve_keeps_distinct d Size).
  - by apply (serve_keeps_distinct d ShaIter).
Qed.

(** ** The removal loop of update_cache *)






(** ** Listing and counting the digests *)

(** The digests in the given slots of an entity's index, and the calls
    that read them. *)
Definition slot_digests (ent : PackEntity) (slots : list Z) : list (list byte) :=
  omap (fun i => match sha (index ent) i with
                 | Ok s => Some s
                 | Raise _ => None
                 end) slots.

Definition all_slots (ent : PackEntity) : list Z :=
  seqZ 0 (index_size (index ent)).

Definition sha_calls (ents : list PackEntity) : list call :=
  concat ((fun ent => CallSha (pack_path ent) <$> all_slots ent) <$> ents).

Definition listed (ents : list PackEntity) : list (list byte) :=
  concat ((fun ent => slot_digests ent (all_slots ent)) <$> ents).

(** An index as the pack format has it: [size] slots, each holding a
    digest that [sha_to_index] finds, and [sha_to_index] finds nothing
    else. *)
Definition coherent (idx : PackIndexFile) : Prop :=
  (forall i, (0 <= i < index_size idx)%Z ->
             exists s, sha idx i = Ok s
                       /\ exists j, sha_to_index idx s = Ok (Some j))
  /\ (forall s, sha_to_index idx s = Ok None
                \/ exists i, (0 <= i < index_size idx)%Z
                             /\ sha_to_index idx s = Ok (Some i)
                             /\ sha idx i = Ok s).

Lemma yield_shas_run (ent : PackEntity) (slots : list Z) :
  (forall i, i ∈ slots -> exists s, sha (index ent) i = Ok s) ->
  forall w : world,
    yield_shas ent slots w
    = (Ok (slot_digests ent slots),
       (fst w, snd w ++ (CallSha (pack_path ent) <$> slots)))
    /\ length (slot_digests ent slots) = length slots.
Proof.
  induction slots as [|i slots IH]; intros Hok w.
  - cbn. by rewrite app_nil_r, <- surjective_pairing.
  - destruct (Hok i) as [s Hs]; [by left|].
    destruct (IH (fun j Hj => Hok j (list_elem_of_further _ _ _ Hj))
                 (fst w, snd w ++ [CallSha (pack_path ent) i])) as [Hrun Hlen].
    cbn [yield_shas]. unfold bind at 1, log_call, modify. cbn [fst snd].
    unfold bind at 1, returns. rewrite Hs. unfold bind at 1. rewrite Hrun.
    unfold ret, slot_digests. cbn [omap list_omap fst snd]. rewrite Hs.
    rewrite fmap_cons, <- app_assoc. split; [done|].
    cbn [length]. f_equal. exact Hlen.
Qed.

Lemma yield_entities_run (ents : list PackEntity) :
  Forall (fun ent => forall i, i ∈ all_slots ent ->
                               exists s, sha (index ent) i = Ok s) ents ->
  forall w : world,
    yield_entities ents w = (Ok (listed ents), (fst w, snd w ++ sha_calls ents)).
Proof.
  induction ents as [|ent ents IH]; intros Hok w.
  - cbn. by rewrite app_nil_r, <- surjective_pairing.
  - apply Forall_cons in Hok as [Hent Hok].
    cbn [yield_entities]. unfold bind at 1. fold (all_slots ent).
    rewrite (proj1 (yield_shas_run ent (all_slots ent) Hent w)).
    unfold bind at 1. rewrite (IH Hok). unfold ret. cbn [fst snd].
    unfold listed, sha_calls. rewrite !fmap_cons. cbn [concat].
    by rewrite <- app_assoc.
Qed.

Lemma listed_length (ents : list PackEntity) :
  Forall (fun ent => (0 <= index_size (index ent))%Z
                     /\ forall i, i ∈ all_slots ent ->
                                  exists s, sha (index ent) i = Ok s) ents ->
  forall a : Z,
    foldl (fun sz ent => (sz + index_size (index ent))%Z) a ents
    = (a + Z.of_nat (length (listed ents)))%Z
    /\ length (sha_calls ents) = length (listed ents).
Proof.
  induction ents as [|ent ents IH]; intros Hok a.
  - cbn. split; [lia|done].
  - apply Forall_cons in Hok as [[Hsz Hent] Hok].
    destruct (yield_shas_run ent (all_slots ent) Hent (PackedDB_init "", []))
      as [_ Hlen].
    cbn [foldl]. destruct (IH Hok (a + index_size (index ent))%Z) as [-> Hcalls].
    unfold listed, sha_calls in *. rewrite !fmap_cons. cbn [concat].
    rewrite !length_app, Hlen, Hcalls, length_fmap.
    unfold all_slots. rewrite length_seqZ. split; lia.
Qed.

Lemma entities_run_loaded (d : Disk) (db : PackedDB) (log : list call)
    (l : list item) :
  _entities db = Some l -> entities d (db, log) = (Ok (entity <$> l), (db, log)).
Proof.
  intros Hl. unfold entities, bind. by rewrite (entities_loaded d db log l Hl).
Qed.

(** X11: [sha_iter] yields as many digests as [size] counts.  On a
    database that has loaded its packs and whose indexes have a size that
    is not negative and a digest in each slot below it, [sha_iter]
    runs to its end, yields the digests of every entity's slots in
    registry order, one [sha] call each, and their number is what [size]
    returns; neither changes the database. *)
Theorem sha_iter_yields_size (d : Disk) (db : PackedDB) (log : list call)
    (l : list item) :
  _entities db = Some l ->
  Forall (fun ent => (0 <= index_size (index ent))%Z
                     /\ forall i, (0 <= i < index_size (index ent))%Z ->
                                  exists s, sha (index ent) i = Ok s)
    (entity <$> l) ->
  sha_iter d (db, log)
  = (Ok (listed (entity <$> l)), (db, log ++ sha_calls (entity <$> l)))
  /\ size d (db, log) = (Ok (Z.of_nat (length (listed (entity <$> l)))), (db, log))
  /\ length (sha_calls (entity <$> l)) = length (listed (entity <$> l)).
Proof.
  intros Hl Hok.
  assert (Forall (fun ent => (0 <= index_size (index ent))%Z
                     /\ forall i, i ∈ all_slots ent ->
                                  exists s, sha (index ent) i = Ok s)
            (entity <$> l)) as Hok'.
  { eapply Forall_impl; [exact Hok|]. intros ent [Hsz Hent]. split; [done|].
    intros i Hi%elem_of_seqZ. apply Hent. lia. }
  destruct (listed_length _ Hok' 0%Z) as [Hsum Hcalls].
  split; [|split; [|done]].
  - unfold sha_iter. unfold bind at 1. rewrite (entities_run_loaded d db log l Hl).
    rewrite yield_entities_run; [done|].
    eapply Forall_impl; [exact Hok'|]. by intros ent [_ Hent].
  - unfold size. unfold bind at 1. rewrite (entities_run_loaded d db log l Hl).
    unfold ret. by rewrite Hsum.
Qed.

Lemma elem_of_concat {A} (x : A) (ls : list (list A)) :
  x ∈ concat ls <-> exists l, x ∈ l /\ l ∈ ls.
Proof.
  induction ls as [|l ls IH]; cbn [concat].
  - split; [by intros ?%elem_of_nil|]. by intros (l & _ & ?%elem_of_nil).
  - rewrite elem_of_app, IH. split.
    + intros [Hx|(l' & Hx & Hl')].
      * exists l. split; [done|by left].
      * exists l'. split; [done|by right].
    + intros (l' & Hx & [->|Hl']%elem_of_cons); [by left|].
      right. by exists l'.
Qed.

Lemma listed_spec (ents : list PackEntity) (s : list byte) :
  s ∈ listed ents
  <-> exists ent i, ent ∈ ents /\ (0 <= i < index_size (index ent))%Z
                    /\ sha (index ent) i = Ok s.
Proof.
  unfold listed. rewrite elem_of_concat. split.
  - intros (ds & Hs & (ent & -> & Hent)%list_elem_of_fmap).
    apply list_elem_of_omap in Hs as (i & Hi%elem_of_seqZ & Hsha).
    exists ent, i. split; [done|]. split; [lia|].
    destruct (sha (index ent) i); congruence.
  - intros (ent & i & Hent & Hi & Hsha).
    exists (slot_digests ent (all_slots ent)). split.
    + apply list_elem_of_omap. exists i. split; [apply elem_of_seqZ; lia|].
      by rewrite Hsha.
    + apply list_elem_of_fmap. by exists ent.
Qed.

(** X12: [sha_iter] lists exactly what [has_object] accepts.  On a
    database that has loaded its packs and whose indexes are coherent
    ([sha_to_index] finds the digests of the slots and nothing else), a
    digest is among those [sha_iter] yields if and only if [has_object]
    answers true for it, before or after the listing. *)
Theorem listed_digests_are_found (d : Disk) (db : PackedDB) (log : list call)
    (l : list item) :
  _entities db = Some l ->
  Forall (fun ent => coherent (index ent)) (entity <$> l) ->
  exists shas,
    fst (sha_iter d (db, log)) = Ok shas
    /\ forall (s : list byte) (d' : Disk),
         (s ∈ shas <-> fst (has_object d' s (db, log)) = Ok true)
         /\ (s ∈ shas
             <-> fst (has_object d' s (snd (sha_iter d (db, log)))) = Ok true).
Proof.
  intros Hl Hco. rewrite Forall_forall in Hco.
  assert (sha_iter d (db, log)
          = (Ok (listed (entity <$> l)), (db, log ++ sha_calls (entity <$> l))))
    as Hrun.
  { unfold sha_iter. unfold bind at 1. rewrite (entities_run_loaded d db log l Hl).
    rewrite yield_entities_run; [done|].
    apply Forall_forall. intros ent Hent i Hi%elem_of_seqZ.
    destruct (proj1 (Hco ent Hent) i) as (s & Hs & _); [lia|]. by exists s. }
  exists (listed (entity <$> l)). rewrite Hrun. split; [done|].
  intros s d'. cbn [snd].
  assert (forall ent, ent ∈ entity <$> l -> responds s ent) as Hresp.
  { intros ent Hent e He.
    destruct (proj2 (Hco ent Hent) s) as [Hn|(i & _ & Hi & _)]; congruence. }
  assert (s ∈ listed (entity <$> l)
          <-> Exists (has_digest s) (entity <$> l)) as Hiff.
  { rewrite listed_spec, Exists_exists. split.
    - intros (ent & i & Hent & Hi & Hsha). exists ent. split; [done|].
      destruct (proj1 (Hco ent Hent) i Hi) as (s' & Hs' & j & Hj).
      exists j. congruence.
    - intros (ent & Hent & j & Hj). exists ent.
      destruct (proj2 (Hco ent Hent) s) as [Hn|(i & Hi & _ & Hsha)];
        [congruence|]. by exists i. }
  rewrite !(has_object_decided d' s db _ l Hl) by (by apply Forall_forall).
  rewrite Hiff. split; split.
  - intros H. by rewrite bool_decide_true.
  - intros [= H%bool_decide_eq_true]. done.
  - intros H. by rewrite bool_decide_true.
  - intros [= H%bool_decide_eq_true]. done.
Qed.


Lemma index_of_one_coherent (s : list byte) : coherent (index_of [s]).
Proof.
  split.
  - intros i Hi. cbn [index_of index_size length] in Hi.
    assert (i = 0%Z) as -> by lia. exists s. split; [done|].
    exists 0%Z. cbn [index_of sha_to_index list_find].
    by rewrite decide_True.
  - intros s'. cbn [index_of sha_to_index index_size sha list_find length].
    destruct (decide (s = s')) as [<-|Hne]; [|by left].
    right. exists 0%Z. split; [lia|done].
Qed.

Lemma sha_iter_yields_size_witness :
  sha_iter (disk_with 10 []) (db_with [pack_a; pack_c] 3, [])
  = (Ok (listed (entity <$> [pack_a; pack_c])),
     (db_with [pack_a; pack_c] 3, [] ++ sha_calls (entity <$> [pack_a; pack_c])))
  /\ size (disk_with 10 []) (db_with [pack_a; pack_c] 3, [])
     = (Ok (Z.of_nat (length (listed (entity <$> [pack_a; pack_c])))),
        (db_with [pack_a; pack_c] 3, []))
  /\ length (sha_calls (entity <$> [pack_a; pack_c]))
     = length (listed (entity <$> [pack_a; pack_c])).
Proof.
  apply (sha_iter_yields_size (disk_with 10 []) (db_with [pack_a; pack_c] 3) []
           [pack_a; pack_c] eq_refl).
  apply Forall_cons; split; [|apply Forall_cons; split; [|by apply Forall_nil]].
  - split; [cbn; lia|]. intros i Hi.
    destruct (proj1 (index_of_one_coherent _) i Hi) as (s & Hs & _). by exists s.
  - split; [cbn; lia|]. intros i Hi.
    destruct (proj1 (index_of_one_coherent _) i Hi) as (s & Hs & _). by exists s.
Defined.

Lemma listed_digests_are_found_witness :
  exists shas,
    fst (sha_iter (disk_with 10 []) (db_with [pack_a; pack_c] 3, [])) = Ok shas
    /\ forall (s : list byte) (d' : Disk),
         (s ∈ shas
          <-> fst (has_object d' s (db_with [pack_a; pack_c] 3, [])) = Ok true)
         /\ (s ∈ shas
             <-> fst (has_object d' s
                        (snd (sha_iter (disk_with 10 [])
                                (db_with [pack_a; pack_c] 3, [])))) = Ok true).
Proof.
  apply (listed_digests_are_found (disk_with 10 []) (db_with [pack_a; pack_c] 3)
           [] [pack_a; pack_c] eq_refl).
  apply Forall_cons; split; [apply index_of_one_coherent|].
  apply Forall_cons; split; [apply index_of_one_coherent|by apply Forall_nil].
Defined.

(** ** The priority of the packs hit most *)

Lemma descending_after (pre post : list item) (it : item) :
  descending (pre ++ it :: post) ->
  forall x, x ∈ post -> (hits x <= hits it)%Z.
Proof.
  unfold descending. induction pre as [|y pre IH]; cbn [app]; intros Hs x Hx.
  - apply StronglySorted_inv in Hs as [_ Hall].
    rewrite Forall_forall in Hall. by apply Hall.
  - apply StronglySorted_inv in Hs as [Hs _]. by apply IH.
Qed.

(** X13: the query that sorts finds the pack hit most.  On a database
    that has loaded its packs, when the hit counter is a multiple of the
    sort interval, the entity a query returns belongs to an entry whose
    hit count is at least that of every registered entry whose index
    does not answer [None] for the digest; so among the packs that hold
    the object, one with the largest hit count is the one found. *)
Theorem sorting_query_prefers_most_hit (d : Disk) (sha_ : list byte)
    (db : PackedDB) (log : list call) (l : list item)
    (ent : PackEntity) (slot : Z) :
  _entities db = Some l ->
  (_hit_count db mod _sort_interval = 0)%Z ->
  fst (_pack_info d sha_ (db, log)) = Ok (ent, slot) ->
  exists it,
    it ∈ l /\ entity it = ent
    /\ forall other, other ∈ l -> ~ misses sha_ other ->
                     (hits other <= hits it)%Z.
Proof.
  intros Hl Hmod Hrun.
  assert (presorted db l = sort_desc l) as Hsorted.
  { unfold presorted. by rewrite (proj2 (Z.eqb_eq _ _) Hmod). }
  destruct (query_cases d sha_ db log l Hl) as (r & l' & n & ex & Hq & Heq).
  rewrite Heq in Hrun. cbn [fst] in Hrun. subst r.
  inversion Hq as [|pre it post slot' Hsplit Hpre Hit|]; subst.
  exists it. split; [|split; [done|]].
  - rewrite <- (presorted_perm db l), Hsplit. apply elem_of_app. right. by left.
  - intros other Hother Hanswers.
    rewrite <- (presorted_perm db l), Hsplit in Hother.
    apply elem_of_app in Hother as [Hin|[->|Hin]%elem_of_cons].
    + rewrite Forall_forall in Hpre. by destruct (Hanswers (Hpre _ Hin)).
    + lia.
    + apply (descending_after pre post it); [|done].
      rewrite <- Hsplit, Hsorted. apply sort_desc_descending.
Qed.

Lemma sorting_query_prefers_most_hit_witness :
  exists it,
    it ∈ [pack_c; pack_a; pack_b] /\ entity it = entity pack_b
    /\ forall other, other ∈ [pack_c; pack_a; pack_b] ->
                     ~ misses sha_aaaa2 other ->
                     (hits other <= hits it)%Z.
Proof.
  exact (sorting_query_prefers_most_hit (disk_with 10 []) sha_aaaa2
           (db_with [pack_c; pack_a; pack_b] 500) []
           [pack_c; pack_a; pack_b] (entity pack_b) 0%Z
           eq_refl eq_refl eq_refl).
Defined.

End PackExtra.

(** * More on gitdb/util.py: the lock of LockedFD *)
Module UtilExtra.

Import Util UtilProps.
Local Open Scope py_scope.

Lemma open_refused_run (write stream : bool) (s : os_state) (path : string)
    (lf : file) :
  files s !! (path +:+ ".lock") = Some lf ->
  open write stream (s, LockedFD_init path)
  = (Raise (IOError "Lock could not be obtained"),
     (OS (files s) (fds s)
         (syslog s ++ [SysOpen (path +:+ ".lock") O_WRONLY_CREAT_EXCL]),
      MkLockedFD path None (Some write))).
Proof.
  intros Hlock. unfold open. unfold_os. unfold _lockfilepath. simpl.
  by rewrite Hlock.
Qed.

Lemma del_closed (is_win : bool) (w : world) :
  _fd (snd w) = None -> __del__ is_win w = (Ok tt, w).
Proof. intros Hfd. unfold __del__, bind, self_, ret. simpl. by rewrite Hfd. Qed.

(** X14: an [open] that finds the lock taken harms nobody.  When the
    lock file of [path] exists, [open], for reading or writing, raises
    [IOError] after the one attempt to create the lock file and leaves
    every file and descriptor as it was.  The instance keeps no
    descriptor, so whatever is done with it afterwards, [commit],
    [rollback] or its finalizer, at any later time, returns normally
    without a system call: it never removes the lock of the holder. *)
Theorem refused_open_is_harmless (is_win write stream : bool) (s : os_state)
    (path : string) (lf : file) :
  files s !! (path +:+ ".lock") = Some lf ->
  open write stream (s, LockedFD_init path)
  = (Raise (IOError "Lock could not be obtained"),
     (OS (files s) (fds s)
         (syslog s ++ [SysOpen (path +:+ ".lock") O_WRONLY_CREAT_EXCL]),
      MkLockedFD path None (Some write)))
  /\ forall (later : os_state) (successful : bool),
       _end_writing is_win successful (later, MkLockedFD path None (Some write))
       = (Ok tt, (later, MkLockedFD path None (Some write)))
       /\ __del__ is_win (later, MkLockedFD path None (Some write))
          = (Ok tt, (later, MkLockedFD path None (Some write))).
Proof.
  intros Hlock. split; [by apply (open_refused_run _ _ _ _ lf)|].
  intros later successful. split.
  - by apply end_writing_closed.
  - by apply del_closed.
Qed.

(** A file system on which ["a"] is locked by somebody. *)
Definition os_locked : os_state :=
  OS {[ "a" := File [x01] mode_644; "a.lock" := File [x09] mode_600 ]} ∅ [].

Lemma refused_open_is_harmless_witness :
  open true false (os_locked, LockedFD_init "a")
  = (Raise (IOError "Lock could not be obtained"),
     (OS (files os_locked) (fds os_locked)
         (syslog os_locked ++ [SysOpen ("a" +:+ ".lock") O_WRONLY_CREAT_EXCL]),
      MkLockedFD "a" None (Some true))).
Proof.
  exact (proj1 (refused_open_is_harmless false true false os_locked "a"
                  (File [x09] mode_600) eq_refl)).
Defined.

Lemma open_read_fails_run (s : os_state) (path : string) (stream : bool) :
  files s !! (path +:+ ".lock") = None ->
  open false stream (s, LockedFD_init path)
  = (match files s !! path with
     | None => Raise (OSError "ENOENT")
     | Some f =>
         if owner_readable f
         then Ok ((if stream then FDStream else RawFD) (Some (fresh (dom (fds s)))))
         else Raise (OSError "EACCES")
     end,
     snd (open false stream (s, LockedFD_init path)))
  /\ (match files s !! path with
      | Some f => owner_readable f = false
      | None => True
      end ->
      snd (open false stream (s, LockedFD_init path))
      = (OS (files s) (fds s)
            (syslog s ++ [SysOpen (path +:+ ".lock") O_WRONLY_CREAT_EXCL;
                          SysClose (fresh (dom (fds s)));
                          SysOpen path O_RDONLY;
                          SysRemove (path +:+ ".lock")]),
         MkLockedFD path None (Some false))).
Proof.
  intros Hlock. pose proof (lockfile_neq path) as Hne.
  destruct (files s !! path) as [f|] eqn:Hpath.
  - destruct (owner_readable f) eqn:Hread.
    + rewrite (open_read_run s path stream f) by done. done.
    + unfold open. unfold_os. unfold _lockfilepath. simpl.
      rewrite Hlock. simpl. rewrite lookup_insert_eq. simpl.
      rewrite lookup_insert_ne, Hpath by done. rewrite Hread. simpl.
      rewrite lookup_insert_eq. simpl.
      rewrite close_fresh_fd, remove_fresh_lock, <- !app_assoc by done. done.
  - unfold open. unfold_os. unfold _lockfilepath. simpl.
    rewrite Hlock. simpl. rewrite lookup_insert_eq. simpl.
    rewrite lookup_insert_ne, Hpath by done. simpl.
    rewrite lookup_insert_eq. simpl.
    rewrite close_fresh_fd, remove_fresh_lock, <- !app_assoc by done. done.
Qed.

(** X15: an [open] for reading that cannot open the file releases the
    lock.  With no lock file at [path.lock]: when [path] is absent, or
    not readable by its owner, [open] in read mode raises the [OSError]
    of [os.open]; it had taken the lock and closed the lock file's
    descriptor, and it removes the lock file before the exception leaves:
    files and descriptors are as before, and the calls are the creation
    of the lock file, its close, the failed open and the removal. *)
Theorem failed_read_releases_lock (stream : bool) (s : os_state) (path : string) :
  files s !! (path +:+ ".lock") = None ->
  match files s !! path with
  | Some f => owner_readable f = false
  | None => True
  end ->
  open false stream (s, LockedFD_init path)
  = (Raise (OSError (match files s !! path with
                     | Some _ => "EACCES"
                     | None => "ENOENT"
                     end)),
     (OS (files s) (fds s)
         (syslog s ++ [SysOpen (path +:+ ".lock") O_WRONLY_CREAT_EXCL;
                       SysClose (fresh (dom (fds s)));
                       SysOpen path O_RDONLY;
                       SysRemove (path +:+ ".lock")]),
      MkLockedFD path None (Some false))).
Proof.
  intros Hlock Hbad.
  destruct (open_read_fails_run s path stream Hlock) as [Hres Hstate].
  rewrite Hres, (Hstate Hbad).
  destruct (files s !! path) as [f|]; [|done]. by rewrite Hbad.
Qed.

(** A file system with a file that its owner may not read. *)
Definition os_secret : os_state := OS {[ "a" := File [x01] 0 ]} ∅ [].

Lemma failed_read_releases_lock_witness :
  open false true (os_secret, LockedFD_init "a")
  = (Raise (OSError "EACCES"),
     (OS (files os_secret) ∅
         [SysOpen "a.lock" O_WRONLY_CREAT_EXCL; SysClose 0;
          SysOpen "a" O_RDONLY; SysRemove "a.lock"],
      MkLockedFD "a" None (Some false))).
Proof.
  exact (failed_read_releases_lock true os_secret "a" eq_refl eq_refl).
Defined.

(** ** One holder at a time *)

(** The state while a writer holds the lock: after [open] for writing
    and the writes, before [commit] or [rollback]. *)
Definition holding (stream : bool) (s : os_state) (path : string)
    (chunks : list (list byte)) : world :=
  snd (write_transaction stream chunks (ret tt) (s, LockedFD_init path)).

Lemma holding_run (stream : bool) (s : os_state) (path : string)
    (chunks : list (list byte)) :
  files s !! (path +:+ ".lock") = None ->
  holding stream s path chunks
  = (OS (<[path +:+ ".lock" := File (concat chunks) mode_600]> (files s))
        (<[fresh (dom (fds s))
           := Descriptor (path +:+ ".lock") (length (concat chunks)) true]> (fds s))
        (syslog s ++ SysOpen (path +:+ ".lock") O_WRONLY_CREAT_EXCL
           :: (SysWrite (fresh (dom (fds s))) <$> chunks)),
     MkLockedFD path (Some (fresh (dom (fds s)))) (Some true)).
Proof.
  intros Hlock. unfold holding. by rewrite write_transaction_run.
Qed.

(** X16: one holder at a time, and nothing shows before the commit.
    With no lock file at [path.lock], while a writer holds the lock
    (after [open] and its writes): [path] is as it was and every other
    file too, the bytes written are in the lock file; an [open] by
    anybody else on the same path, for reading or writing, raises
    [IOError] and changes no file and no descriptor; once the holder
    has ended with [commit] or [rollback], the next [open] for writing
    returns. *)
Theorem lock_excludes_until_released (is_win stream : bool) (s : os_state)
    (path : string) (chunks : list (list byte)) :
  files s !! (path +:+ ".lock") = None ->
  (files (fst (holding stream s path chunks)) !! (path +:+ ".lock")
   = Some (File (concat chunks) mode_600)
   /\ forall p, p ≠ path +:+ ".lock" ->
                files (fst (holding stream s path chunks)) !! p = files s !! p)
  /\ (forall write2 stream2 : bool,
        fst (open write2 stream2
               (fst (holding stream s path chunks), LockedFD_init path))
        = Raise (IOError "Lock could not be obtained")
        /\ files (fst (snd (open write2 stream2
                              (fst (holding stream s path chunks),
                               LockedFD_init path))))
           = files (fst (holding stream s path chunks))
        /\ fds (fst (snd (open write2 stream2
                            (fst (holding stream s path chunks),
                             LockedFD_init path))))
           = fds (fst (holding stream s path chunks)))
  /\ (forall successful stream2 : bool,
        fst (open true stream2
               (fst (snd (_end_writing is_win successful
                            (holding stream s path chunks))),
                LockedFD_init path))
        = Ok ((if stream2 then FDStream else RawFD) (Some (fresh (dom (fds s)))))).
Proof.
  intros Hlock. pose proof (lockfile_neq path) as Hne.
  rewrite (holding_run stream s path chunks Hlock). cbn [fst snd files fds].
  split; [split|split].
  - by rewrite lookup_insert_eq.
  - intros p Hp. by rewrite lookup_insert_ne.
  - intros write2 stream2.
    erewrite open_refused_run; [done|]. cbn [files]. by rewrite lookup_insert_eq.
  - intros successful stream2. destruct successful.
    + change (_end_writing is_win true) with (commit is_win).
      erewrite commit_run; [|by rewrite lookup_insert_eq..].
      cbn [fst snd]. rewrite close_fresh_fd, remove_fresh_lock by done.
      rewrite open_write_run; [done|]. cbn [files]. by rewrite lookup_insert_ne.
    + change (_end_writing is_win false) with (rollback is_win).
      erewrite rollback_run; [|by rewrite lookup_insert_eq..].
      cbn [fst snd]. rewrite close_fresh_fd, remove_fresh_lock by done.
      by rewrite open_write_run.
Qed.

Lemma lock_excludes_until_released_witness :
  fst (open false false
         (fst (holding true os_example "a" [[x02]; [x03]]), LockedFD_init "a"))
  = Raise (IOError "Lock could not be obtained")
  /\ fst (open true false
            (fst (snd (_end_writing true true
                         (holding true os_example "a" [[x02]; [x03]]))),
             LockedFD_init "a"))
     = Ok (RawFD (Some (fresh (dom (fds os_example))))).
Proof.
  split.
  - exact (proj1 (proj1 (proj2 (lock_excludes_until_released true true os_example
                                  "a" [[x02]; [x03]] eq_refl)) false false)).
  - exact (proj2 (proj2 (lock_excludes_until_released true true os_example
                           "a" [[x02]; [x03]] eq_refl)) true false).
Defined.

End UtilExtra.

(** * Properties of reading files, digests as text, buffers *)
Module UtilReadProps.

Import Util UtilProps UtilExtra UtilRead.
Local Open Scope py_scope.

(** ** file_contents_ro *)

Section Mapping.

Variable mmap_ro : option (list byte) -> Z -> outcome (list byte).
Variable os_open_flags : string -> Z -> M os_state nat.

(** How the attempt to map ends: with a map, with the decision to read
    manually, or with an exception; each after some calls. *)
Inductive attempt : Type :=
  | Mapped (m : list byte) (calls : list read_call)
  | Manual (calls : list read_call)
  | Failed (e : exn) (calls : list read_call).

Definition mapping_attempt (fd : nat) (data : list byte) (allow_mmap : bool)
  : attempt :=
  let len := Z.of_nat (length data) in
  if allow_mmap then
    match mmap_ro (Some data) 0 with
    | Ok m => Mapped m [CallMmap fd 0]
    | Raise e1 =>
        if is_EnvironmentError e1 then
          match mmap_ro (Some data) len with
          | Ok m => Mapped m [CallMmap fd 0; CallFstat fd; CallMmap fd len]
          | Raise e2 =>
              if is_OSError e2
              then Manual [CallMmap fd 0; CallFstat fd; CallMmap fd len]
              else Failed e2 [CallMmap fd 0; CallFstat fd; CallMmap fd len]
          end
        else Failed e1 [CallMmap fd 0]
    end
  else Manual [].

Definition wrap (stream : bool) (data : list byte) : contents :=
  if stream then Buffer (RandomAccessBytesIO data) else Bytes data.

Definition manual_calls (fd : nat) (data : list byte) : list read_call :=
  [CallFstat fd; CallRead fd (Z.of_nat (length data))].

Lemma OSError_is_EnvironmentError (e : exn) :
  is_EnvironmentError e = false -> is_OSError e = false.
Proof. by destruct e. Qed.

Lemma take_all_dropped (pos : nat) (data : list byte) :
  take (Z.to_nat (Z.of_nat (length data))) (drop pos data) = drop pos data.
Proof. apply take_ge. rewrite length_drop. lia. Qed.

Ltac unfold_read :=
  unfold call_mmap_ro, os_fstat_size, os_read, log_read, on_os, behind,
    set_fds, bind, ret, raise, get, modify, try_except.

Lemma manual_read_run (F : gmap string file) (D : gmap nat descriptor)
    (L : list syscall) (log : list read_call) (fd : nat) (path : string)
    (pos : nat) (f : file) (stream : bool) :
  D !! fd = Some (Descriptor path pos false) ->
  F !! path = Some f ->
  (st_size <- os_fstat_size fd ;;
   data <- os_read fd st_size ;;
   if stream then ret (Buffer (RandomAccessBytesIO data))
   else ret (Bytes data)) (OS F D L, log)
  = (Ok (wrap stream (drop pos (f_data f))),
     (OS F (<[fd := Descriptor path (pos + length (drop pos (f_data f))) false]> D) L,
      log ++ manual_calls fd (f_data f))).
Proof.
  intros HD HF. unfold_read. cbn [fst snd fds files]. rewrite HD.
  cbn [d_path d_pos d_writable]. rewrite HF. cbn [fst snd fds files].
  rewrite HD. cbn [d_path d_pos d_writable]. rewrite HF.
  destruct (Z.ltb_spec (Z.of_nat (length (f_data f))) 0) as [Hneg|_]; [lia|].
  cbn [fst snd fds files syslog]. rewrite take_all_dropped.
  unfold manual_calls. rewrite <- app_assoc. by destruct stream.
Qed.

Lemma file_contents_ro_run (F : gmap string file) (D : gmap nat descriptor)
    (L : list syscall) (log : list read_call) (fd : nat) (path : string)
    (pos : nat) (f : file) (stream allow_mmap : bool) :
  D !! fd = Some (Descriptor path pos false) ->
  F !! path = Some f ->
  file_contents_ro mmap_ro fd stream allow_mmap (OS F D L, log)
  = match mapping_attempt fd (f_data f) allow_mmap with
    | Mapped m calls => (Ok (Buffer (MMap m)), (OS F D L, log ++ calls))
    | Manual calls =>
        (Ok (wrap stream (drop pos (f_data f))),
         (OS F (<[fd := Descriptor path (pos + length (drop pos (f_data f))) false]> D) L,
          (log ++ calls) ++ manual_calls fd (f_data f)))
    | Failed e calls => (Raise e, (OS F D L, log ++ calls))
    end.
Proof.
  intros HD HF. unfold file_contents_ro, mapping_attempt.
  destruct allow_mmap.
  - unfold bind at 1. unfold try_except at 1. unfold try_except at 1.
    unfold bind at 1. unfold call_mmap_ro at 1.
    unfold bind at 1, log_read at 1, modify at 1. cbn [fst snd].
    unfold bind at 1, get at 1. cbn [fst snd]. unfold behind at 1.
    cbn [fds files]. rewrite HD. cbn [d_path]. rewrite HF. cbn [fmap option_fmap option_map].
    destruct (mmap_ro (Some (f_data f)) 0) as [m|e1] eqn:Hm1.
    + done.
    + destruct (is_EnvironmentError e1) eqn:Henv.
      * unfold bind at 1. unfold os_fstat_size at 1.
        unfold bind at 1, log_read at 1, modify at 1. cbn [fst snd].
        unfold bind at 1, get at 1. cbn [fst snd]. unfold behind at 1.
        cbn [fds files]. rewrite HD. cbn [d_path]. rewrite HF.
        unfold ret at 1. unfold bind at 1. unfold call_mmap_ro at 1.
        unfold bind at 1, log_read at 1, modify at 1. cbn [fst snd].
        unfold bind at 1, get at 1. cbn [fst snd]. unfold behind at 1.
        cbn [fds files]. rewrite HD. cbn [d_path]. rewrite HF.
        cbn [fmap option_fmap option_map].
        destruct (mmap_ro (Some (f_data f)) (Z.of_nat (length (f_data f))))
          as [m|e2] eqn:Hm2.
        -- unfold ret. by rewrite <- !app_assoc.
        -- destruct (is_OSError e2) eqn:Hos.
           ++ unfold ret at 1.
              rewrite (manual_read_run F D L _ fd path pos f stream HD HF).
              by rewrite <- !app_assoc.
           ++ by rewrite <- !app_assoc.
      * by rewrite (OSError_is_EnvironmentError e1 Henv).
  - unfold bind at 1. unfold try_except at 1. unfold ret at 1.
    rewrite (manual_read_run F D L _ fd path pos f stream HD HF).
    by rewrite app_nil_r.
Qed.

Lemma filepath_run (s : os_state) (log : list read_call) (path : string)
    (f : file) (stream allow_mmap : bool) :
  files s !! path = Some f -> owner_readable f = true ->
  file_contents_ro_filepath mmap_ro os_open_flags path stream allow_mmap 0 (s, log)
  = (match mapping_attempt (fresh (dom (fds s))) (f_data f) allow_mmap with
     | Mapped m _ => Ok (Buffer (MMap m))
     | Manual _ => Ok (wrap stream (f_data f))
     | Failed e _ => Raise e
     end,
     (OS (files s) (fds s)
         (syslog s ++ [SysOpen path O_RDONLY; SysClose (fresh (dom (fds s)))]),
      match mapping_attempt (fresh (dom (fds s))) (f_data f) allow_mmap with
      | Mapped _ calls => log ++ calls
      | Manual calls =>
          (log ++ calls) ++ manual_calls (fresh (dom (fds s))) (f_data f)
      | Failed _ calls => log ++ calls
      end)).
Proof.
  intros Hpath Hread. unfold file_contents_ro_filepath, open_for_reading.
  cbn [Z.eqb].
  unfold bind at 1, on_os at 1, os_open. unfold_os. cbn [fst snd files fds syslog].
  rewrite Hpath, Hread. cbn [fst snd files fds syslog].
  set (fd := fresh (dom (fds s))).
  unfold try_finally.
  rewrite (file_contents_ro_run _ _ _ log fd path 0 f stream allow_mmap);
    [|by rewrite lookup_insert_eq|done].
  destruct (mapping_attempt fd (f_data f) allow_mmap) as [m calls|calls|e calls];
    unfold on_os, os_close; unfold_os; cbn [fst snd files fds syslog];
    rewrite ?lookup_insert_eq; cbn [fst snd files fds syslog];
    rewrite ?insert_insert_eq; unfold fd; rewrite close_fresh_fd, <- !app_assoc;
    done.
Qed.

Lemma filepath_missing (s : os_state) (log : list read_call) (path : string)
    (stream allow_mmap : bool) :
  match files s !! path with
  | Some f => owner_readable f = false
  | None => True
  end ->
  file_contents_ro_filepath mmap_ro os_open_flags path stream allow_mmap 0 (s, log)
  = (Raise (OSError (match files s !! path with
                     | Some _ => "EACCES"
                     | None => "ENOENT"
                     end)),
     (OS (files s) (fds s) (syslog s ++ [SysOpen path O_RDONLY]), log)).
Proof.
  intros Hbad. unfold file_contents_ro_filepath, open_for_reading.
  cbn [Z.eqb].
  unfold bind at 1, on_os at 1, os_open. unfold_os. cbn [fst snd files fds syslog].
  destruct (files s !! path) as [f|]; [|done]. by rewrite Hbad.
Qed.

(** *** What reading through a descriptor can change *)

(** Of the operating system, only the entry of [fd] in the table of
    descriptors. *)
Definition touches_only (fd : nat) (s s' : os_state) : Prop :=
  files s' = files s /\ syslog s' = syslog s
  /\ delete fd (fds s') = delete fd (fds s).

Definition confined {A} (fd : nat) (m : M rworld A) : Prop :=
  forall w, touches_only fd (fst w) (fst (snd (m w))).

Lemma touches_only_refl (fd : nat) (s : os_state) : touches_only fd s s.
Proof. done. Qed.



Lemma confined_raise {A} fd e : confined fd (@raise rworld A e).
Proof. intros w. apply touches_only_refl. Qed.



Lemma confined_log_read fd c : confined fd (log_read c).
Proof. intros w. apply touches_only_refl. Qed.






(** X18: reading without mapping.  With the default [flags] (0), for a
    file that exists and is readable, [file_contents_ro_filepath] with
    [allow_mmap=False] returns exactly the bytes of the file ([bytes],
    or a [_RandomAccessBytesIO] around them when [stream] is set), by
    one [fstat] and one [read] on the descriptor it opened and closed,
    whatever the platform's [mmap] would do: it is never called.  A
    file that is missing gives the [OSError] of [os.open]. *)
Theorem read_without_mapping (s : os_state) (log : list read_call)
    (path : string) (stream : bool) :
  (forall f, files s !! path = Some f -> owner_readable f = true ->
     file_contents_ro_filepath mmap_ro os_open_flags path stream false 0 (s, log)
     = (Ok (wrap stream (f_data f)),
        (OS (files s) (fds s)
            (syslog s ++ [SysOpen path O_RDONLY; SysClose (fresh (dom (fds s)))]),
         log ++ [CallFstat (fresh (dom (fds s)));
                 CallRead (fresh (dom (fds s))) (Z.of_nat (length (f_data f)))])))
  /\ (files s !! path = None ->
      file_contents_ro_filepath mmap_ro os_open_flags path stream false 0 (s, log)
      = (Raise (OSError "ENOENT"),
         (OS (files s) (fds s) (syslog s ++ [SysOpen path O_RDONLY]), log))).
Proof.
  split.
  - intros f Hpath Hread.
    rewrite (filepath_run s log path f stream false Hpath Hread).
    cbn [mapping_attempt]. by rewrite app_nil_r.
  - intros Hpath. rewrite filepath_missing; by rewrite Hpath.
Qed.

(** X19: what happens when mapping fails.  With the default [flags]
    (0), for a file that exists and is readable, with [allow_mmap=True]:
    a first [mmap] that succeeds gives the map; when it raises an
    [EnvironmentError] the map is tried again with the size of the file,
    and that map is returned if it succeeds; when the second attempt
    raises an [OSError] the file is read manually and the result is the
    bytes of the file, as with [allow_mmap=False]; any other exception,
    of the first attempt when it is not an [EnvironmentError] or of the
    second when it is not an [OSError], reaches the caller, and nothing
    is read. *)
Theorem mapping_failures (s : os_state) (log : list read_call) (path : string)
    (f : file) (stream : bool) :
  files s !! path = Some f -> owner_readable f = true ->
  fst (file_contents_ro_filepath mmap_ro os_open_flags path stream true 0 (s, log))
  = match mmap_ro (Some (f_data f)) 0 with
    | Ok m => Ok (Buffer (MMap m))
    | Raise e1 =>
        if is_EnvironmentError e1 then
          match mmap_ro (Some (f_data f)) (Z.of_nat (length (f_data f))) with
          | Ok m => Ok (Buffer (MMap m))
          | Raise e2 =>
              if is_OSError e2 then Ok (wrap stream (f_data f)) else Raise e2
          end
        else Raise e1
    end.
Proof.
  intros Hpath Hread.
  rewrite (filepath_run s log path f stream true Hpath Hread).
  cbn [fst]. unfold mapping_attempt.
  destruct (mmap_ro (Some (f_data f)) 0) as [m|e1]; [done|].
  destruct (is_EnvironmentError e1); [|done].
  destruct (mmap_ro (Some (f_data f)) _) as [m|e2]; [done|].
  by destruct (is_OSError e2).
Qed.

(** X20: a manual read starts where the descriptor stands and leaves it
    at the end.  On a descriptor open for reading at position [pos] of a
    file, [file_contents_ro] with [allow_mmap=False] returns the bytes
    from [pos] on and moves the descriptor to the end of what it read,
    so a second call on the same descriptor returns no bytes. *)
Theorem manual_read_moves_position (F : gmap string file)
    (D : gmap nat descriptor) (L : list syscall) (log : list read_call)
    (fd : nat) (path : string) (pos : nat) (f : file) (stream : bool) :
  D !! fd = Some (Descriptor path pos false) ->
  F !! path = Some f ->
  pos <= length (f_data f) ->
  file_contents_ro mmap_ro fd stream false (OS F D L, log)
  = (Ok (wrap stream (drop pos (f_data f))),
     (OS F (<[fd := Descriptor path (length (f_data f)) false]> D) L,
      log ++ manual_calls fd (f_data f)))
  /\ fst (file_contents_ro mmap_ro fd stream false
            (snd (file_contents_ro mmap_ro fd stream false (OS F D L, log))))
     = Ok (wrap stream []).
Proof.
  intros HD HF Hpos.
  assert (pos + length (drop pos (f_data f)) = length (f_data f)) as Hend
    by (rewrite length_drop; lia).
  rewrite (file_contents_ro_run F D L log fd path pos f stream false HD HF).
  cbn [mapping_attempt]. rewrite app_nil_r, Hend. split; [done|].
  cbn [snd].
  rewrite (file_contents_ro_run F _ L _ fd path (length (f_data f)) f stream false);
    [|by rewrite lookup_insert_eq|done].
  cbn [mapping_attempt fst]. by rewrite drop_all.
Qed.

End Mapping.

(** A platform for examples: [mmap] refuses an empty file with
    [ValueError] and maps any other. *)
Definition mmap_nonempty (data : option (list byte)) (len : Z)
  : outcome (list byte) :=
  match data with
  | Some [] => Raise (OtherError "ValueError")
  | Some bs => Ok bs
  | None => Raise (OSError "EBADF")
  end.

(** And [os.open] refuses any flag added to the read-only mode. *)
Definition no_other_flags (path : string) (flags : Z) : M os_state nat :=
  fun s => (Raise (OSError "EINVAL"), s).

Lemma read_without_mapping_witness :
  file_contents_ro_filepath mmap_nonempty no_other_flags "a" false false 0
    (os_example, [])
  = (Ok (Bytes [x01]),
     (OS (files os_example) ∅ [SysOpen "a" O_RDONLY; SysClose 0],
      [CallFstat 0; CallRead 0 1])).
Proof.
  exact (proj1 (read_without_mapping mmap_nonempty no_other_flags os_example []
                  "a" false)
           (File [x01] mode_644) eq_refl eq_refl).
Defined.

(** On that platform an empty file cannot be read with [allow_mmap=True]. *)
Lemma mapping_failures_witness :
  fst (file_contents_ro_filepath mmap_nonempty no_other_flags "e" false true 0
         (OS {[ "e" := File [] mode_644 ]} ∅ [], []))
  = Raise (OtherError "ValueError").
Proof.
  exact (mapping_failures mmap_nonempty no_other_flags
           (OS {[ "e" := File [] mode_644 ]} ∅ [])
           [] "e" (File [] mode_644) false eq_refl eq_refl).
Defined.

Lemma manual_read_moves_position_witness :
  file_contents_ro mmap_nonempty 3 false false
    (OS {[ "a" := File [x01; x02; x03] mode_644 ]}
        {[ 3 := Descriptor "a" 1 false ]} [], [])
  = (Ok (Bytes [x02; x03]),
     (OS {[ "a" := File [x01; x02; x03] mode_644 ]}
         (<[3 := Descriptor "a" 3 false]> {[ 3 := Descriptor "a" 1 false ]}) [],
      [] ++ manual_calls 3 [x01; x02; x03])).
Proof.
  exact (proj1 (manual_read_moves_position mmap_nonempty
                  {[ "a" := File [x01; x02; x03] mode_644 ]}
                  {[ 3 := Descriptor "a" 1 false ]} [] [] 3 "a" 1
                  (File [x01; x02; x03] mode_644) false eq_refl eq_refl
                  ltac:(simpl; lia))).
Defined.

(** ** Writing through LockedFD, then reading *)

Lemma mode_644_readable (data : list byte) :
  owner_readable (File data mode_644) = true.
Proof. reflexivity. Qed.

(** X21: what a committed transaction wrote is what is read back, and
    nothing of it shows before.  With no lock file at [path.lock]: after
    [open] for writing, the writes and [commit], reading [path] with
    [file_contents_ro_filepath] (default [flags], without mapping)
    returns exactly the bytes written, in order; while the writer still
    holds the lock, and after a [rollback], a reader of an existing
    readable [path] gets its old bytes. *)
Theorem committed_bytes_are_read_back
    (mmap_ro : option (list byte) -> Z -> outcome (list byte))
    (os_open_flags : string -> Z -> M os_state nat)
    (is_win stream rstream : bool) (s : os_state) (path : string)
    (chunks : list (list byte)) (log : list read_call) :
  files s !! (path +:+ ".lock") = None ->
  fst (file_contents_ro_filepath mmap_ro os_open_flags path rstream false 0
         (fst (snd (write_transaction stream chunks (commit is_win)
                      (s, LockedFD_init path))), log))
  = Ok (wrap rstream (concat chunks))
  /\ forall f, files s !! path = Some f -> owner_readable f = true ->
       fst (file_contents_ro_filepath mmap_ro os_open_flags path rstream false 0
              (fst (holding stream s path chunks), log))
       = Ok (wrap rstream (f_data f))
       /\ fst (file_contents_ro_filepath mmap_ro os_open_flags path rstream false 0
                 (fst (snd (write_transaction stream chunks (rollback is_win)
                              (s, LockedFD_init path))), log))
          = Ok (wrap rstream (f_data f)).
Proof.
  intros Hlock. pose proof (lockfile_neq path) as Hne. split.
  - rewrite write_commit_run by done. cbn [fst snd].
    rewrite (filepath_run mmap_ro os_open_flags _ log path
               (File (concat chunks) mode_644));
      [done| |done].
    cbn [files]. by rewrite lookup_insert_eq.
  - intros f Hpath Hread. split.
    + rewrite (holding_run stream s path chunks Hlock). cbn [fst snd].
      rewrite (filepath_run mmap_ro os_open_flags _ log path f); [done| |done].
      cbn [files]. by rewrite lookup_insert_ne.
    + rewrite write_rollback_run by done. cbn [fst snd].
      by rewrite (filepath_run mmap_ro os_open_flags _ log path f).
Qed.

Lemma committed_bytes_are_read_back_witness :
  fst (file_contents_ro_filepath mmap_nonempty no_other_flags "a" false false 0
         (fst (snd (write_transaction false [[x02; x03]; [x04]] (commit true)
                      (os_example, LockedFD_init "a"))), []))
  = Ok (wrap false (concat [[x02; x03]; [x04]])).
Proof.
  exact (proj1 (committed_bytes_are_read_back mmap_nonempty no_other_flags
                  true false false os_example "a" [[x02; x03]; [x04]] []
                  eq_refl)).
Defined.

(** ** Digests as text *)

Section HexLaws.

Variable bin_to_hex : list byte -> list byte.
Variable hex_to_bin : list byte -> outcome (list byte).

(** What is used of [binascii]: two characters for a byte, and
    [a2b_hex] undoes [b2a_hex]. *)
Hypothesis b2a_length : forall b, length (bin_to_hex b) = 2 * length b.
Hypothesis a2b_b2a : forall b, hex_to_bin (bin_to_hex b) = Ok b.

(** X22: [to_bin_sha] undoes [to_hex_sha], except where the length
    misleads.  Both functions decide by the length alone whether their
    argument is already in the form asked for.  For binary data of any
    length but 10 and 40, in particular for a 20-byte digest,
    [to_bin_sha(to_hex_sha(b))] is [b], and the text of a 20-byte digest
    has 40 characters and is left alone by a second [to_hex_sha].  Ten
    bytes become 20 characters, which [to_bin_sha] takes for a binary
    digest and returns as they are; 40 bytes are taken for text by
    [to_hex_sha] and returned as they are. *)
Theorem sha_text_round_trip (b : list byte) :
  (length b ≠ 10 -> length b ≠ 40 ->
   to_bin_sha hex_to_bin (to_hex_sha bin_to_hex b) = Ok b)
  /\ (length b = 20 ->
      length (to_hex_sha bin_to_hex b) = 40
      /\ to_hex_sha bin_to_hex (to_hex_sha bin_to_hex b) = to_hex_sha bin_to_hex b)
  /\ (length b = 10 ->
      to_bin_sha hex_to_bin (to_hex_sha bin_to_hex b) = Ok (bin_to_hex b))
  /\ (length b = 40 ->
      to_hex_sha bin_to_hex b = b
      /\ to_bin_sha hex_to_bin (to_hex_sha bin_to_hex b) = hex_to_bin b).
Proof.
  unfold to_hex_sha, to_bin_sha. split; [|split; [|split]].
  - intros H10 H40.
    rewrite (proj2 (Nat.eqb_neq _ _) H40).
    rewrite (proj2 (Nat.eqb_neq (length (bin_to_hex b)) 20))
      by (rewrite b2a_length; lia).
    apply a2b_b2a.
  - intros H20. rewrite H20. cbn [Nat.eqb].
    assert (length (bin_to_hex b) = 40) as Hlen by (rewrite b2a_length; lia).
    split; [done|]. by rewrite Hlen.
  - intros H10. rewrite H10. cbn [Nat.eqb].
    assert (length (bin_to_hex b) = 20) as Hlen by (rewrite b2a_length; lia).
    by rewrite Hlen.
  - intros H40. rewrite H40. cbn [Nat.eqb]. split; [done|].
    by rewrite H40.
Qed.

End HexLaws.

(** [binascii.b2a_hex] and [binascii.a2b_hex], for the examples. *)
Definition hex_digit (n : N) : byte :=
  nth (N.to_nat n)
    [x30; x31; x32; x33; x34; x35; x36; x37; x38; x39;
     x61; x62; x63; x64; x65; x66] x30.

Definition b2a_hex (bs : list byte) : list byte :=
  concat ((fun b => [hex_digit (N.shiftr (Byte.to_N b) 4);
                     hex_digit (N.land (Byte.to_N b) 15)]) <$> bs).

Definition digit_value (c : byte) : option N :=
  let n := Byte.to_N c in
  if ((48 <=? n) && (n <=? 57))%N then Some (n - 48)%N
  else if ((97 <=? n) && (n <=? 102))%N then Some (n - 87)%N
  else if ((65 <=? n) && (n <=? 70))%N then Some (n - 55)%N
  else None.

Fixpoint a2b_hex (cs : list byte) : outcome (list byte) :=
  match cs with
  | [] => Ok []
  | [_] => Raise (OtherError "binascii.Error")
  | h :: l :: rest =>
      match digit_value h, digit_value l with
      | Some a, Some b =>
          match Byte.of_N (16 * a + b), a2b_hex rest with
          | Some x, Ok xs => Ok (x :: xs)
          | _, Raise e => Raise e
          | None, _ => Raise (OtherError "binascii.Error")
          end
      | _, _ => Raise (OtherError "binascii.Error")
      end
  end.

Lemma b2a_hex_length (b : list byte) : length (b2a_hex b) = 2 * length b.
Proof.
  unfold b2a_hex. induction b as [|x b IH]; [done|].
  rewrite fmap_cons. cbn [concat]. rewrite length_app, IH. simpl. lia.
Qed.

Lemma a2b_hex_byte (x : byte) :
  match digit_value (hex_digit (N.shiftr (Byte.to_N x) 4)),
        digit_value (hex_digit (N.land (Byte.to_N x) 15)) with
  | Some a, Some b => Byte.of_N (16 * a + b) = Some x
  | _, _ => False
  end.
Proof. destruct x; vm_compute; reflexivity. Qed.

Lemma a2b_b2a_hex (b : list byte) : a2b_hex (b2a_hex b) = Ok b.
Proof.
  unfold b2a_hex. induction b as [|x b IH]; [done|].
  rewrite fmap_cons. cbn [concat app a2b_hex].
  pose proof (a2b_hex_byte x) as Hx.
  destruct (digit_value (hex_digit (N.shiftr (Byte.to_N x) 4))) as [hi|]; [|done].
  destruct (digit_value (hex_digit (N.land (Byte.to_N x) 15))) as [lo|]; [|done].
  by rewrite Hx, IH.
Qed.

Lemma sha_text_round_trip_witness :
  to_bin_sha a2b_hex (to_hex_sha b2a_hex (replicate 20 xab))
  = Ok (replicate 20 xab).
Proof.
  apply (proj1 (sha_text_round_trip b2a_hex a2b_hex b2a_hex_length a2b_b2a_hex
                  (replicate 20 xab))); simpl; lia.
Defined.

(** ** Buffers *)

Lemma py_index_replicate {A} (x : A) (n : nat) (i : Z) :
  py_index (replicate n x) i
  = if ((- Z.of_nat n <=? i) && (i <? Z.of_nat n))%Z then Ok x
    else Raise (OtherError "IndexError").
Proof.
  unfold py_index. rewrite length_replicate.
  destruct (Z.ltb_spec i 0) as [Hneg|Hpos].
  - destruct (Z.leb_spec (- Z.of_nat n) i) as [Hin|Hout].
    + rewrite (proj2 (Z.leb_le 0 (i + Z.of_nat n))) by lia.
      rewrite (proj2 (Z.ltb_lt i (Z.of_nat n))) by lia. cbn [andb].
      rewrite lookup_replicate_2 by lia. done.
    + rewrite (proj2 (Z.leb_gt 0 (i + Z.of_nat n))) by lia. done.
  - rewrite (proj2 (Z.leb_le 0 i)) by lia.
    rewrite (proj2 (Z.leb_le (- Z.of_nat n) i)) by lia. cbn [andb].
    destruct (Z.ltb_spec i (Z.of_nat n)) as [Hin|Hout].
    + rewrite lookup_replicate_2 by lia. done.
    + rewrite lookup_ge_None_2; [done|]. rewrite length_replicate. lia.
Qed.

(** X23: the block of [allocate_memory] is zero-filled either way.  For
    a size [N > 0] on a platform whose anonymous [mmap] gives [N] zero
    bytes or refuses with an [EnvironmentError], the block returned holds
    exactly [N] zero bytes, whether it is the map or the
    [_RandomAccessBytesIO] of the fallback; read with [__len__],
    [__getitem__] and [__getslice__] of [_RandomAccessBytesIO], these
    bytes have length [N], each index from [-N] to [N - 1] gives 0 and
    any other raises [IndexError], and the slice over all of it gives
    the [N] bytes. *)
Theorem allocated_block_is_zero_filled (mmap_anon : Z -> outcome (list byte))
    (N : Z) (log : list mmap_call) :
  (0 < N)%Z ->
  (forall data, mmap_anon N = Ok data -> data = replicate (Z.to_nat N) x00) ->
  (forall e, mmap_anon N = Raise e -> is_EnvironmentError e = true) ->
  exists buf,
    fst (allocate_memory mmap_anon N log) = Ok buf
    /\ getvalue buf = replicate (Z.to_nat N) x00
    /\ __len__ (getvalue buf) = N
    /\ (forall i, __getitem__ (getvalue buf) i
                  = if ((- N <=? i) && (i <? N))%Z then Ok x00
                    else Raise (OtherError "IndexError"))
    /\ __getslice__ (getvalue buf) 0 N = getvalue buf.
Proof.
  intros HN Hzero Hrefuse.
  assert (exists buf, fst (allocate_memory mmap_anon N log) = Ok buf
                      /\ getvalue buf = replicate (Z.to_nat N) x00)
    as (buf & Hrun & Hval).
  { destruct (mmap_anon N) as [data|e] eqn:Hmap.
    - exists (MMap data).
      rewrite (allocate_memory_mapped mmap_anon N data log) by (done || lia).
      split; [done|]. by apply Hzero.
    - exists (RandomAccessBytesIO (replicate (Z.to_nat N) x00)).
      rewrite (allocate_memory_refused mmap_anon N e log) by (auto || lia).
      done. }
  exists buf. rewrite Hval. split; [done|]. split; [done|].
  split; [|split].
  - unfold __len__. rewrite length_replicate. lia.
  - intros i. unfold __getitem__. rewrite py_index_replicate.
    by rewrite Z2Nat.id by lia.
  - unfold __getslice__, py_slice, py_bound. rewrite length_replicate.
    rewrite Z2Nat.id by lia. cbn [Z.ltb Z.compare].
    rewrite (proj2 (Z.ltb_ge N 0)) by lia.
    rewrite Z.min_id, Z.min_l by lia. rewrite Z.sub_0_r. cbn [Z.to_nat drop].
    apply take_ge. rewrite length_replicate. lia.
Qed.

Lemma allocated_block_is_zero_filled_witness :
  exists buf,
    fst (allocate_memory small_mmap 8192 []) = Ok buf
    /\ getvalue buf = replicate (Z.to_nat 8192) x00
    /\ __len__ (getvalue buf) = 8192%Z
    /\ (forall i, __getitem__ (getvalue buf) i
                  = if ((- 8192 <=? i) && (i <? 8192))%Z then Ok x00
                    else Raise (OtherError "IndexError"))
    /\ __getslice__ (getvalue buf) 0 8192 = getvalue buf.
Proof.
  apply (allocated_block_is_zero_filled small_mmap 8192 []).
  - lia.
  - intros data Hdata. discriminate Hdata.
  - intros e Hrefused. injection Hrefused as <-. reflexivity.
Defined.

End UtilReadProps.
